(** * Biosolid dispatch: the greedy day loop, its indices and the reconciler

    Shallow embedding of
      - [src/results/src/data_manager.py]  (class [DataManager]),
      - [src/src/solver.py]                (class [GreedySolver]),
      - [src/submission/source_code/calculate_metrics.py] ([calculate_metrics]),
      - [src/submission/source_code/app.py] (the rain lock of the dashboard).

    Conventions of the embedding.
      - Numbers (tons, kg, km, credits) are exact rationals [Q]; the Python
        literals [1.1] and [0.2] are [11/10] and [2/10].  Equations between
        computed quantities are stated with [==] ([Qeq]).
      - The two sums of rainfall that are compared with the rain-lock
        threshold are computed by pandas in float64, where a sum of
        readings need not be their exact sum; these two library calls are
        parameters of the embedding ([DataManager.Rolling] and the
        [frame_sum] of [App]).
      - Every cell of the demand table holds a number; a table with empty
        cells (NaN) is outside the embedding.
      - A calendar date is its ordinal day number (a [Z]); the strings
        produced by [strftime('%Y-%m-%d')] are in bijection with dates, so
        dictionaries keyed by [date_str] are keyed by the date itself.
      - A pandas table is the list of its rows, in row order.
      - Python dictionaries that are only looked up and assigned are
        [gmap]s; the one dictionary that is iterated ([farm_zone_map]) is
        an association list in insertion order. *)

From Stdlib Require Import QArith Qminmax Lqa ZArith Lia Sorted.
From stdpp Require Import gmap strings list fin_maps.

Open Scope Q_scope.

(** ** Numbers *)

(** Python's [a < b] on numbers. *)
Definition Qltb (x y : Q) : bool := negb (Qle_bool y x).

(** [sum(...)] of a column. *)
Definition Qsum (l : list Q) : Q := foldr Qplus 0 l.

(** [d.get(k, 0)] on a dictionary of numbers. *)
Definition get0 {K} `{Countable K} (m : gmap K Q) (k : K) : Q := default 0 (m !! k).

(** ** Configuration ([config.json]) *)

Record Config := {
  truck_capacity_tons : Q;
  nitrogen_content_kg_per_ton_biosolid : Q;
  stp_overflow_penalty_kg_co2_per_ton : Q;
  synthetic_n_offset_credit_kg_co2_per_kg_n : Q;
  soil_organic_carbon_gain_kg_co2_per_kg_biosolid : Q;
  diesel_emission_factor_kg_co2_per_km : Q;
  leaching_penalty_kg_co2_per_kg_excess_n : Q;
  rain_lock_threshold_mm : Q;
  forecast_window_days : nat;
  year : Z
}.

(** ** Input tables *)

(** A row of [stp_registry.csv]. *)
Record StpRow := {
  stp_id : string;
  stp_lat : Q;
  stp_lon : Q;
  daily_output_tons : Q;
  storage_max_tons : Q
}.

(** A row of [farm_locations.csv]. *)
Record FarmRow := {
  farm_id : string;
  farm_lat : Q;
  farm_lon : Q;
  zone : string
}.

(** A row of [daily_weather_2025.csv]: the date and one reading per zone
    column; a column without a reading is a missing value (NaN). *)
Record WeatherRow := {
  w_date : Z;
  w_rain : gmap string Q
}.

(** The weather table: its zone columns and its rows. *)
Record WeatherDF := {
  w_zones : list string;
  w_rows : list WeatherRow
}.

(** A row of [daily_n_demand.csv]: the date and one demand per farm
    column; a farm without a column has no key.  Every cell holds a
    number (see the conventions). *)
Record DemandRow := {
  d_date : Z;
  d_cols : gmap string Q
}.

(** ** Calendar: [pd.date_range(f"{year}-01-01", f"{year}-12-31")] *)

Definition is_leap (y : Z) : bool :=
  ((y mod 4 =? 0)%Z && negb (y mod 100 =? 0)%Z) || (y mod 400 =? 0)%Z.

(** Ordinal of January 1st of year [y] (proleptic Gregorian calendar). *)
Definition jan1 (y : Z) : Z :=
  (365 * (y - 1) + (y - 1) / 4 - (y - 1) / 100 + (y - 1) / 400 + 1)%Z.

Definition year_dates (y : Z) : list Z :=
  seqZ (jan1 y) (if is_leap y then 366 else 365)%Z.

(** ** Stable descending sort: [list.sort(key=..., reverse=True)]

    Python's sort is stable also with [reverse=True]: among equal keys the
    original order is kept.  [ltb x y] is "key of [x] < key of [y]". *)

Section Sorting.
Context {A : Type} (ltb : A -> A -> bool).

Fixpoint insert_desc (x : A) (l : list A) : list A :=
  match l with
  | [] => [x]
  | y :: l' => if ltb x y then y :: insert_desc x l' else x :: y :: l'
  end.

Definition sort_desc (l : list A) : list A := foldr insert_desc [] l.
End Sorting.

(** ** DataManager *)

Module DataManager.

Record t := {
  config : Config;
  stp_df : list StpRow;
  farm_df : list FarmRow;
  weather_df : WeatherDF;
  demand_df : list DemandRow;
  distance_matrix : gmap (string * string) Q;
  rain_lock_matrix : gmap Z (gmap string bool)
}.

(** [_compute_distance_matrix]: one entry per (plant row, farm row); the
    great-circle function lives in [utils.py] and is a parameter here. *)
Definition _compute_distance_matrix (haversine_distance : Q -> Q -> Q -> Q -> Q)
    (stps : list StpRow) (farms : list FarmRow) : gmap (string * string) Q :=
  foldl (fun dist_matrix stp =>
    foldl (fun dist_matrix farm =>
      <[(stp_id stp, farm_id farm) :=
          haversine_distance (stp_lat stp) (stp_lon stp) (farm_lat farm) (farm_lon farm)]>
        dist_matrix) dist_matrix farms) ∅ stps.

(** [set_index('date').sort_index()]: rows in ascending date order
    (rows of one date are kept in file order here; what is proved of the
    order is about tables with one row per date). *)
Fixpoint insert_by_date (r : WeatherRow) (l : list WeatherRow) : list WeatherRow :=
  match l with
  | [] => [r]
  | x :: l' => if (w_date x <? w_date r)%Z then x :: insert_by_date r l'
               else r :: x :: l'
  end.

Definition sort_index (rows : list WeatherRow) : list WeatherRow :=
  foldr insert_by_date [] rows.

(** [rain_df[zones].rolling(window=FixedForwardWindowIndexer(window_size=W),
    min_periods=1).sum()] is pandas code, and it works in float64: its
    result is not the exact sum of the window.  It is a parameter here,
    taken one column at a time: [forward_rolling_sum W col i] is the entry
    of row [i] for the column [col] and the window size [W].  A missing
    reading (NaN) is [None], and so is a NaN entry of the result. *)
Definition Rolling : Type := nat -> list (option Q) -> nat -> option Q.

(** The column of zone [z] of a frame. *)
Definition zone_column (rain_df : list WeatherRow) (z : string) : list (option Q) :=
  map (fun r => w_rain r !! z) rain_df.

(** [rolling_sum > threshold] at row [i] of column [z]; a comparison
    with NaN is [False]. *)
Definition is_locked (forward_rolling_sum : Rolling) (threshold : Q) (W : nat)
    (rain_df : list WeatherRow) (z : string) (i : nat) : bool :=
  match forward_rolling_sum W (zone_column rain_df z) i with
  | Some s => Qltb threshold s
  | None => false
  end.

(** [row.to_dict()] of row [i] of the [is_locked] frame. *)
Definition lock_row (forward_rolling_sum : Rolling) (threshold : Q) (W : nat)
    (zones : list string) (rain_df : list WeatherRow) (i : nat) : gmap string bool :=
  foldl (fun d z => <[z := is_locked forward_rolling_sum threshold W rain_df z i]> d)
    ∅ zones.

(** The loop [for date, row in is_locked.iterrows(): lock_dict[date_str] = ...],
    from row [i] on ([rows] are the rows of [rain_df] from that row). *)
Fixpoint fill_lock_dict (forward_rolling_sum : Rolling) (threshold : Q) (W : nat)
    (zones : list string) (rain_df : list WeatherRow) (i : nat)
    (rows : list WeatherRow) (lock_dict : gmap Z (gmap string bool))
    : gmap Z (gmap string bool) :=
  match rows with
  | [] => lock_dict
  | r :: rest =>
      fill_lock_dict forward_rolling_sum threshold W zones rain_df (S i) rest
        (<[w_date r := lock_row forward_rolling_sum threshold W zones rain_df i]>
           lock_dict)
  end.

Definition _compute_rain_lock_matrix (forward_rolling_sum : Rolling) (cfg : Config)
    (weather : WeatherDF) : gmap Z (gmap string bool) :=
  let threshold := rain_lock_threshold_mm cfg in
  let window := forecast_window_days cfg in
  let zones := w_zones weather in
  let rain_df := sort_index (w_rows weather) in
  fill_lock_dict forward_rolling_sum threshold window zones rain_df 0 rain_df ∅.

(** [__init__]. *)
Definition init (haversine_distance : Q -> Q -> Q -> Q -> Q)
    (forward_rolling_sum : Rolling) (cfg : Config)
    (stps : list StpRow) (farms : list FarmRow) (weather : WeatherDF)
    (demand : list DemandRow) : t :=
  {| config := cfg;
     stp_df := stps;
     farm_df := farms;
     weather_df := weather;
     demand_df := demand;
     distance_matrix := _compute_distance_matrix haversine_distance stps farms;
     rain_lock_matrix := _compute_rain_lock_matrix forward_rolling_sum cfg weather |}.

(** [get_demand_for_day]: the first row of the date, without its date
    column, as a fresh dictionary; [.iloc[0]] raises when no row has the
    date ([None]). *)
Definition get_demand_for_day (dm : t) (date : Z) : option (gmap string Q) :=
  d_cols <$> List.find (fun row => (d_date row =? date)%Z) (demand_df dm).

(** [pd.Series(zone.values, index=farm_id).to_dict()]: keys in order of
    first occurrence, the last value of a repeated key wins. *)
Fixpoint odict_set (k v : string) (d : list (string * string)) : list (string * string) :=
  match d with
  | [] => [(k, v)]
  | (k', v') :: d' =>
      if String.eqb k' k then (k', v) :: d' else (k', v') :: odict_set k v d'
  end.

Definition get_farm_zone_map (dm : t) : list (string * string) :=
  foldl (fun d farm => odict_set (farm_id farm) (zone farm) d) [] (farm_df dm).

(** The lookup the solver makes:
    [rain_lock_matrix.get(date_str, {}).get(zone, False)]. *)
Definition rain_locked (dm : t) (date : Z) (z : string) : bool :=
  default false (default ∅ (rain_lock_matrix dm !! date) !! z).

End DataManager.

(** ** GreedySolver *)

(** A row of the solution log. *)
Record Event := {
  ev_date : Z;
  ev_stp_id : string;
  ev_farm_id : string;
  tons_delivered : Q
}.

Module GreedySolver.

(** The object: [self.dm], [self.stp_storage], [self.farm_zone_map],
    [self.solution]; the constants are read from [self.dm.config]. *)
Record t := {
  dm : DataManager.t;
  stp_storage : gmap string Q;
  farm_zone_map : list (string * string);
  solution : list Event
}.

Definition TRUCK_CAPACITY (s : t) : Q := truck_capacity_tons (DataManager.config (dm s)).
Definition N_CONTENT (s : t) : Q :=
  nitrogen_content_kg_per_ton_biosolid (DataManager.config (dm s)).
Definition OVERFLOW_PENALTY (s : t) : Q :=
  stp_overflow_penalty_kg_co2_per_ton (DataManager.config (dm s)).
Definition OFFSET_CREDIT (s : t) : Q :=
  synthetic_n_offset_credit_kg_co2_per_kg_n (DataManager.config (dm s)).
Definition SEQ_CREDIT (s : t) : Q :=
  soil_organic_carbon_gain_kg_co2_per_kg_biosolid (DataManager.config (dm s)).
Definition TRANSPORT_COST (s : t) : Q :=
  diesel_emission_factor_kg_co2_per_km (DataManager.config (dm s)).
Definition LEACHING_PENALTY (s : t) : Q :=
  leaching_penalty_kg_co2_per_kg_excess_n (DataManager.config (dm s)).

(** [__init__]: every plant starts with an empty store. *)
Definition init (data_manager : DataManager.t) : t :=
  {| dm := data_manager;
     stp_storage :=
       foldl (fun m row => <[stp_id row := 0]> m) ∅ (DataManager.stp_df data_manager);
     farm_zone_map := DataManager.get_farm_zone_map data_manager;
     solution := [] |}.

(** [self.stp_storage[s_id]]; the key of every registry row is present
    from [init] on. *)
Definition stored (s : t) (s_id : string) : Q := get0 (stp_storage s) s_id.

Definition set_storage (s : t) (m : gmap string Q) : t :=
  {| dm := dm s; stp_storage := m; farm_zone_map := farm_zone_map s;
     solution := solution s |}.

(** Step 1 of [_process_day]: [stp_storage[id] += daily_output_tons]. *)
Definition replenish (s : t) : t :=
  set_storage s
    (foldl (fun m stp => <[stp_id stp := get0 m (stp_id stp) + daily_output_tons stp]> m)
       (stp_storage s) (DataManager.stp_df (dm s))).

(** Step 3 of [_process_day]: farms whose zone is not rain-locked, in the
    order of [farm_zone_map.items()]. *)
Definition valid_farms (s : t) (date : Z) : list string :=
  map fst (List.filter
    (fun fz => negb (DataManager.rain_locked (dm s) date (snd fz))) (farm_zone_map s)).

(** An entry of [stp_status]. *)
Record Status := {
  st_stp_id : string;
  st_current : Q;
  st_max : Q;
  st_excess : Q;
  st_fill_ratio : Q;
  st_lat : Q;
  st_lon : Q
}.

(** The entry for one plant row; [None] is the [ZeroDivisionError] of
    [curr / max_s] for a plant of capacity zero. *)
Definition status_of (s : t) (stp : StpRow) : option Status :=
  let s_id := stp_id stp in
  let curr := stored s s_id in
  let max_s := storage_max_tons stp in
  let excess := Qmax 0 (curr - max_s) in
  if Qeq_bool max_s 0 then None
  else
    let fill_ratio := curr / max_s in
    Some {| st_stp_id := s_id; st_current := curr; st_max := max_s;
            st_excess := excess; st_fill_ratio := fill_ratio;
            st_lat := stp_lat stp; st_lon := stp_lon stp |}.

(** The loop that fills [stp_status], in registry order. *)
Fixpoint statuses (s : t) (rows : list StpRow) : option (list Status) :=
  match rows with
  | [] => Some []
  | stp :: rest =>
      match status_of s stp, statuses s rest with
      | Some x, Some l => Some (x :: l)
      | _, _ => None
      end
  end.

(** Order of the keys [(excess, fill_ratio)]: tuples compare
    lexicographically. *)
Definition urgency_ltb (x y : Status) : bool :=
  if Qeq_bool (st_excess x) (st_excess y)
  then Qltb (st_fill_ratio x) (st_fill_ratio y)
  else Qltb (st_excess x) (st_excess y).

(** An entry of [candidates]. *)
Record Candidate := {
  c_farm_id : string;
  c_dist : Q;
  c_score : Q;
  c_demand : Q;
  c_useful_n : Q;
  c_package_tons : Q
}.

(** The body of the scoring loop of [_dispatch_logic] for one farm;
    [None] is the [continue] on a missing distance. *)
Definition score_candidate (s : t) (stp_id : string) (current_load : Q)
    (daily_demands : gmap string Q) (farm_id : string) : option Candidate :=
  match DataManager.distance_matrix (dm s) !! (stp_id, farm_id) with
  | None => None
  | Some dist =>
      let n_demand := get0 daily_demands farm_id in
      let package_tons := Qmin (TRUCK_CAPACITY s) current_load in
      let package_n := package_tons * N_CONTENT s in
      let useful_n := Qmin package_n n_demand in
      let excess_n := Qmax 0 (package_n - n_demand * (11 # 10)) in
      let credit := useful_n * OFFSET_CREDIT s
                    + package_tons * 1000 * SEQ_CREDIT s / 1000 * 1000 in
      let credits_seq := package_tons * 1000 * (2 # 10) in
      let transport_emission := dist * TRANSPORT_COST s in
      let leaching_cost := excess_n * LEACHING_PENALTY s in
      let net_score :=
        useful_n * OFFSET_CREDIT s + credits_seq - transport_emission - leaching_cost in
      Some {| c_farm_id := farm_id; c_dist := dist; c_score := net_score;
              c_demand := n_demand; c_useful_n := useful_n;
              c_package_tons := package_tons |}
  end.

Definition score_ltb (x y : Candidate) : bool := Qltb (c_score x) (c_score y).

(** The state the dispatch loop works on: the solver object and the day's
    residual demand dictionary [daily_demands]. *)
Definition State : Type := t * gmap string Q.

(** What one turn of the loop [for cand in candidates] does. *)
Inductive Flow :=
  | Break
  | Continue
  | Dispatched (e : Event) (st' : State).

Definition loop_body (date_str : Z) (stp : Status) (cand : Candidate) (st : State) : Flow :=
  let '(s, daily_demands) := st in
  let stp_id := st_stp_id stp in
  if Qle_bool (stored s stp_id) 0 then Break
  else
    let is_urgent := Qltb (st_max stp) (stored s stp_id) in
    let is_profitable := Qltb 0 (c_score cand) in
    if negb is_urgent && negb is_profitable then Continue
    else
      let ship_tons := Qmin (TRUCK_CAPACITY s) (stored s stp_id) in
      let e := {| ev_date := date_str; ev_stp_id := stp_id;
                  ev_farm_id := c_farm_id cand; tons_delivered := ship_tons |} in
      let s' := {| dm := dm s;
                   stp_storage := <[stp_id := stored s stp_id - ship_tons]> (stp_storage s);
                   farm_zone_map := farm_zone_map s;
                   solution := solution s ++ [e] |} in
      let delivered_n := ship_tons * N_CONTENT s in
      let daily_demands' :=
        <[c_farm_id cand := Qmax 0 (get0 daily_demands (c_farm_id cand) - delivered_n)]>
          daily_demands in
      Dispatched e (s', daily_demands').

(** A dispatch as a transition: the state before, the appended event, the
    state after. *)
Record Transition := {
  t_pre : State;
  t_event : Event;
  t_post : State
}.

(** The loop [for cand in candidates]: final state, and the dispatches it
    made in order. *)
Fixpoint greedy_dispatch (date_str : Z) (stp : Status) (candidates : list Candidate)
    (st : State) : State :=
  match candidates with
  | [] => st
  | cand :: rest =>
      match loop_body date_str stp cand st with
      | Break => st
      | Continue => greedy_dispatch date_str stp rest st
      | Dispatched _ st' => greedy_dispatch date_str stp rest st'
      end
  end.

Fixpoint greedy_dispatch_steps (date_str : Z) (stp : Status) (candidates : list Candidate)
    (st : State) : list Transition :=
  match candidates with
  | [] => []
  | cand :: rest =>
      match loop_body date_str stp cand st with
      | Break => []
      | Continue => greedy_dispatch_steps date_str stp rest st
      | Dispatched e st' =>
          {| t_pre := st; t_event := e; t_post := st' |}
            :: greedy_dispatch_steps date_str stp rest st'
      end
  end.

(** The candidate list of [_dispatch_logic], scored and sorted. *)
Definition candidates_of (stp : Status) (valid : list string) (st : State) : list Candidate :=
  sort_desc score_ltb
    (omap (score_candidate (fst st) (st_stp_id stp) (st_current stp) (snd st)) valid).

(** [_dispatch_logic]. *)
Definition _dispatch_logic (date_str : Z) (stp : Status) (valid : list string)
    (st : State) : State :=
  if Qle_bool (st_current stp) 0 then st
  else greedy_dispatch date_str stp (candidates_of stp valid st) st.

Definition _dispatch_logic_steps (date_str : Z) (stp : Status) (valid : list string)
    (st : State) : list Transition :=
  if Qle_bool (st_current stp) 0 then []
  else greedy_dispatch_steps date_str stp (candidates_of stp valid st) st.

(** The loop [for stp in stp_status] of [_process_day]. *)
Fixpoint dispatch_all (date_str : Z) (stp_status : list Status) (valid : list string)
    (st : State) : State :=
  match stp_status with
  | [] => st
  | stp :: rest =>
      dispatch_all date_str rest valid (_dispatch_logic date_str stp valid st)
  end.

Fixpoint dispatch_all_steps (date_str : Z) (stp_status : list Status) (valid : list string)
    (st : State) : list Transition :=
  match stp_status with
  | [] => []
  | stp :: rest =>
      _dispatch_logic_steps date_str stp valid st
        ++ dispatch_all_steps date_str rest valid (_dispatch_logic date_str stp valid st)
  end.

(** The sorted [stp_status] list of [_process_day], built after the
    replenishment. *)
Definition stp_status_of (s : t) : option (list Status) :=
  sort_desc urgency_ltb <$> statuses s (DataManager.stp_df (dm s)).

(** [_process_day]; [None] when the demand table has no row for the
    date, or a plant has capacity zero. *)
Definition _process_day (s : t) (date : Z) : option t :=
  let s1 := replenish s in
  match DataManager.get_demand_for_day (dm s1) date, stp_status_of s1 with
  | Some daily_demands, Some stp_status =>
      Some (fst (dispatch_all date stp_status (valid_farms s1 date) (s1, daily_demands)))
  | _, _ => None
  end.

(** The dispatches of one day, in order. *)
Definition _process_day_steps (s : t) (date : Z) : option (list Transition) :=
  let s1 := replenish s in
  match DataManager.get_demand_for_day (dm s1) date, stp_status_of s1 with
  | Some daily_demands, Some stp_status =>
      Some (dispatch_all_steps date stp_status (valid_farms s1 date) (s1, daily_demands))
  | _, _ => None
  end.

(** The day loop of [solve], from a given object over given dates. *)
Fixpoint run (s : t) (dates : list Z) : option t :=
  match dates with
  | [] => Some s
  | date :: rest =>
      match _process_day s date with
      | None => None
      | Some s' => run s' rest
      end
  end.

(** The states at the end of each day, and all dispatches of the run. *)
Fixpoint run_days (s : t) (dates : list Z) : option (list t) :=
  match dates with
  | [] => Some []
  | date :: rest =>
      match _process_day s date with
      | None => None
      | Some s' => cons s' <$> run_days s' rest
      end
  end.

Fixpoint run_steps (s : t) (dates : list Z) : option (list Transition) :=
  match dates with
  | [] => Some []
  | date :: rest =>
      match _process_day_steps s date, _process_day s date with
      | Some steps, Some s' => app steps <$> run_steps s' rest
      | _, _ => None
      end
  end.

(** [solve]: the log after the whole year. *)
Definition solve (s : t) : option (list Event) :=
  solution <$> run s (year_dates (year (DataManager.config (dm s)))).

End GreedySolver.

(** ** calculate_metrics: the replay of a solution log

    The solution file is taken as loaded (its rows, in file order).  The
    two ratios that need the month of a date or the column names of the
    demand file ([rain_lock_resilience], [nitrogen_precision]) and the
    final [round] of the reported ratios are left out; the totals and
    [logistics_efficiency] are the values of the local variables of the
    same name.

    [calculate_metrics] below is the function up to the dictionary
    [metrics] of lines 189-211: its result is that dictionary, or [None]
    when an exception is raised before.  The two statements that follow,
    [print(json.dumps(metrics))] and [json.dump(metrics, f)], are outside
    the embedding: they raise [TypeError] when a total is a numpy
    integer, which depends on the types pandas infers from the files. *)

Module Metrics.

(** The running totals of the replay and its own [stp_storage]. *)
Record Totals := {
  total_transport_emission : Q;
  total_leaching_penalty : Q;
  total_overflow_penalty : Q;
  total_offset_gain : Q;
  total_sequestration_gain : Q;
  stp_storage : gmap string Q
}.

Definition start (dm : DataManager.t) : Totals :=
  {| total_transport_emission := 0;
     total_leaching_penalty := 0;
     total_overflow_penalty := 0;
     total_offset_gain := 0;
     total_sequestration_gain := 0;
     stp_storage := foldl (fun m row => <[stp_id row := 0]> m) ∅ (DataManager.stp_df dm) |}.

(** "1. Update STP Flow". *)
Definition update_flow (dm : DataManager.t) (a : Totals) : Totals :=
  {| total_transport_emission := total_transport_emission a;
     total_leaching_penalty := total_leaching_penalty a;
     total_overflow_penalty := total_overflow_penalty a;
     total_offset_gain := total_offset_gain a;
     total_sequestration_gain := total_sequestration_gain a;
     stp_storage :=
       foldl (fun m stp => <[stp_id stp := get0 m (stp_id stp) + daily_output_tons stp]> m)
         (stp_storage a) (DataManager.stp_df dm) |}.

(** "2. Get Daily Moves": the rows of the date, in file order. *)
Definition moves_of (solution : list Event) (date : Z) : list Event :=
  List.filter (fun row => (ev_date row =? date)%Z) solution.

(** The distance the replay uses for a row:
    [dm.distance_matrix.get((stp_id, farm_id), 0)]. *)
Definition row_dist (dm : DataManager.t) (row : Event) : Q :=
  get0 (DataManager.distance_matrix dm) (ev_stp_id row, ev_farm_id row).

(** The transport emission the replay charges for a row. *)
Definition row_transport_emission (dm : DataManager.t) (row : Event) : Q :=
  let dist := row_dist dm row in
  let num_trucks := 1 in
  dist * diesel_emission_factor_kg_co2_per_km (DataManager.config dm) * num_trucks.

(** "3. Process Moves", one row; [None] is the [KeyError] of
    [stp_storage[stp_id] -= tons] on an unknown plant, or the failure of
    [get_demand_for_day]. *)
Definition process_move (dm : DataManager.t) (date : Z) (a : Totals) (row : Event)
    : option Totals :=
  let transport_emission := row_transport_emission dm row in
  match stp_storage a !! ev_stp_id row, DataManager.get_demand_for_day dm date with
  | Some held, Some _ =>
      Some {| total_transport_emission := total_transport_emission a + transport_emission;
              total_leaching_penalty := total_leaching_penalty a;
              total_overflow_penalty := total_overflow_penalty a;
              total_offset_gain := total_offset_gain a;
              total_sequestration_gain := total_sequestration_gain a;
              stp_storage := <[ev_stp_id row := held - tons_delivered row]> (stp_storage a) |}
  | _, _ => None
  end.

Fixpoint process_moves (dm : DataManager.t) (date : Z) (a : Totals) (moves : list Event)
    : option Totals :=
  match moves with
  | [] => Some a
  | row :: rest =>
      match process_move dm date a row with
      | None => None
      | Some a' => process_moves dm date a' rest
      end
  end.

(** [moves.groupby('farm_id')['tons_delivered'].sum()]: one entry per
    farm, each sum taken in row order ([add_total]), the entries in
    ascending order of the farm id ([sort_by_key]). *)
Fixpoint add_total (k : string) (v : Q) (l : list (string * Q)) : list (string * Q) :=
  match l with
  | [] => [(k, v)]
  | (k', v') :: l' =>
      if String.eqb k' k then (k', v' + v) :: l' else (k', v') :: add_total k v l'
  end.

Definition group_sums (moves : list Event) : list (string * Q) :=
  foldl (fun acc row => add_total (ev_farm_id row) (tons_delivered row) acc) [] moves.

(** Ascending by key: the stable sort, with the comparison turned round. *)
Definition sort_by_key (l : list (string * Q)) : list (string * Q) :=
  sort_desc (fun x y => String.ltb (fst y) (fst x)) l.

Definition farm_totals (moves : list Event) : list (string * Q) :=
  sort_by_key (group_sums moves).

(** The three per-farm amounts of the aggregation loop. *)
Definition farm_useful_n (cfg : Config) (daily_demands : gmap string Q)
    (farm_id : string) (delivered_tons : Q) : Q :=
  let delivered_n := delivered_tons * nitrogen_content_kg_per_ton_biosolid cfg in
  let demand_n := get0 daily_demands farm_id in
  Qmin delivered_n demand_n.

Definition farm_excess_n (cfg : Config) (daily_demands : gmap string Q)
    (farm_id : string) (delivered_tons : Q) : Q :=
  let delivered_n := delivered_tons * nitrogen_content_kg_per_ton_biosolid cfg in
  let demand_n := get0 daily_demands farm_id in
  Qmax 0 (delivered_n - demand_n * (11 # 10)).

(** The body of [for farm_id, delivered_tons in farm_totals.items()]. *)
Definition credit_farm (cfg : Config) (daily_demands : gmap string Q) (a : Totals)
    (entry : string * Q) : Totals :=
  let '(farm_id, delivered_tons) := entry in
  let useful_n := farm_useful_n cfg daily_demands farm_id delivered_tons in
  let excess_n := farm_excess_n cfg daily_demands farm_id delivered_tons in
  let offset_gain := useful_n * synthetic_n_offset_credit_kg_co2_per_kg_n cfg in
  let seq_gain :=
    delivered_tons * 1000 * soil_organic_carbon_gain_kg_co2_per_kg_biosolid cfg in
  let leaching := excess_n * leaching_penalty_kg_co2_per_kg_excess_n cfg in
  {| total_transport_emission := total_transport_emission a;
     total_leaching_penalty := total_leaching_penalty a + leaching;
     total_overflow_penalty := total_overflow_penalty a;
     total_offset_gain := total_offset_gain a + offset_gain;
     total_sequestration_gain := total_sequestration_gain a + seq_gain;
     stp_storage := stp_storage a |}.

(** "Aggregate deliveries to check leaching correctly". *)
Definition aggregate (dm : DataManager.t) (date : Z) (a : Totals) (moves : list Event)
    : option Totals :=
  match DataManager.get_demand_for_day dm date with
  | None => None
  | Some daily_demands =>
      Some (foldl (credit_farm (DataManager.config dm) daily_demands) a (farm_totals moves))
  end.

(** "4. Check Overflow", one plant row. *)
Definition check_overflow_row (cfg : Config) (a : Totals) (stp : StpRow) : Totals :=
  let s_id := stp_id stp in
  let max_s := storage_max_tons stp in
  if Qltb max_s (get0 (stp_storage a) s_id) then
    let excess := get0 (stp_storage a) s_id - max_s in
    let penalty := excess * stp_overflow_penalty_kg_co2_per_ton cfg in
    {| total_transport_emission := total_transport_emission a;
       total_leaching_penalty := total_leaching_penalty a;
       total_overflow_penalty := total_overflow_penalty a + penalty;
       total_offset_gain := total_offset_gain a;
       total_sequestration_gain := total_sequestration_gain a;
       stp_storage := <[s_id := max_s]> (stp_storage a) |}
  else a.

Definition check_overflow (dm : DataManager.t) (a : Totals) : Totals :=
  foldl (check_overflow_row (DataManager.config dm)) a (DataManager.stp_df dm).

(** The body of [for date in all_dates]. *)
Definition replay_day (dm : DataManager.t) (solution : list Event) (a : Totals) (date : Z)
    : option Totals :=
  let a1 := update_flow dm a in
  let moves := moves_of solution date in
  match moves with
  | [] => Some (check_overflow dm a1)
  | _ :: _ =>
      match process_moves dm date a1 moves with
      | None => None
      | Some a2 =>
          match aggregate dm date a2 moves with
          | None => None
          | Some a3 => Some (check_overflow dm a3)
          end
      end
  end.

Fixpoint replay (dm : DataManager.t) (solution : list Event) (a : Totals) (dates : list Z)
    : option Totals :=
  match dates with
  | [] => Some a
  | date :: rest =>
      match replay_day dm solution a date with
      | None => None
      | Some a' => replay dm solution a' rest
      end
  end.

(** The result record (unrounded). *)
Record t := {
  net_carbon_credit_score : Q;
  logistics_efficiency : Q;
  total_delivered_tons : Q;
  total_round_trip_km : Q;
  synthetic_fertilizer_offset : Q;
  soil_carbon_sequestration : Q;
  transport_emissions : Q;
  nitrogen_leaching : Q;
  stp_overflow : Q
}.

(** [sol_with_dist['round_trip_km'].sum()]. *)
Definition round_trip_km_of (dm : DataManager.t) (solution : list Event) : Q :=
  Qsum (map (fun row => row_dist dm row * 2) solution).

Definition delivered_tons_of (solution : list Event) : Q :=
  Qsum (map tons_delivered solution).

Definition calculate_metrics (dm : DataManager.t) (solution : list Event) : option t :=
  match replay dm solution (start dm) (year_dates (year (DataManager.config dm))) with
  | None => None
  | Some a =>
      let total_net_score :=
        (total_offset_gain a + total_sequestration_gain a)
        - (total_transport_emission a + total_leaching_penalty a
           + total_overflow_penalty a) in
      let total_delivered_tons := delivered_tons_of solution in
      let total_round_trip_km := round_trip_km_of dm solution in
      let logistics_efficiency :=
        if Qltb 0 total_round_trip_km then total_delivered_tons / total_round_trip_km
        else 0 in
      Some {| net_carbon_credit_score := total_net_score;
              logistics_efficiency := logistics_efficiency;
              total_delivered_tons := total_delivered_tons;
              total_round_trip_km := total_round_trip_km;
              synthetic_fertilizer_offset := total_offset_gain a;
              soil_carbon_sequestration := total_sequestration_gain a;
              transport_emissions := total_transport_emission a;
              nitrogen_leaching := total_leaching_penalty a;
              stp_overflow := total_overflow_penalty a |}
  end.

End Metrics.

(** ** app.py: the rain lock of the dashboard

    The dashboard does not read the index; for the selected date it sums
    the weather rows dated from that day to four days later and lists
    the zone columns whose sum exceeds the threshold of the
    configuration. *)

Module App.

(** [weather_df.loc[mask]]: the rows dated within [date, date + 4 days]. *)
Definition forecast_window (weather : WeatherDF) (date : Z) : list WeatherRow :=
  List.filter (fun r => (date <=? w_date r)%Z && (w_date r <=? date + 4)%Z)
    (w_rows weather).

(** [forecast_window[numeric_cols].sum()] is pandas code working in
    float64, a parameter here, one column at a time: [frame_sum col] is
    the entry for the column [col] (missing readings are [None]). *)
Definition rain_locked_zones (frame_sum : list (option Q) -> Q) (cfg : Config)
    (weather : WeatherDF) (date : Z) : list string :=
  let forecast_window := forecast_window weather date in
  match forecast_window with
  | [] => []
  | _ :: _ =>
      let sums := fun z => frame_sum (DataManager.zone_column forecast_window z) in
      List.filter (fun z => Qltb (rain_lock_threshold_mm cfg) (sums z)) (w_zones weather)
  end.

(** [get_farm_color]: grey for a rain-locked zone, green otherwise. *)
Definition get_farm_color (rain_locked_zones : list string) (zone : string) : list Z :=
  if existsb (String.eqb zone) rain_locked_zones
  then [128; 128; 128; 100]%Z
  else [0; 255; 0; 180]%Z.

End App.

(** ** The engine with [list.sort] taken by its contract

    Python promises of [l.sort(key=k, reverse=True)] that the result
    holds the elements of [l] in descending order of key, elements of
    equal key in their original order; it does not say by which steps.
    Below, a run of the engine is any course of it in which each of the
    two sorts returns some list that meets this contract.  [ltb x y] is
    "key of [x] < key of [y]". *)

(** [x] has the key of [p]. *)
Definition same_key {A} (ltb : A -> A -> bool) (p x : A) : bool :=
  negb (ltb p x) && negb (ltb x p).

(** [sorted] is [l] in descending order of key, the elements of each key
    in the order they have in [l]. *)
Definition stable_sort_desc {A} (ltb : A -> A -> bool) (l sorted : list A) : Prop :=
  StronglySorted (fun a b => ltb a b = false) sorted
  /\ forall p, List.filter (same_key ltb p) sorted = List.filter (same_key ltb p) l.

(** A course of [_dispatch_logic]. *)
Definition dispatch_logic_run (date_str : Z) (stp : GreedySolver.Status)
    (valid : list string) (st st' : GreedySolver.State) : Prop :=
  if Qle_bool (GreedySolver.st_current stp) 0 then st' = st
  else
    exists candidates,
      stable_sort_desc GreedySolver.score_ltb
        (omap (GreedySolver.score_candidate (fst st) (GreedySolver.st_stp_id stp)
                 (GreedySolver.st_current stp) (snd st)) valid)
        candidates
      /\ st' = GreedySolver.greedy_dispatch date_str stp candidates st.

(** A course of the loop [for stp in stp_status]. *)
Fixpoint dispatch_all_run (date_str : Z) (stp_status : list GreedySolver.Status)
    (valid : list string) (st st' : GreedySolver.State) : Prop :=
  match stp_status with
  | [] => st' = st
  | stp :: rest =>
      exists st1, dispatch_logic_run date_str stp valid st st1
                  /\ dispatch_all_run date_str rest valid st1 st'
  end.

(** A course of [_process_day]. *)
Definition process_day_run (s : GreedySolver.t) (date : Z) (s' : GreedySolver.t) : Prop :=
  let s1 := GreedySolver.replenish s in
  exists daily_demands stp_status sorted st',
    DataManager.get_demand_for_day (GreedySolver.dm s1) date = Some daily_demands
    /\ GreedySolver.statuses s1 (DataManager.stp_df (GreedySolver.dm s1)) = Some stp_status
    /\ stable_sort_desc GreedySolver.urgency_ltb stp_status sorted
    /\ dispatch_all_run date sorted (GreedySolver.valid_farms s1 date)
         (s1, daily_demands) st'
    /\ s' = fst st'.

(** A course of the day loop of [solve], and of [solve]. *)
Fixpoint day_loop_run (s : GreedySolver.t) (dates : list Z) (s' : GreedySolver.t) : Prop :=
  match dates with
  | [] => s' = s
  | date :: rest => exists s1, process_day_run s date s1 /\ day_loop_run s1 rest s'
  end.

Definition solve_run (s : GreedySolver.t) (log : list Event) : Prop :=
  exists s',
    day_loop_run s (year_dates (year (DataManager.config (GreedySolver.dm s)))) s'
    /\ log = GreedySolver.solution s'.

(** ** Notions used to state the properties *)

(** The reading of a date and zone in the weather table (0 when the
    table has none). *)
Definition rainfall (rows : list WeatherRow) (d : Z) (z : string) : Q :=
  match List.find (fun r => (w_date r =? d)%Z) rows with
  | Some r => get0 (w_rain r) z
  | None => 0
  end.

(** The sum of the readings of zone [z] over the days [d .. d+W-1] that
    are not after [last], the last date of the table. *)
Definition forward_window_sum (rows : list WeatherRow) (d : Z) (W : nat) (last : Z)
    (z : string) : Q :=
  Qsum (map (fun d' => rainfall rows d' z)
          (seqZ d (Z.min (Z.of_nat W) (last - d + 1)))).

(** The table lists the [length rows] consecutive days from [d0], in
    order. *)
Definition consecutive_from (d0 : Z) (rows : list WeatherRow) : Prop :=
  map w_date rows = seqZ d0 (Z.of_nat (length rows)).

(** [by_date] is the table in ascending order of date, one row a date. *)
Definition in_date_order (by_date rows : list WeatherRow) : Prop :=
  by_date ≡ₚ rows /\ StronglySorted (fun a b => (w_date a < w_date b)%Z) by_date.

(** The readings of zone [z] in the window of [W] rows that starts at row
    [i] of a frame: that row and the next [W-1], as many as remain. *)
Definition window_readings (W : nat) (frame : list WeatherRow) (i : nat) (z : string)
    : list Q :=
  omap (fun r => w_rain r !! z) (take W (drop i frame)).

(** A value returned for a window is within [eps] of the exact sum of
    its readings; for a window without a reading it is NaN. *)
Definition within (eps : Q) (returned : option Q) (readings : list Q) : Prop :=
  match readings with
  | [] => returned = None
  | _ :: _ =>
      exists s, returned = Some s
                /\ Qsum readings - eps <= s /\ s <= Qsum readings + eps
  end.

(** The rolling sum and the column sum in exact arithmetic: what pandas
    returns whenever every partial sum is a float64 number, as on whole
    numbers of millimetres. *)
Definition exact_forward_sum : DataManager.Rolling :=
  fun W col i =>
    match omap id (take W (drop i col)) with
    | [] => None
    | v :: vals => Some (Qsum (v :: vals))
    end.

Definition exact_frame_sum (col : list (option Q)) : Q := Qsum (omap id col).

(** A list of dispatches is linked from [st] when each starts in the
    state the previous one ended in. *)
Fixpoint linked (st : GreedySolver.State) (steps : list GreedySolver.Transition) : Prop :=
  match steps with
  | [] => True
  | t :: rest => GreedySolver.t_pre t = st /\ linked (GreedySolver.t_post t) rest
  end.

(** The state after a list of dispatches started in [st]. *)
Fixpoint final_state (st : GreedySolver.State) (steps : list GreedySolver.Transition)
    : GreedySolver.State :=
  match steps with
  | [] => st
  | t :: rest => final_state (GreedySolver.t_post t) rest
  end.

(** A transition is a dispatch of plant row [stp] on [date]: one turn of
    the loop that took the shipping branch. *)
Definition is_dispatch (date : Z) (t : GreedySolver.Transition) : Prop :=
  exists stp cand,
    GreedySolver.loop_body date stp cand (GreedySolver.t_pre t)
    = GreedySolver.Dispatched (GreedySolver.t_event t) (GreedySolver.t_post t).

(** Tons sent to farm [f] by a list of log rows. *)
Definition tons_to (f : string) (rows : list Event) : Q :=
  Qsum (map tons_delivered (List.filter (fun e => String.eqb (ev_farm_id e) f) rows)).

(** The residual demand of farm [f] the engine holds in a state. *)
Definition residual (st : GreedySolver.State) (f : string) : Q := get0 (snd st) f.

(** The inventory of plant [id] in a state. *)
Definition inventory (st : GreedySolver.State) (id : string) : Q :=
  GreedySolver.stored (fst st) id.

(** [steps] is a run of dispatches of [date] from [st] to [st']. *)
Definition trace_of (date : Z) (st : GreedySolver.State)
    (steps : list GreedySolver.Transition) (st' : GreedySolver.State) : Prop :=
  linked st steps /\ Forall (is_dispatch date) steps /\ st' = final_state st steps.

(** Nitrogen sent to farm [f] by a list of log rows, at [n_content] kg per
    ton. *)
Definition nitrogen_to (n_content : Q) (f : string) (rows : list Event) : Q :=
  Qsum (map (fun e => tons_delivered e * n_content)
          (List.filter (fun e => String.eqb (ev_farm_id e) f) rows)).

(** The events of the first [n] dispatches of a list. *)
Definition events_until (n : nat) (steps : list GreedySolver.Transition) : list Event :=
  map GreedySolver.t_event (take n steps).

(** No plant holds a negative amount. *)
Definition stocked (s : GreedySolver.t) : Prop := forall id, 0 <= GreedySolver.stored s id.

(** The bounds a dispatch respects, for truck capacity [T]. *)
Definition within_bounds (T : Q) (t : GreedySolver.Transition) : Prop :=
  tons_delivered (GreedySolver.t_event t) <= T
  /\ tons_delivered (GreedySolver.t_event t)
     <= inventory (GreedySolver.t_pre t) (ev_stp_id (GreedySolver.t_event t))
  /\ (forall id, 0 <= inventory (GreedySolver.t_pre t) id)
  /\ (forall id, 0 <= inventory (GreedySolver.t_post t) id).

(** Tons the log delivers to farm [f] on [date]. *)
Definition delivered_on (solution : list Event) (date : Z) (f : string) : Q :=
  Qsum (map tons_delivered
          (List.filter (fun e => (ev_date e =? date)%Z && String.eqb (ev_farm_id e) f)
             solution)).

(** [fs] lists, each once, the farms the log delivers to on [date]. *)
Definition farms_served (solution : list Event) (date : Z) (fs : list string) : Prop :=
  NoDup fs
  /\ forall f, f ∈ fs <->
       exists row, row ∈ solution /\ ev_date row = date /\ ev_farm_id row = f.

(** The one-way distance of a log row in the distance index (0 for a
    pair without an entry). *)
Definition one_way_km (dm : DataManager.t) (row : Event) : Q :=
  default 0 (DataManager.distance_matrix dm !! (ev_stp_id row, ev_farm_id row)).

(** The running sums while the rows [done] have been read. *)
Definition sums_of (acc : list (string * Q)) (done : list Event) : Prop :=
  NoDup (map fst acc)
  /\ (forall row, row ∈ done -> ev_farm_id row ∈ map fst acc)
  /\ (forall f t, (f, t) ∈ acc ->
        t == tons_to f done /\ exists row, row ∈ done /\ ev_farm_id row = f).

(** The transport emission a replay over [dates] charges for a log:
    day by day, the rows of the day. *)
Definition replayed_transport (dm : DataManager.t) (solution : list Event)
    (dates : list Z) : Q :=
  Qsum (map (fun date =>
               Qsum (map (Metrics.row_transport_emission dm)
                       (Metrics.moves_of solution date))) dates).

(** The score in the words of the specification: credit minus transport
    cost minus leaching cost, the credit taking the sequestration rate of
    the configuration; the rate is per kg of biosolid and a ton is
    1000 kg. *)
Definition spec_score (s : GreedySolver.t) (cand : GreedySolver.Candidate) : Q :=
  let package_tons := GreedySolver.c_package_tons cand in
  let useful_n := GreedySolver.c_useful_n cand in
  let excess_n :=
    Qmax 0 (package_tons * GreedySolver.N_CONTENT s
            - GreedySolver.c_demand cand * (11 # 10)) in
  let credit := useful_n * GreedySolver.OFFSET_CREDIT s
                + package_tons * 1000 * GreedySolver.SEQ_CREDIT s in
  credit - GreedySolver.c_dist cand * GreedySolver.TRANSPORT_COST s
  - excess_n * GreedySolver.LEACHING_PENALTY s.

(** The same with the rate applied to the tons as they are. *)
Definition spec_score_per_ton (s : GreedySolver.t) (cand : GreedySolver.Candidate) : Q :=
  let package_tons := GreedySolver.c_package_tons cand in
  let useful_n := GreedySolver.c_useful_n cand in
  let excess_n :=
    Qmax 0 (package_tons * GreedySolver.N_CONTENT s
            - GreedySolver.c_demand cand * (11 # 10)) in
  let credit := useful_n * GreedySolver.OFFSET_CREDIT s
                + package_tons * GreedySolver.SEQ_CREDIT s in
  credit - GreedySolver.c_dist cand * GreedySolver.TRANSPORT_COST s
  - excess_n * GreedySolver.LEACHING_PENALTY s.

(** What the registry rows of plant [id] put out in a day. *)
Definition daily_output_of (id : string) (rows : list StpRow) : Q :=
  Qsum (map daily_output_tons (List.filter (fun r => String.eqb (stp_id r) id) rows)).

(** Tons shipped from plant [id] by a list of log rows. *)
Definition tons_from (id : string) (rows : list Event) : Q :=
  Qsum (map tons_delivered (List.filter (fun e => String.eqb (ev_stp_id e) id) rows)).

(** The replay's storage dictionary has the key of every registry row. *)
Definition keyed (dm : DataManager.t) (a : Metrics.Totals) : Prop :=
  forall id, id ∈ map stp_id (DataManager.stp_df dm) ->
    is_Some (Metrics.stp_storage a !! id).

(** ** A small instance

    One plant, two farms in two zones, the same light rain every day
    (enough to lock the second zone), the constants of the challenge;
    distances are a taxicab stand-in for the great circle. *)

Module Sample.

Definition cfg : Config :=
  {| truck_capacity_tons := 10;
     nitrogen_content_kg_per_ton_biosolid := 25;
     stp_overflow_penalty_kg_co2_per_ton := 1000;
     synthetic_n_offset_credit_kg_co2_per_kg_n := 5;
     soil_organic_carbon_gain_kg_co2_per_kg_biosolid := 2 # 10;
     diesel_emission_factor_kg_co2_per_km := 9 # 10;
     leaching_penalty_kg_co2_per_kg_excess_n := 10;
     rain_lock_threshold_mm := 30;
     forecast_window_days := 5;
     year := 2025 |}.

Definition Qabs_diff (a b : Q) : Q := Qmax (a - b) (b - a).

Definition taxicab (lat1 lon1 lat2 lon2 : Q) : Q :=
  111 * (Qabs_diff lat1 lat2 + Qabs_diff lon1 lon2).

Definition stps : list StpRow :=
  [ {| stp_id := "STP_1"; stp_lat := 10; stp_lon := 76;
       daily_output_tons := 25; storage_max_tons := 40 |} ].

Definition farms : list FarmRow :=
  [ {| farm_id := "F_1000"; farm_lat := 10; farm_lon := 76 + (1 # 10); zone := "Z1" |};
    {| farm_id := "F_1001"; farm_lat := 10 + (2 # 10); farm_lon := 76; zone := "Z2" |} ].

Definition day1 : Z := jan1 2025.

Definition weather : WeatherDF :=
  {| w_zones := ["Z1"; "Z2"];
     w_rows := map (fun d => {| w_date := d;
                                w_rain := <["Z1" := 2]> (<["Z2" := 7]> ∅) |})
                 (year_dates 2025) |}.

Definition demand_cols : gmap string Q := <["F_1000" := 300]> (<["F_1001" := 100]> ∅).

Definition demand : list DemandRow :=
  map (fun d => {| d_date := d; d_cols := demand_cols |}) (year_dates 2025).

Definition dm : DataManager.t :=
  DataManager.init taxicab exact_forward_sum cfg stps farms weather demand.

Definition solver : GreedySolver.t := GreedySolver.init dm.

(** The solver after the first two days of the year. *)
Definition solver_day3 : GreedySolver.t :=
  default solver (GreedySolver.run solver [day1; (day1 + 1)%Z]).

Definition plant : StpRow :=
  {| stp_id := "STP_1"; stp_lat := 10; stp_lon := 76;
     daily_output_tons := 25; storage_max_tons := 40 |}.

(** Two part loads to the same farm on the first day (demand 100 kg). *)
Definition two_loads : list Event :=
  [ {| ev_date := day1; ev_stp_id := "STP_1"; ev_farm_id := "F_1001";
       tons_delivered := 3 |};
    {| ev_date := day1; ev_stp_id := "STP_1"; ev_farm_id := "F_1001";
       tons_delivered := 3 |} ].

(** A row to a farm the registry does not know. *)
Definition stray_row : Event :=
  {| ev_date := day1; ev_stp_id := "STP_1"; ev_farm_id := "F_9999";
     tons_delivered := 4 |}.

(** The first plant's status and the state on the morning of the first
    day. *)
Definition morning : GreedySolver.State := (GreedySolver.replenish solver, demand_cols).

Definition plant_status : GreedySolver.Status :=
  {| GreedySolver.st_stp_id := "STP_1";
     GreedySolver.st_current := 25;
     GreedySolver.st_max := 40;
     GreedySolver.st_excess := 0;
     GreedySolver.st_fill_ratio := 25 / 40;
     GreedySolver.st_lat := 10;
     GreedySolver.st_lon := 76 |}.

(** The same instance with a sequestration rate of 1/2 in the
    configuration. *)
Definition cfg_half : Config :=
  {| truck_capacity_tons := 10;
     nitrogen_content_kg_per_ton_biosolid := 25;
     stp_overflow_penalty_kg_co2_per_ton := 1000;
     synthetic_n_offset_credit_kg_co2_per_kg_n := 5;
     soil_organic_carbon_gain_kg_co2_per_kg_biosolid := 1 # 2;
     diesel_emission_factor_kg_co2_per_km := 9 # 10;
     leaching_penalty_kg_co2_per_kg_excess_n := 10;
     rain_lock_threshold_mm := 30;
     forecast_window_days := 5;
     year := 2025 |}.

Definition solver_half : GreedySolver.t :=
  GreedySolver.init
    (DataManager.init taxicab exact_forward_sum cfg_half stps farms weather demand).

(** The candidate the first plant scores for farm F_1000 on the first
    morning, under either configuration. *)
Definition scored (s : GreedySolver.t) : option GreedySolver.Candidate :=
  GreedySolver.score_candidate (GreedySolver.replenish s) "STP_1"
    (GreedySolver.stored (GreedySolver.replenish s) "STP_1") demand_cols "F_1000".

(** The first three days of the year. *)
Definition three_days : list Z := [day1; (day1 + 1)%Z; (day1 + 2)%Z].

End Sample.

(** The replay's storage dictionary has no key outside the registry. *)
Definition only_registry_keys (dm : DataManager.t) (a : Metrics.Totals) : Prop :=
  forall id, id ∉ map stp_id (DataManager.stp_df dm) -> Metrics.stp_storage a !! id = None.

(** ** Further cases of the small instance *)

Module Cases.

(** A day on which farm F_1000 asks for nothing. *)
Definition no_demand : gmap string Q := <["F_1000" := 0]> ∅.

Definition idle_morning : GreedySolver.State :=
  (GreedySolver.replenish Sample.solver, no_demand).

(** The reconciler's ledger after three days of output and no delivery. *)
Definition unserved_ledger : Metrics.Totals :=
  Metrics.update_flow Sample.dm
    (Metrics.update_flow Sample.dm
       (Metrics.update_flow Sample.dm (Metrics.start Sample.dm))).

(** The third morning: 55 tons in a store of 40. *)
Definition third_morning : GreedySolver.State :=
  (GreedySolver.replenish Sample.solver_day3, Sample.demand_cols).

Definition third_status : GreedySolver.Status :=
  {| GreedySolver.st_stp_id := "STP_1";
     GreedySolver.st_current := 55;
     GreedySolver.st_max := 40;
     GreedySolver.st_excess := 15;
     GreedySolver.st_fill_ratio := 55 / 40;
     GreedySolver.st_lat := 10;
     GreedySolver.st_lon := 76 |}.

(** Two farms of one zone, as far from the plant and asking as much. *)
Definition twin_farms : list FarmRow :=
  [ {| farm_id := "F_A"; farm_lat := 10; farm_lon := 76 + (1 # 10); zone := "Z1" |};
    {| farm_id := "F_B"; farm_lat := 10 + (1 # 10); farm_lon := 76; zone := "Z1" |} ].

Definition twin_demand_cols : gmap string Q := <["F_A" := 300]> (<["F_B" := 300]> ∅).

Definition twin_solver : GreedySolver.t :=
  GreedySolver.init
    (DataManager.init Sample.taxicab exact_forward_sum Sample.cfg Sample.stps twin_farms
       Sample.weather
       (map (fun d => {| d_date := d; d_cols := twin_demand_cols |}) (year_dates 2025))).

Definition twin_morning : GreedySolver.State :=
  (GreedySolver.replenish twin_solver, twin_demand_cols).

(** The log of the first day's one truck. *)
Definition one_truck : list Event :=
  [ {| ev_date := Sample.day1; ev_stp_id := "STP_1"; ev_farm_id := "F_1000";
       tons_delivered := 10 |} ].

(** A weather table with a gap, the later row first: 20 mm on the first
    day of the year and 20 mm nine days on. *)
Definition patchy_first : WeatherRow :=
  {| w_date := Sample.day1; w_rain := <["Z1" := 20]> ∅ |}.

Definition patchy_second : WeatherRow :=
  {| w_date := (Sample.day1 + 9)%Z; w_rain := <["Z1" := 20]> ∅ |}.

Definition patchy_weather : WeatherDF :=
  {| w_zones := ["Z1"]; w_rows := [patchy_second; patchy_first] |}.

Definition patchy_by_date : list WeatherRow := [patchy_first; patchy_second].

Definition patchy_dm : DataManager.t :=
  DataManager.init Sample.taxicab exact_forward_sum Sample.cfg Sample.stps Sample.farms
    patchy_weather Sample.demand.

(** A row dated after the year, and a row of a plant the registry does
    not know. *)
Definition late_row : Event :=
  {| ev_date := (Sample.day1 + 400)%Z; ev_stp_id := "STP_1"; ev_farm_id := "F_1000";
     tons_delivered := 7 |}.

Definition alien_row : Event :=
  {| ev_date := Sample.day1; ev_stp_id := "STP_9"; ev_farm_id := "F_1000";
     tons_delivered := 7 |}.

End Cases.

(** * Properties *)

(** ** Comparisons and sums of rationals *)

Lemma Qltb_lt (x y : Q) : Qltb x y = true <-> x < y.
Proof.
  unfold Qltb. rewrite negb_true_iff, <- not_true_iff_false, Qle_bool_iff. lra.
Qed.

Lemma Qltb_ge (x y : Q) : Qltb x y = false <-> y <= x.
Proof.
  unfold Qltb. rewrite negb_false_iff, Qle_bool_iff. reflexivity.
Qed.

Lemma Qle_bool_gt (x y : Q) : Qle_bool x y = false <-> y < x.
Proof.
  rewrite <- not_true_iff_false, Qle_bool_iff. lra.
Qed.

Lemma Qsum_cons (x : Q) (l : list Q) : Qsum (x :: l) = x + Qsum l.
Proof. reflexivity. Qed.

Lemma Qsum_app (l1 l2 : list Q) : Qsum (l1 ++ l2) == Qsum l1 + Qsum l2.
Proof.
  induction l1 as [|x l1 IH].
  - change (Qsum l2 == 0 + Qsum l2). lra.
  - change (x + Qsum (l1 ++ l2) == x + Qsum l1 + Qsum l2). rewrite IH. lra.
Qed.

Lemma Qmax0_nonneg (x : Q) : 0 <= Qmax 0 x.
Proof. apply Q.le_max_l. Qed.

(** Flooring twice is flooring once, for a non-negative second amount. *)
Lemma Qmax0_sub_sub (x a : Q) : 0 <= a -> Qmax 0 (Qmax 0 x - a) == Qmax 0 (x - a).
Proof.
  intros Ha.
  pose proof (Q.max_spec 0 x) as H1.
  remember (Qmax 0 x) as m eqn:Hm. clear Hm.
  pose proof (Q.max_spec 0 (m - a)) as H3.
  remember (Qmax 0 (m - a)) as m3 eqn:Hm3. clear Hm3.
  pose proof (Q.max_spec 0 (x - a)) as H2.
  remember (Qmax 0 (x - a)) as m2 eqn:Hm2. clear Hm2.
  lra.
Qed.

Lemma Qmax0_le (x y : Q) : x <= y -> Qmax 0 x <= Qmax 0 y.
Proof.
  intros Hxy.
  pose proof (Q.max_spec 0 x) as H1.
  remember (Qmax 0 x) as m eqn:Hm. clear Hm.
  pose proof (Q.max_spec 0 y) as H2.
  remember (Qmax 0 y) as m2 eqn:Hm2. clear Hm2.
  lra.
Qed.

Lemma Qmax0_compat (x y : Q) : x == y -> Qmax 0 x == Qmax 0 y.
Proof. intros E. rewrite E. reflexivity. Qed.

(** ** One turn of the dispatch loop *)

Section LoopBody.
Import GreedySolver.

Lemma loop_body_dispatched date stp cand s dd e st' :
  loop_body date stp cand (s, dd) = Dispatched e st' ->
  0 < stored s (st_stp_id stp)
  /\ (st_max stp < stored s (st_stp_id stp) \/ 0 < c_score cand)
  /\ e = {| ev_date := date; ev_stp_id := st_stp_id stp;
            ev_farm_id := c_farm_id cand;
            tons_delivered := Qmin (TRUCK_CAPACITY s) (stored s (st_stp_id stp)) |}
  /\ st' = ({| dm := dm s;
               stp_storage :=
                 <[st_stp_id stp := stored s (st_stp_id stp) - tons_delivered e]>
                   (stp_storage s);
               farm_zone_map := farm_zone_map s;
               solution := solution s ++ [e] |},
            <[c_farm_id cand :=
                Qmax 0 (get0 dd (c_farm_id cand) - tons_delivered e * N_CONTENT s)]> dd).
Proof.
  unfold loop_body.
  destruct (Qle_bool (stored s (st_stp_id stp)) 0) eqn:Hpos; [discriminate|].
  apply Qle_bool_gt in Hpos.
  destruct (Qltb (st_max stp) (stored s (st_stp_id stp))) eqn:Hu;
    destruct (Qltb 0 (c_score cand)) eqn:Hp; simpl; try discriminate;
    intros [= <- <-]; (split; [exact Hpos|]); (split; [|split; reflexivity]).
  - left. now apply Qltb_lt.
  - left. now apply Qltb_lt.
  - right. now apply Qltb_lt.
Qed.

(** An urgent plant with stock ships to whatever candidate comes. *)
Lemma loop_body_urgent date stp cand s dd :
  0 < stored s (st_stp_id stp) ->
  st_max stp < stored s (st_stp_id stp) ->
  exists e st', loop_body date stp cand (s, dd) = Dispatched e st'
                /\ ev_date e = date /\ ev_stp_id e = st_stp_id stp.
Proof.
  intros Hpos Hu. unfold loop_body.
  apply Qle_bool_gt in Hpos. rewrite Hpos.
  apply Qltb_lt in Hu. rewrite Hu. simpl.
  eexists _, _. split; [reflexivity|]. split; reflexivity.
Qed.

(** What a dispatch is, read off its transition. *)
Lemma is_dispatch_inv date t :
  is_dispatch date t ->
  let s := fst (t_pre t) in
  let e := t_event t in
  0 < stored s (ev_stp_id e)
  /\ ev_date e = date
  /\ tons_delivered e = Qmin (TRUCK_CAPACITY s) (stored s (ev_stp_id e))
  /\ dm (fst (t_post t)) = dm s
  /\ farm_zone_map (fst (t_post t)) = farm_zone_map s
  /\ solution (fst (t_post t)) = solution s ++ [e]
  /\ stp_storage (fst (t_post t))
     = <[ev_stp_id e := stored s (ev_stp_id e) - tons_delivered e]> (stp_storage s)
  /\ snd (t_post t)
     = <[ev_farm_id e :=
           Qmax 0 (get0 (snd (t_pre t)) (ev_farm_id e) - tons_delivered e * N_CONTENT s)]>
         (snd (t_pre t)).
Proof.
  intros (stp & cand & Hb). destruct t as [[s dd] e post]. simpl in *.
  apply loop_body_dispatched in Hb as (Hpos & _ & He & Hpost).
  subst post. subst e. simpl. repeat split; try reflexivity. exact Hpos.
Qed.
End LoopBody.

(** ** The loops and their lists of dispatches *)

Section Traces.
Import GreedySolver.

Lemma trace_nil date st : trace_of date st [] st.
Proof. repeat split. constructor. Qed.

Lemma trace_cons date st t steps st' :
  t_pre t = st -> is_dispatch date t -> trace_of date (t_post t) steps st' ->
  trace_of date st (t :: steps) st'.
Proof.
  intros Hpre Hd (Hl & Hf & He). repeat split; simpl; auto.
Qed.

Lemma trace_app date st l1 st1 l2 st2 :
  trace_of date st l1 st1 -> trace_of date st1 l2 st2 ->
  trace_of date st (l1 ++ l2) st2.
Proof.
  revert st. induction l1 as [|t l1 IH]; intros st (Hl & Hf & He) H2.
  - simpl in He. subst st1. exact H2.
  - destruct Hl as [Hpre Hl]. inversion Hf as [|? ? Hd Hf']; subst.
    simpl. apply trace_cons; auto. apply IH; auto. repeat split; auto.
Qed.

Lemma greedy_dispatch_trace date stp cands st :
  trace_of date st (greedy_dispatch_steps date stp cands st)
    (greedy_dispatch date stp cands st).
Proof.
  revert st. induction cands as [|cand rest IH]; intros st; simpl.
  - apply trace_nil.
  - destruct (loop_body date stp cand st) as [| |e st'] eqn:Hb.
    + apply trace_nil.
    + apply IH.
    + apply trace_cons; simpl; auto. exists stp, cand. exact Hb.
Qed.

(** Every dispatch of the loop is by the plant the loop serves. *)
Lemma greedy_dispatch_steps_plant date stp cands st :
  Forall (fun t => ev_stp_id (t_event t) = st_stp_id stp)
    (greedy_dispatch_steps date stp cands st).
Proof.
  revert st. induction cands as [|cand rest IH]; intros st; simpl.
  - constructor.
  - destruct (loop_body date stp cand st) as [| |e st'] eqn:Hb; auto.
    constructor; auto. simpl. destruct st as [s dd].
    apply loop_body_dispatched in Hb as (_ & _ & -> & _). reflexivity.
Qed.

Lemma dispatch_logic_trace date stp valid st :
  trace_of date st (_dispatch_logic_steps date stp valid st)
    (_dispatch_logic date stp valid st).
Proof.
  unfold _dispatch_logic_steps, _dispatch_logic.
  destruct (Qle_bool (st_current stp) 0); [apply trace_nil|].
  apply greedy_dispatch_trace.
Qed.

Lemma dispatch_all_trace date status valid st :
  trace_of date st (dispatch_all_steps date status valid st)
    (dispatch_all date status valid st).
Proof.
  revert st. induction status as [|stp rest IH]; intros st; simpl.
  - apply trace_nil.
  - eapply trace_app; [apply dispatch_logic_trace | apply IH].
Qed.

(** The day: the dispatches start from the replenished stores and the
    fresh demand snapshot, and end in the state the day returns. *)
Lemma process_day_trace s date steps :
  _process_day_steps s date = Some steps ->
  exists daily_demands st',
    DataManager.get_demand_for_day (dm s) date = Some daily_demands
    /\ trace_of date (replenish s, daily_demands) steps st'
    /\ _process_day s date = Some (fst st').
Proof.
  unfold _process_day_steps, _process_day. simpl.
  destruct (DataManager.get_demand_for_day (dm s) date) as [dd|] eqn:Hd; [|discriminate].
  destruct (stp_status_of (replenish s)) as [status|]; [|discriminate].
  intros [= <-]. exists dd. eexists. split; [reflexivity|]. split.
  - apply dispatch_all_trace.
  - reflexivity.
Qed.

Lemma process_day_steps_total s date s' :
  _process_day s date = Some s' -> is_Some (_process_day_steps s date).
Proof.
  unfold _process_day_steps, _process_day.
  destruct (DataManager.get_demand_for_day _ date); [|discriminate].
  destruct (stp_status_of (replenish s)); [eauto | discriminate].
Qed.

(** *** What a run of dispatches preserves *)

Lemma trace_dm date st steps st' :
  trace_of date st steps st' ->
  dm (fst st') = dm (fst st) /\ farm_zone_map (fst st') = farm_zone_map (fst st).
Proof.
  revert st. induction steps as [|t steps IH]; intros st (Hl & Hf & He).
  - simpl in He. subst. auto.
  - destruct Hl as [Hpre Hl]. inversion Hf as [|? ? Hd Hf']; subst.
    destruct (IH (t_post t)) as [E1 E2]; [repeat split; auto|].
    apply is_dispatch_inv in Hd as (_ & _ & _ & D1 & D2 & _).
    simpl in *. rewrite E1, E2. auto.
Qed.

Lemma trace_solution date st steps st' :
  trace_of date st steps st' ->
  solution (fst st') = solution (fst st) ++ map t_event steps.
Proof.
  revert st. induction steps as [|t steps IH]; intros st (Hl & Hf & He).
  - simpl in He. subst. simpl. now rewrite app_nil_r.
  - destruct Hl as [Hpre Hl]. inversion Hf as [|? ? Hd Hf']; subst.
    rewrite (IH (t_post t)); [|repeat split; auto].
    apply is_dispatch_inv in Hd as (_ & _ & _ & _ & _ & D & _).
    simpl in *. rewrite D, <- app_assoc. reflexivity.
Qed.
End Traces.

(** ** Residual demand within a day *)

Section Residual.
Import GreedySolver.

Lemma get0_insert (m : gmap string Q) (k f : string) (v : Q) :
  get0 (<[k := v]> m) f = if String.eqb k f then v else get0 m f.
Proof.
  unfold get0. destruct (String.eqb_spec k f) as [->|Hne].
  - now rewrite lookup_insert_eq.
  - now rewrite lookup_insert_ne.
Qed.

Lemma nitrogen_to_snoc n f rows e :
  nitrogen_to n f (rows ++ [e])
  == nitrogen_to n f rows
     + (if String.eqb (ev_farm_id e) f then tons_delivered e * n else 0).
Proof.
  unfold nitrogen_to. rewrite List.filter_app, map_app, Qsum_app.
  cbn [List.filter].
  destruct (String.eqb (ev_farm_id e) f); cbn [map]; rewrite ?Qsum_cons;
    change (Qsum []) with 0; lra.
Qed.

(** One dispatch: the residual of the served farm drops by the nitrogen
    shipped, floored at zero; the others keep theirs. *)
Lemma residual_step date t f :
  is_dispatch date t ->
  let e := t_event t in
  residual (t_post t) f
  = if String.eqb (ev_farm_id e) f
    then Qmax 0 (residual (t_pre t) f - tons_delivered e * N_CONTENT (fst (t_pre t)))
    else residual (t_pre t) f.
Proof.
  intros Hd. apply is_dispatch_inv in Hd as (_ & _ & _ & _ & _ & _ & _ & Hdd).
  simpl. unfold residual. rewrite Hdd, get0_insert.
  destruct (String.eqb_spec (ev_farm_id (t_event t)) f) as [->|]; reflexivity.
Qed.

Lemma dispatch_tons_nonneg date t :
  is_dispatch date t -> 0 <= TRUCK_CAPACITY (fst (t_pre t)) ->
  0 <= tons_delivered (t_event t).
Proof.
  intros Hd HT. apply is_dispatch_inv in Hd as (Hpos & _ & Htons & _).
  simpl in *. rewrite Htons. apply Q.min_glb; lra.
Qed.

Lemma dispatch_config date t :
  is_dispatch date t ->
  N_CONTENT (fst (t_post t)) = N_CONTENT (fst (t_pre t))
  /\ TRUCK_CAPACITY (fst (t_post t)) = TRUCK_CAPACITY (fst (t_pre t)).
Proof.
  intros Hd. apply is_dispatch_inv in Hd as (_ & _ & _ & Hdm & _).
  simpl in Hdm. unfold N_CONTENT, TRUCK_CAPACITY. now rewrite Hdm.
Qed.

(** The invariant along a linked run of dispatches: [done] are the
    events shipped before the run starts. *)
Lemma residual_along (orig : gmap string Q) date n_content :
  0 <= n_content ->
  forall steps st done,
    N_CONTENT (fst st) = n_content ->
    0 <= TRUCK_CAPACITY (fst st) ->
    (forall f, residual st f == Qmax 0 (get0 orig f - nitrogen_to n_content f done)) ->
    linked st steps -> Forall (is_dispatch date) steps ->
    forall i t f, steps !! i = Some t ->
      residual (t_pre t) f
      == Qmax 0 (get0 orig f - nitrogen_to n_content f (done ++ events_until i steps))
      /\ residual (t_post t) f
         == Qmax 0 (get0 orig f
                    - nitrogen_to n_content f (done ++ events_until (S i) steps))
      /\ residual (t_post t) f <= residual (t_pre t) f
      /\ 0 <= residual (t_post t) f.
Proof.
  intros Hn. induction steps as [|t0 steps IH];
    intros st done HN HT Hinv Hl Hf i t f Hi; [discriminate|].
  destruct Hl as [Hpre Hl]. apply Forall_cons in Hf as [Hd Hf'].
  pose proof (residual_step date t0 f Hd) as Hstep. simpl in Hstep.
  pose proof (dispatch_tons_nonneg date t0 Hd) as Htons.
  rewrite Hpre in Htons. specialize (Htons HT).
  pose proof (dispatch_config date t0 Hd) as [HN' HT'].
  rewrite Hpre in HN', HT'.
  assert (Ha : 0 <= tons_delivered (t_event t0) * n_content)
    by (apply Qmult_le_0_compat; lra).
  assert (Hpost : forall g,
    residual (t_post t0) g
    == Qmax 0 (get0 orig g - nitrogen_to n_content g (done ++ [t_event t0]))).
  { intros g. rewrite (residual_step date t0 g Hd). simpl.
    rewrite nitrogen_to_snoc, Hpre, HN.
    destruct (String.eqb (ev_farm_id (t_event t0)) g).
    - etransitivity; [apply Qmax0_compat; rewrite (Hinv g); reflexivity|].
      etransitivity; [apply Qmax0_sub_sub; exact Ha|].
      apply Qmax0_compat. lra.
    - rewrite (Hinv g). apply Qmax0_compat. lra. }
  destruct i as [|i]; simpl in Hi.
  - injection Hi as <-. unfold events_until. simpl. rewrite app_nil_r.
    rewrite Hpre. split; [apply Hinv|]. split; [apply Hpost|].
    split; [|rewrite Hpost; apply Qmax0_nonneg].
    rewrite Hstep, Hpre.
    destruct (String.eqb (ev_farm_id (t_event t0)) f); [|lra].
    assert (0 <= residual st f) by (rewrite Hinv; apply Qmax0_nonneg).
    rewrite HN. apply Q.max_lub; lra.
  - unfold events_until. simpl.
    specialize (IH (t_post t0) (done ++ [t_event t0])).
    rewrite HN', HT' in IH. specialize (IH HN HT Hpost Hl Hf' i t f Hi).
    unfold events_until in IH. rewrite <- !app_assoc in IH. simpl in IH.
    exact IH.
Qed.
End Residual.

Section ResidualClaim.
Import GreedySolver.

Lemma get0_nonneg (m : gmap string Q) :
  (forall f v, m !! f = Some v -> 0 <= v) -> forall f, 0 <= get0 m f.
Proof.
  intros H f. unfold get0. destruct (m !! f) as [v|] eqn:E; simpl; [eauto | lra].
Qed.

(** C5.  Within one simulated day, with non-negative demands, nitrogen
    content and truck capacity: the dispatches of the day form one
    chain that starts from the fresh demand snapshot; before any
    dispatch, and before and after each of them, the residual demand of
    every farm is [max(0, original demand - nitrogen delivered so far)];
    each dispatch leaves every residual no larger and never negative;
    and the day returns with the data manager, hence its demand table,
    unchanged. *)
Theorem residual_demand_within_day (s : GreedySolver.t) (date : Z)
    (orig : gmap string Q) (steps : list Transition) :
  0 <= N_CONTENT s ->
  0 <= TRUCK_CAPACITY s ->
  DataManager.get_demand_for_day (dm s) date = Some orig ->
  (forall f v, orig !! f = Some v -> 0 <= v) ->
  _process_day_steps s date = Some steps ->
  linked (replenish s, orig) steps
  /\ (forall f, residual (replenish s, orig) f
                == Qmax 0 (get0 orig f - nitrogen_to (N_CONTENT s) f []))
  /\ (forall i t f, steps !! i = Some t ->
        residual (t_pre t) f
        == Qmax 0 (get0 orig f - nitrogen_to (N_CONTENT s) f (events_until i steps))
        /\ residual (t_post t) f
           == Qmax 0 (get0 orig f
                      - nitrogen_to (N_CONTENT s) f (events_until (S i) steps))
        /\ residual (t_post t) f <= residual (t_pre t) f
        /\ 0 <= residual (t_post t) f)
  /\ (exists s', _process_day s date = Some s'
        /\ dm s' = dm s
        /\ DataManager.get_demand_for_day (dm s') date = Some orig).
Proof.
  intros HN HT Horig Hnn Hsteps.
  apply process_day_trace in Hsteps as (dd & st' & Hdd & Htr & Hday).
  rewrite Horig in Hdd. injection Hdd as <-.
  pose proof Htr as (Hl & Hf & _).
  assert (Hinit : forall f, residual (replenish s, orig) f
                            == Qmax 0 (get0 orig f - nitrogen_to (N_CONTENT s) f [])).
  { intros g. unfold residual, nitrogen_to. simpl. change (Qsum []) with 0.
    pose proof (get0_nonneg orig Hnn g) as Hg.
    rewrite Q.max_r; lra. }
  split; [exact Hl|]. split; [exact Hinit|]. split.
  - intros i t f Hi.
    pose proof (residual_along orig date (N_CONTENT s) HN steps
                  (replenish s, orig) [] eq_refl HT) as H.
    apply (H); auto.
  - exists (fst st'). split; [exact Hday|].
    apply trace_dm in Htr as [Hdm _]. simpl in Hdm.
    split; [exact Hdm|]. rewrite Hdm. exact Horig.
Qed.
End ResidualClaim.

Lemma sample_demand_nonneg (f : string) (v : Q) :
  Sample.demand_cols !! f = Some v -> 0 <= v.
Proof.
  unfold Sample.demand_cols. intros H.
  apply lookup_insert_Some in H as [[_ <-]|[_ H]]; [vm_compute; congruence|].
  apply lookup_insert_Some in H as [[_ <-]|[_ H]]; [vm_compute; congruence|].
  rewrite lookup_empty in H. discriminate.
Defined.

Lemma residual_demand_within_day_witness :
  match GreedySolver._process_day_steps Sample.solver Sample.day1 with
  | Some steps =>
      linked (GreedySolver.replenish Sample.solver, Sample.demand_cols) steps
      /\ (forall f, residual (GreedySolver.replenish Sample.solver, Sample.demand_cols) f
                    == Qmax 0 (get0 Sample.demand_cols f
                               - nitrogen_to (GreedySolver.N_CONTENT Sample.solver) f []))
      /\ (forall i t f, steps !! i = Some t ->
            residual (GreedySolver.t_pre t) f
            == Qmax 0 (get0 Sample.demand_cols f
                       - nitrogen_to (GreedySolver.N_CONTENT Sample.solver) f
                           (events_until i steps))
            /\ residual (GreedySolver.t_post t) f
               == Qmax 0 (get0 Sample.demand_cols f
                          - nitrogen_to (GreedySolver.N_CONTENT Sample.solver) f
                              (events_until (S i) steps))
            /\ residual (GreedySolver.t_post t) f <= residual (GreedySolver.t_pre t) f
            /\ 0 <= residual (GreedySolver.t_post t) f)
      /\ (exists s', GreedySolver._process_day Sample.solver Sample.day1 = Some s'
            /\ GreedySolver.dm s' = GreedySolver.dm Sample.solver
            /\ DataManager.get_demand_for_day (GreedySolver.dm s') Sample.day1
               = Some Sample.demand_cols)
  | None => False
  end.
Proof.
  destruct (GreedySolver._process_day_steps Sample.solver Sample.day1) as [steps|] eqn:E.
  - apply (residual_demand_within_day Sample.solver Sample.day1 Sample.demand_cols steps).
    + vm_compute; congruence.
    + vm_compute; congruence.
    + vm_compute; reflexivity.
    + exact sample_demand_nonneg.
    + exact E.
  - assert (H : match GreedySolver._process_day_steps Sample.solver Sample.day1 with
                | Some _ => true
                | None => false
                end = true) by (vm_compute; reflexivity).
    rewrite E in H. discriminate.
Defined.

(** ** Inventories and shipped tons over the run *)

Section Inventory.
Import GreedySolver.

Lemma fold_zero_nonneg (rows : list StpRow) (m : gmap string Q) :
  (forall id, 0 <= get0 m id) ->
  forall id, 0 <= get0 (foldl (fun m row => <[stp_id row := 0]> m) m rows) id.
Proof.
  revert m. induction rows as [|r rows IH]; intros m Hm; simpl; [exact Hm|].
  apply IH. intros id. rewrite get0_insert.
  destruct (String.eqb (stp_id r) id); [lra | apply Hm].
Qed.

Lemma init_stocked (data_manager : DataManager.t) : stocked (init data_manager).
Proof.
  unfold stocked, stored, init. simpl. apply fold_zero_nonneg.
  intros id. unfold get0. rewrite lookup_empty. simpl. lra.
Qed.

Lemma fold_output_nonneg (rows : list StpRow) (m : gmap string Q) :
  (forall stp, stp ∈ rows -> 0 <= daily_output_tons stp) ->
  (forall id, 0 <= get0 m id) ->
  forall id,
    0 <= get0 (foldl (fun m stp =>
                 <[stp_id stp := get0 m (stp_id stp) + daily_output_tons stp]> m) m rows) id.
Proof.
  revert m. induction rows as [|r rows IH]; intros m Hout Hm; simpl; [exact Hm|].
  apply IH.
  - intros stp Hin. apply Hout. now right.
  - intros id. rewrite get0_insert.
    destruct (String.eqb (stp_id r) id); [|apply Hm].
    pose proof (Hm (stp_id r)). pose proof (Hout r (list_elem_of_here _ _)). lra.
Qed.

Lemma replenish_stocked (s : GreedySolver.t) :
  (forall stp, stp ∈ DataManager.stp_df (dm s) -> 0 <= daily_output_tons stp) ->
  stocked s -> stocked (replenish s).
Proof.
  intros Hout Hs. unfold stocked, stored, replenish. simpl.
  apply fold_output_nonneg; assumption.
Qed.

Lemma dispatch_within_bounds date t :
  is_dispatch date t -> stocked (fst (t_pre t)) ->
  within_bounds (TRUCK_CAPACITY (fst (t_pre t))) t /\ stocked (fst (t_post t)).
Proof.
  intros Hd Hs.
  apply is_dispatch_inv in Hd as (Hpos & _ & Htons & _ & _ & _ & Hsto & _).
  simpl in *.
  assert (Hpost : forall id, 0 <= stored (fst (t_post t)) id).
  { intros id. unfold stored at 1. rewrite Hsto, get0_insert.
    destruct (String.eqb (ev_stp_id (t_event t)) id); [|apply Hs].
    rewrite Htons.
    pose proof (Q.le_min_r (TRUCK_CAPACITY (fst (t_pre t)))
                  (stored (fst (t_pre t)) (ev_stp_id (t_event t)))).
    lra. }
  split; [|exact Hpost].
  unfold within_bounds, inventory. rewrite Htons.
  split; [apply Q.le_min_l|]. split; [apply Q.le_min_r|]. split; [apply Hs | apply Hpost].
Qed.

Lemma trace_within_bounds date steps :
  forall st st', trace_of date st steps st' -> stocked (fst st) ->
    Forall (within_bounds (TRUCK_CAPACITY (fst st))) steps /\ stocked (fst st').
Proof.
  induction steps as [|t steps IH]; intros st st' (Hl & Hf & He) Hs.
  - simpl in He. subst st'. split; [constructor | exact Hs].
  - destruct Hl as [Hpre Hl]. apply Forall_cons in Hf as [Hd Hf].
    pose proof (dispatch_config date t Hd) as [_ HT].
    rewrite <- Hpre in Hs.
    destruct (dispatch_within_bounds date t Hd Hs) as [Hb Hs'].
    destruct (IH (t_post t) st') as [Hbs Hend]; [repeat split; auto | exact Hs' |].
    rewrite HT, Hpre in Hbs. rewrite Hpre in Hb.
    split; [constructor; assumption | exact Hend].
Qed.

(** The whole run, from any stocked state. *)
Lemma run_within_bounds (dates : list Z) :
  forall s steps,
    (forall stp, stp ∈ DataManager.stp_df (dm s) -> 0 <= daily_output_tons stp) ->
    stocked s ->
    run_steps s dates = Some steps ->
    exists s_end days,
      run s dates = Some s_end
      /\ run_days s dates = Some days
      /\ solution s_end = solution s ++ map t_event steps
      /\ Forall (within_bounds (TRUCK_CAPACITY s)) steps
      /\ Forall stocked days.
Proof.
  induction dates as [|date rest IH]; intros s steps Hout Hs Hrun; simpl in *.
  - injection Hrun as <-. exists s, []. simpl. rewrite app_nil_r.
    repeat split; constructor.
  - destruct (_process_day_steps s date) as [day|] eqn:Hday; [|discriminate].
    destruct (_process_day s date) as [s'|] eqn:Hs'; [|discriminate].
    destruct (run_steps s' rest) as [later|] eqn:Hlater; [|discriminate].
    simpl in Hrun. injection Hrun as <-.
    apply process_day_trace in Hday as (dd & st' & _ & Htr & Hday').
    rewrite Hs' in Hday'. injection Hday' as ->.
    destruct (trace_dm _ _ _ _ Htr) as [Hdm _]. simpl in Hdm.
    pose proof (trace_solution _ _ _ _ Htr) as Hsol. simpl in Hsol.
    destruct (trace_within_bounds _ _ _ _ Htr) as [Hb Hend];
      [apply replenish_stocked; assumption|]. simpl in Hb.
    destruct (IH (fst st') later) as (s_end & days & R1 & R2 & R3 & R4 & R5);
      [rewrite Hdm; exact Hout | exact Hend | exact Hlater |].
    exists s_end, (fst st' :: days). rewrite R1, R2. simpl.
    repeat split.
    + rewrite R3, Hsol, map_app, app_assoc. reflexivity.
    + apply Forall_app. split; [exact Hb|].
      replace (TRUCK_CAPACITY s) with (TRUCK_CAPACITY (fst st')); [exact R4|].
      unfold TRUCK_CAPACITY. now rewrite Hdm.
    + constructor; assumption.
Qed.

(** C4.  Over the whole year, from a fresh solver and with non-negative
    daily outputs: the log is exactly the list of the events of the
    dispatches made, in order; every dispatch ships at most the truck
    capacity and at most what the dispatching plant holds at that moment;
    and no plant's inventory is negative before or after any dispatch, nor
    at the end of any day. *)
Theorem dispatch_bounds_over_year (data_manager : DataManager.t)
    (steps : list Transition) :
  (forall stp, stp ∈ DataManager.stp_df data_manager -> 0 <= daily_output_tons stp) ->
  run_steps (init data_manager)
    (year_dates (year (DataManager.config data_manager))) = Some steps ->
  solve (init data_manager) = Some (map t_event steps)
  /\ Forall (fun t =>
       tons_delivered (t_event t) <= truck_capacity_tons (DataManager.config data_manager)
       /\ tons_delivered (t_event t) <= inventory (t_pre t) (ev_stp_id (t_event t))
       /\ (forall id, 0 <= inventory (t_pre t) id)
       /\ (forall id, 0 <= inventory (t_post t) id)) steps
  /\ exists days,
       run_days (init data_manager)
         (year_dates (year (DataManager.config data_manager))) = Some days
       /\ Forall (fun s => forall id, 0 <= stored s id) days.
Proof.
  intros Hout Hrun.
  destruct (run_within_bounds _ (init data_manager) steps Hout
              (init_stocked data_manager) Hrun)
    as (s_end & days & R1 & R2 & R3 & R4 & R5).
  split; [|split].
  - unfold solve. simpl. rewrite R1. simpl. rewrite R3. reflexivity.
  - exact R4.
  - exists days. split; [exact R2 | exact R5].
Qed.
End Inventory.

Lemma sample_outputs_nonneg (stp : StpRow) :
  stp ∈ DataManager.stp_df Sample.dm -> 0 <= daily_output_tons stp.
Proof.
  simpl. unfold Sample.stps. intros H.
  apply list_elem_of_singleton in H. subst stp. vm_compute. congruence.
Defined.

Lemma dispatch_bounds_over_year_witness :
  match GreedySolver.run_steps Sample.solver
          (year_dates (year (DataManager.config Sample.dm))) with
  | Some steps =>
      GreedySolver.solve Sample.solver = Some (map GreedySolver.t_event steps)
      /\ Forall (fun t =>
           tons_delivered (GreedySolver.t_event t)
           <= truck_capacity_tons (DataManager.config Sample.dm)
           /\ tons_delivered (GreedySolver.t_event t)
              <= inventory (GreedySolver.t_pre t) (ev_stp_id (GreedySolver.t_event t))
           /\ (forall id, 0 <= inventory (GreedySolver.t_pre t) id)
           /\ (forall id, 0 <= inventory (GreedySolver.t_post t) id)) steps
      /\ exists days,
           GreedySolver.run_days Sample.solver
             (year_dates (year (DataManager.config Sample.dm))) = Some days
           /\ Forall (fun s => forall id, 0 <= GreedySolver.stored s id) days
  | None => False
  end.
Proof.
  destruct (GreedySolver.run_steps Sample.solver
              (year_dates (year (DataManager.config Sample.dm)))) as [steps|] eqn:E.
  - apply (dispatch_bounds_over_year Sample.dm steps sample_outputs_nonneg E).
  - assert (H : match GreedySolver.run_steps Sample.solver
                        (year_dates (year (DataManager.config Sample.dm))) with
                | Some _ => true
                | None => false
                end = true) by (vm_compute; reflexivity).
    rewrite E in H. discriminate.
Defined.

(** ** Sorting keeps the elements *)

Section SortFacts.
Context {A : Type} (ltb : A -> A -> bool).

Lemma insert_desc_elem (x y : A) (l : list A) :
  y ∈ insert_desc ltb x l <-> y = x \/ y ∈ l.
Proof.
  induction l as [|z l IH]; simpl.
  - rewrite list_elem_of_singleton. rewrite elem_of_nil. tauto.
  - destruct (ltb x z).
    + rewrite !elem_of_cons, IH. tauto.
    + rewrite !elem_of_cons. tauto.
Qed.

Lemma sort_desc_elem (y : A) (l : list A) : y ∈ sort_desc ltb l <-> y ∈ l.
Proof.
  induction l as [|x l IH]; simpl; [reflexivity|].
  rewrite insert_desc_elem, IH, elem_of_cons. tauto.
Qed.

Lemma sort_desc_nil (l : list A) : sort_desc ltb l = [] -> l = [].
Proof.
  destruct l as [|x l]; [reflexivity|]. intros H.
  assert (Hx : x ∈ sort_desc ltb (x :: l)) by (apply sort_desc_elem; left).
  rewrite H in Hx. now apply elem_of_nil in Hx.
Qed.
End SortFacts.

(** ** The indices built by the data manager *)

Section Indices.
Variable haversine_distance : Q -> Q -> Q -> Q -> Q.

Let add_farms (stp : StpRow) (m : gmap (string * string) Q) (farms : list FarmRow) :=
  foldl (fun dist_matrix farm =>
    <[(stp_id stp, farm_id farm) :=
        haversine_distance (stp_lat stp) (stp_lon stp) (farm_lat farm) (farm_lon farm)]>
      dist_matrix) m farms.

Lemma add_farms_keeps stp farms : forall m k,
  is_Some (m !! k) -> is_Some (add_farms stp m farms !! k).
Proof.
  induction farms as [|f farms IH]; intros m k Hk; simpl; [exact Hk|].
  apply IH. rewrite lookup_insert. case_decide; eauto.
Qed.

Lemma add_farms_adds stp farms : forall m f,
  f ∈ farms -> is_Some (add_farms stp m farms !! (stp_id stp, farm_id f)).
Proof.
  induction farms as [|f0 farms IH]; intros m f Hin; [now apply elem_of_nil in Hin|].
  simpl. apply elem_of_cons in Hin as [->|Hin].
  - apply add_farms_keeps. rewrite lookup_insert_eq. eauto.
  - now apply IH.
Qed.

Lemma add_plants_keeps stps farms : forall m k,
  is_Some (m !! k) ->
  is_Some (foldl (fun m stp => add_farms stp m farms) m stps !! k).
Proof.
  induction stps as [|p stps IH]; intros m k Hk; simpl; [exact Hk|].
  apply IH. now apply add_farms_keeps.
Qed.

(** Every (plant row, farm row) pair has a distance. *)
Lemma distance_matrix_complete stps farms p f :
  p ∈ stps -> f ∈ farms ->
  is_Some (DataManager._compute_distance_matrix haversine_distance stps farms
             !! (stp_id p, farm_id f)).
Proof.
  unfold DataManager._compute_distance_matrix.
  change (p ∈ stps -> f ∈ farms ->
          is_Some (foldl (fun m stp => add_farms stp m farms) ∅ stps
                     !! (stp_id p, farm_id f))).
  generalize (∅ : gmap (string * string) Q).
  induction stps as [|p0 stps IH]; intros m Hp Hf; [now apply elem_of_nil in Hp|].
  simpl. apply elem_of_cons in Hp as [->|Hp].
  - apply add_plants_keeps. now apply add_farms_adds.
  - now apply IH.
Qed.

Lemma odict_set_keys k v d k' :
  k' ∈ map fst (DataManager.odict_set k v d) -> k' = k \/ k' ∈ map fst d.
Proof.
  induction d as [|[k0 v0] d IH]; simpl.
  - rewrite list_elem_of_singleton. tauto.
  - destruct (String.eqb_spec k0 k) as [->|Hne]; simpl.
    + rewrite !elem_of_cons. tauto.
    + rewrite !elem_of_cons. tauto.
Qed.

(** The farms of [farm_zone_map] are farms of the registry. *)
Lemma farm_zone_map_keys (data_manager : DataManager.t) k :
  k ∈ map fst (DataManager.get_farm_zone_map data_manager) ->
  exists f, f ∈ DataManager.farm_df data_manager /\ farm_id f = k.
Proof.
  unfold DataManager.get_farm_zone_map.
  assert (G : forall farms d,
    k ∈ map fst (foldl (fun d farm =>
                   DataManager.odict_set (farm_id farm) (zone farm) d) d farms) ->
    k ∈ map fst d \/ exists f, f ∈ farms /\ farm_id f = k).
  { induction farms as [|f0 farms IH]; intros d Hk; simpl in Hk; [now left|].
    apply IH in Hk as [Hk|(f & Hf & E)].
    - apply odict_set_keys in Hk as [->|Hk]; [|now left].
      right. exists f0. split; [left | reflexivity].
    - right. exists f. split; [now right | exact E]. }
  intros Hk. apply G in Hk as [Hk|Hk]; [now apply elem_of_nil in Hk | exact Hk].
Qed.
End Indices.

(** ** Urgency overrides profitability *)

Section Urgency.
Import GreedySolver.

Lemma valid_farms_keys s date f :
  f ∈ valid_farms s date -> f ∈ map fst (farm_zone_map s).
Proof.
  unfold valid_farms. rewrite !list_elem_of_In, !in_map_iff.
  intros ([k z] & E & Hin). apply filter_In in Hin as [Hin _].
  exists (k, z). split; assumption.
Qed.

(** With a distance to every valid farm, the candidate list is not empty. *)
Lemma candidates_nonempty stp valid st :
  valid <> [] ->
  (forall f, f ∈ valid ->
     is_Some (DataManager.distance_matrix (dm (fst st)) !! (st_stp_id stp, f))) ->
  candidates_of stp valid st <> [].
Proof.
  intros Hne Hdist Hnil. unfold candidates_of in Hnil.
  apply sort_desc_nil in Hnil.
  destruct valid as [|f valid]; [congruence|].
  simpl in Hnil. unfold score_candidate at 1 in Hnil.
  destruct (Hdist f (list_elem_of_here _ _)) as [d Hd]. rewrite Hd in Hnil.
  discriminate.
Qed.

(** A plant over capacity with stock ships to its first candidate. *)
Lemma urgent_row_dispatches date stp valid st :
  0 < st_current stp ->
  stored (fst st) (st_stp_id stp) = st_current stp ->
  st_max stp < st_current stp ->
  candidates_of stp valid st <> [] ->
  exists t, t ∈ _dispatch_logic_steps date stp valid st
            /\ ev_stp_id (t_event t) = st_stp_id stp.
Proof.
  intros Hpos Hcur Hurg Hc. unfold _dispatch_logic_steps.
  pose proof Hpos as Hpos'. apply Qle_bool_gt in Hpos'. rewrite Hpos'.
  destruct (candidates_of stp valid st) as [|cand rest]; [congruence|].
  simpl. destruct st as [s dd]. simpl in Hcur.
  destruct (loop_body_urgent date stp cand s dd) as (e & st' & Hb & _ & He);
    [rewrite Hcur; exact Hpos | rewrite Hcur; exact Hurg |].
  rewrite Hb. eexists. split; [left|]. exact He.
Qed.

(** Dispatches of other plants leave a plant's store alone. *)
Lemma trace_other_plants date id steps :
  forall st st', trace_of date st steps st' ->
    Forall (fun t => ev_stp_id (t_event t) <> id) steps ->
    stored (fst st') id = stored (fst st) id.
Proof.
  induction steps as [|t steps IH]; intros st st' (Hl & Hf & He) Hno.
  - simpl in He. now subst.
  - destruct Hl as [Hpre Hl]. apply Forall_cons in Hf as [Hd Hf].
    apply Forall_cons in Hno as [Hne Hno].
    rewrite (IH (t_post t) st'); [|repeat split; auto | exact Hno].
    apply is_dispatch_inv in Hd as (_ & _ & _ & _ & _ & _ & Hsto & _).
    simpl in Hsto. unfold stored at 1. rewrite Hsto, get0_insert, Hpre.
    destruct (String.eqb_spec (ev_stp_id (t_event t)) id); [contradiction|reflexivity].
Qed.

(** The plant loop: a listed row that is over capacity with stock gets a
    dispatch for its plant, from this row or from an earlier row of the
    same plant. *)
Lemma urgent_in_dispatch_all date valid row :
  valid <> [] ->
  0 < st_current row ->
  st_max row < st_current row ->
  forall status st,
    row ∈ status ->
    stored (fst st) (st_stp_id row) = st_current row ->
    (forall f, f ∈ valid ->
       is_Some (DataManager.distance_matrix (dm (fst st)) !! (st_stp_id row, f))) ->
    exists t, t ∈ dispatch_all_steps date status valid st
              /\ ev_stp_id (t_event t) = st_stp_id row.
Proof.
  intros Hvalid Hpos Hurg.
  induction status as [|stp0 rest IH]; intros st Hin Hcur Hdist;
    [now apply elem_of_nil in Hin|].
  simpl.
  pose proof (dispatch_logic_trace date stp0 valid st) as Htr.
  destruct (decide (Exists (fun t => ev_stp_id (t_event t) = st_stp_id row)
                      (_dispatch_logic_steps date stp0 valid st))) as [Hex|Hno].
  - apply Exists_exists in Hex as (t & Ht & E).
    exists t. split; [apply elem_of_app; now left | exact E].
  - apply not_Exists_Forall in Hno; [|intros t; apply _].
    apply elem_of_cons in Hin as [<-|Hin].
    + exfalso.
      destruct (urgent_row_dispatches date row valid st Hpos Hcur Hurg) as (t & Ht & E).
      { apply candidates_nonempty; assumption. }
      rewrite Forall_forall in Hno. exact (Hno t Ht E).
    + destruct (IH (_dispatch_logic date stp0 valid st) Hin) as (t & Ht & E).
      * rewrite (trace_other_plants _ _ _ _ _ Htr Hno). exact Hcur.
      * destruct (trace_dm _ _ _ _ Htr) as [-> _]. exact Hdist.
      * exists t. split; [apply elem_of_app; now right | exact E].
Qed.

Lemma status_of_Some s stp row :
  status_of s stp = Some row ->
  st_stp_id row = stp_id stp
  /\ st_current row = stored s (stp_id stp)
  /\ st_max row = storage_max_tons stp.
Proof.
  unfold status_of. destruct (Qeq_bool (storage_max_tons stp) 0); [discriminate|].
  intros [= <-]. repeat split.
Qed.

Lemma statuses_elem s rows : forall l stp,
  statuses s rows = Some l -> stp ∈ rows ->
  exists row, status_of s stp = Some row /\ row ∈ l.
Proof.
  induction rows as [|r rows IH]; intros l stp Hl Hin; [now apply elem_of_nil in Hin|].
  simpl in Hl.
  destruct (status_of s r) as [x|] eqn:Hx; [|discriminate].
  destruct (statuses s rows) as [l'|]; [|discriminate].
  injection Hl as <-.
  apply elem_of_cons in Hin as [->|Hin].
  - exists x. split; [exact Hx | left].
  - destruct (IH l' stp eq_refl Hin) as (row & Hrow & Hin').
    exists row. split; [exact Hrow | now right].
Qed.

Lemma stp_status_of_elem s status stp :
  stp_status_of s = Some status -> stp ∈ DataManager.stp_df (dm s) ->
  exists row, status_of s stp = Some row /\ row ∈ status.
Proof.
  unfold stp_status_of.
  destruct (statuses s (DataManager.stp_df (dm s))) as [l|] eqn:Hl; [|discriminate].
  intros [= <-] Hin.
  destruct (statuses_elem s _ l stp Hl Hin) as (row & Hrow & Hin').
  exists row. split; [exact Hrow | now apply sort_desc_elem].
Qed.

(** C6.  With the indices as the data manager builds them: on any day, a
    plant of the registry that, once replenished, holds more than its
    capacity and more than zero gets at least one dispatch logged for
    that day whenever some farm is valid (not rain-locked); nothing is
    asked of the candidates' scores. *)
Theorem urgent_plant_dispatches
    (haversine_distance : Q -> Q -> Q -> Q -> Q)
    (forward_rolling_sum : DataManager.Rolling) (config : Config)
    (stps : list StpRow) (farms : list FarmRow) (weather : WeatherDF)
    (demand : list DemandRow) (s s' : GreedySolver.t) (date : Z) (p : StpRow) :
  dm s = DataManager.init haversine_distance forward_rolling_sum config stps farms
           weather demand ->
  farm_zone_map s = DataManager.get_farm_zone_map (dm s) ->
  _process_day s date = Some s' ->
  p ∈ stps ->
  storage_max_tons p < stored (replenish s) (stp_id p) ->
  0 < stored (replenish s) (stp_id p) ->
  valid_farms s date <> [] ->
  exists evs e,
    solution s' = solution s ++ evs
    /\ e ∈ evs /\ ev_date e = date /\ ev_stp_id e = stp_id p.
Proof.
  intros Hdm Hfz Hday Hp Hover Hpos Hvalid.
  unfold _process_day in Hday.
  destruct (DataManager.get_demand_for_day (dm (replenish s)) date) as [dd|];
    [|discriminate].
  destruct (stp_status_of (replenish s)) as [status|] eqn:Hstatus; [|discriminate].
  injection Hday as <-.
  assert (Hp' : p ∈ DataManager.stp_df (dm (replenish s)))
    by (change (p ∈ DataManager.stp_df (dm s)); rewrite Hdm; exact Hp).
  destruct (stp_status_of_elem _ _ _ Hstatus Hp') as (row & Hrow & Hin).
  apply status_of_Some in Hrow as (Rid & Rcur & Rmax).
  rewrite <- Rid, <- Rcur in *. rewrite <- Rmax in Hover.
  set (valid := valid_farms (replenish s) date).
  set (st0 := (replenish s, dd)).
  pose proof (dispatch_all_trace date status valid st0) as Htr.
  pose proof (trace_solution _ _ _ _ Htr) as Hsol. simpl in Hsol.
  destruct (urgent_in_dispatch_all date valid row Hvalid Hpos Hover status st0)
    as (t & Ht & E).
  - exact Hin.
  - symmetry. exact Rcur.
  - intros f Hf. apply valid_farms_keys in Hf.
    change (f ∈ map fst (farm_zone_map s)) in Hf. rewrite Hfz in Hf.
    apply farm_zone_map_keys in Hf as (fr & Hfr & <-).
    rewrite Rid.
    change (is_Some (DataManager.distance_matrix (dm s) !! (stp_id p, farm_id fr))).
    rewrite Hdm in Hfr |- *. simpl in Hfr |- *.
    now apply distance_matrix_complete.
  - exists (map t_event (dispatch_all_steps date status valid st0)), (t_event t).
    split; [exact Hsol|]. split.
    + apply list_elem_of_In, in_map, list_elem_of_In. exact Ht.
    + destruct Htr as (_ & Hf & _). rewrite Forall_forall in Hf.
      apply Hf in Ht. apply is_dispatch_inv in Ht as (_ & Hdate & _).
      split; [exact Hdate | exact E].
Qed.
End Urgency.

Lemma process_day_dm (s s' : GreedySolver.t) (date : Z) :
  GreedySolver._process_day s date = Some s' ->
  GreedySolver.dm s' = GreedySolver.dm s
  /\ GreedySolver.farm_zone_map s' = GreedySolver.farm_zone_map s.
Proof.
  intros Hday.
  destruct (process_day_steps_total s date s' Hday) as [steps Hsteps].
  apply process_day_trace in Hsteps as (dd & st' & _ & Htr & Hday').
  rewrite Hday in Hday'. injection Hday' as ->.
  apply trace_dm in Htr. exact Htr.
Qed.

Lemma run_dm (dates : list Z) : forall s s',
  GreedySolver.run s dates = Some s' ->
  GreedySolver.dm s' = GreedySolver.dm s
  /\ GreedySolver.farm_zone_map s' = GreedySolver.farm_zone_map s.
Proof.
  induction dates as [|date rest IH]; intros s s' Hrun; simpl in Hrun.
  - injection Hrun as <-. split; reflexivity.
  - destruct (GreedySolver._process_day s date) as [s1|] eqn:Hday; [|discriminate].
    apply process_day_dm in Hday as [E1 E2].
    apply IH in Hrun as [E3 E4]. rewrite E3, E4. split; assumption.
Qed.

Lemma sample_day3_dm :
  GreedySolver.dm Sample.solver_day3 = Sample.dm
  /\ GreedySolver.farm_zone_map Sample.solver_day3
     = DataManager.get_farm_zone_map Sample.dm.
Proof.
  unfold Sample.solver_day3.
  destruct (GreedySolver.run Sample.solver [Sample.day1; (Sample.day1 + 1)%Z])
    as [s|] eqn:E; simpl.
  - apply run_dm in E. exact E.
  - split; reflexivity.
Defined.

Lemma urgent_plant_dispatches_witness :
  match GreedySolver._process_day Sample.solver_day3 (Sample.day1 + 2)%Z with
  | Some s' =>
      exists evs e,
        GreedySolver.solution s' = GreedySolver.solution Sample.solver_day3 ++ evs
        /\ e ∈ evs /\ ev_date e = (Sample.day1 + 2)%Z /\ ev_stp_id e = "STP_1"
  | None => False
  end.
Proof.
  destruct (GreedySolver._process_day Sample.solver_day3 (Sample.day1 + 2)%Z)
    as [s'|] eqn:E.
  - apply (urgent_plant_dispatches Sample.taxicab exact_forward_sum Sample.cfg
             Sample.stps Sample.farms Sample.weather Sample.demand Sample.solver_day3 s'
             (Sample.day1 + 2)%Z Sample.plant).
    + exact (proj1 sample_day3_dm).
    + rewrite (proj1 sample_day3_dm). exact (proj2 sample_day3_dm).
    + exact E.
    + left.
    + vm_compute; reflexivity.
    + vm_compute; reflexivity.
    + vm_compute; congruence.
  - assert (H : match GreedySolver._process_day Sample.solver_day3 (Sample.day1 + 2)%Z with
                | Some _ => true
                | None => false
                end = true) by (vm_compute; reflexivity).
    rewrite E in H. discriminate.
Defined.

(** ** The rain-lock index *)

Section RainLock.
Import DataManager.

Lemma consecutive_cons d0 r rest :
  consecutive_from d0 (r :: rest) <->
  w_date r = d0 /\ consecutive_from (d0 + 1) rest.
Proof.
  unfold consecutive_from. simpl length.
  rewrite seqZ_cons by lia. simpl map.
  replace (Z.pred (Z.of_nat (S (length rest)))) with (Z.of_nat (length rest)) by lia.
  replace (Z.succ d0) with (d0 + 1)%Z by lia.
  split.
  - intros [= -> E]. split; [reflexivity | exact E].
  - intros [-> E]. now rewrite E.
Qed.

Lemma consecutive_dates_ge d0 rows r :
  consecutive_from d0 rows -> r ∈ rows -> (d0 <= w_date r)%Z.
Proof.
  revert d0. induction rows as [|x rest IH]; intros d0 Hc Hin;
    [now apply elem_of_nil in Hin|].
  apply consecutive_cons in Hc as [Hx Hc].
  apply elem_of_cons in Hin as [->|Hin]; [lia|].
  specialize (IH _ Hc Hin). lia.
Qed.

Lemma consecutive_drop (k : nat) : forall d0 rows,
  consecutive_from d0 rows -> consecutive_from (d0 + Z.of_nat k) (drop k rows).
Proof.
  induction k as [|k IH]; intros d0 rows Hc.
  - rewrite drop_0. replace (d0 + Z.of_nat 0)%Z with d0 by lia. exact Hc.
  - destruct rows as [|r rest].
    + simpl. unfold consecutive_from. reflexivity.
    + apply consecutive_cons in Hc as [_ Hc]. simpl.
      replace (d0 + Z.of_nat (S k))%Z with (d0 + 1 + Z.of_nat k)%Z by lia.
      now apply IH.
Qed.

Lemma consecutive_sorted rows : forall d0,
  consecutive_from d0 rows ->
  StronglySorted (fun a b => (w_date a < w_date b)%Z) rows.
Proof.
  induction rows as [|r rest IH]; intros d0 Hc; [constructor|].
  pose proof Hc as Hc0. apply consecutive_cons in Hc as [Hr Hc].
  constructor; [now apply (IH (d0 + 1)%Z)|].
  rewrite Forall_forall. intros x Hx.
  pose proof (consecutive_dates_ge _ _ _ Hc Hx). lia.
Qed.

Lemma consecutive_lookup d0 rows (i : nat) r :
  consecutive_from d0 rows -> rows !! i = Some r -> w_date r = (d0 + Z.of_nat i)%Z.
Proof.
  intros Hc Hi.
  assert (H : map w_date rows !! i = Some (w_date r))
    by (change (map w_date rows) with (w_date <$> rows); now rewrite list_lookup_fmap, Hi).
  rewrite Hc in H. apply lookup_seqZ in H as [-> _]. reflexivity.
Qed.

(** *** The sort puts the table in date order *)

Lemma insert_by_date_elem r x l : x ∈ insert_by_date r l <-> x = r \/ x ∈ l.
Proof.
  induction l as [|y l IH]; simpl.
  - rewrite list_elem_of_singleton, elem_of_nil. tauto.
  - destruct (w_date y <? w_date r)%Z.
    + rewrite !elem_of_cons, IH. tauto.
    + rewrite !elem_of_cons. tauto.
Qed.

Lemma sort_index_elem x rows : x ∈ sort_index rows <-> x ∈ rows.
Proof.
  unfold sort_index. induction rows as [|r rows IH]; simpl; [reflexivity|].
  rewrite insert_by_date_elem, IH, elem_of_cons. tauto.
Qed.

Lemma insert_by_date_perm r l : insert_by_date r l ≡ₚ r :: l.
Proof.
  induction l as [|x l IH]; simpl; [reflexivity|].
  destruct (w_date x <? w_date r)%Z; [|reflexivity].
  rewrite IH. apply Permutation_swap.
Qed.

Lemma sort_index_perm rows : sort_index rows ≡ₚ rows.
Proof.
  unfold sort_index. induction rows as [|r rows IH]; simpl; [reflexivity|].
  rewrite insert_by_date_perm. now rewrite IH.
Qed.

Lemma insert_by_date_sorted r l :
  StronglySorted (fun a b => (w_date a <= w_date b)%Z) l ->
  StronglySorted (fun a b => (w_date a <= w_date b)%Z) (insert_by_date r l).
Proof.
  induction l as [|x l IH]; intros Hs; simpl.
  - repeat constructor.
  - pose proof Hs as Hs0. apply StronglySorted_inv in Hs as [Hs Hx].
    rewrite Forall_forall in Hx.
    destruct (Z.ltb_spec (w_date x) (w_date r)).
    + constructor; [now apply IH|].
      rewrite Forall_forall. intros y Hy.
      apply insert_by_date_elem in Hy as [->|Hy]; [lia | now apply Hx].
    + constructor; [exact Hs0|].
      rewrite Forall_forall. intros y Hy.
      apply elem_of_cons in Hy as [->|Hy]; [lia|].
      specialize (Hx y Hy). simpl in Hx. lia.
Qed.

Lemma sort_index_sorted rows :
  StronglySorted (fun a b => (w_date a <= w_date b)%Z) (sort_index rows).
Proof.
  unfold sort_index. induction rows as [|r rows IH]; simpl; [constructor|].
  now apply insert_by_date_sorted.
Qed.

(** A table has one ascending order when it has one row a date. *)
Lemma date_order_unique (l1 : list WeatherRow) : forall l2,
  StronglySorted (fun a b => (w_date a < w_date b)%Z) l1 ->
  StronglySorted (fun a b => (w_date a <= w_date b)%Z) l2 ->
  l1 ≡ₚ l2 -> l2 = l1.
Proof.
  induction l1 as [|a l1 IH]; intros l2 H1 H2 Hp.
  - symmetry in Hp. now apply Permutation_nil_r in Hp.
  - destruct l2 as [|b l2]; [apply Permutation_nil_r in Hp; discriminate|].
    apply StronglySorted_inv in H1 as [H1 Ha].
    apply StronglySorted_inv in H2 as [H2 Hb].
    rewrite Forall_forall in Ha. rewrite Forall_forall in Hb.
    assert (E : b = a).
    { assert (Hbin : b ∈ a :: l1) by (rewrite Hp; left).
      assert (Hain : a ∈ b :: l2) by (rewrite <- Hp; left).
      apply elem_of_cons in Hbin as [E|Hbin]; [exact E|].
      apply elem_of_cons in Hain as [E|Hain]; [now symmetry|].
      specialize (Ha _ Hbin). specialize (Hb _ Hain). simpl in Ha, Hb. lia. }
    subst b. f_equal. apply IH; try assumption.
    now apply Permutation_cons_inv in Hp.
Qed.

Lemma sort_index_in_date_order by_date rows :
  in_date_order by_date rows -> sort_index rows = by_date.
Proof.
  intros [Hp Hs]. apply date_order_unique; [exact Hs | apply sort_index_sorted |].
  rewrite Hp. symmetry. apply sort_index_perm.
Qed.

(** *** The entries of the lock dictionary *)

Lemma fill_lock_dict_other roll thr W zones frame rows : forall i acc d,
  (forall r, r ∈ rows -> w_date r <> d) ->
  fill_lock_dict roll thr W zones frame i rows acc !! d = acc !! d.
Proof.
  induction rows as [|r rest IH]; intros i acc d Hd; simpl; [reflexivity|].
  rewrite IH by (intros x Hx; apply Hd; now right).
  apply lookup_insert_ne. apply Hd. left.
Qed.

(** The entry of a date is computed at the row of that date. *)
Lemma fill_lock_dict_lookup roll thr W zones frame (k : nat) : forall rows i acc r,
  StronglySorted (fun a b => (w_date a < w_date b)%Z) rows ->
  rows !! k = Some r ->
  fill_lock_dict roll thr W zones frame i rows acc !! w_date r
  = Some (lock_row roll thr W zones frame (i + k)).
Proof.
  induction k as [|k IH]; intros rows i acc r Hs Hk;
    (destruct rows as [|x rest]; [discriminate|]);
    apply StronglySorted_inv in Hs as [Hs Hx]; cbn in Hk; cbn [fill_lock_dict].
  - injection Hk as ->. rewrite fill_lock_dict_other.
    + rewrite Nat.add_0_r. now rewrite lookup_insert_eq.
    + rewrite Forall_forall in Hx. intros y Hy. specialize (Hx y Hy).
      simpl in Hx. lia.
  - replace (i + S k)%nat with (S i + k)%nat by lia. now apply IH.
Qed.

Lemma lock_row_lookup roll thr W zones frame i z :
  z ∈ zones ->
  lock_row roll thr W zones frame i !! z = Some (is_locked roll thr W frame z i).
Proof.
  unfold lock_row. generalize (∅ : gmap string bool).
  induction zones as [|z0 zones IH]; intros m Hz; [now apply elem_of_nil in Hz|].
  simpl. destruct (decide (z ∈ zones)) as [Hin|Hnin]; [now apply IH|].
  apply elem_of_cons in Hz as [->|Hz]; [|contradiction].
  clear IH. revert m. induction zones as [|z1 zones IH]; intros m; simpl.
  - now rewrite lookup_insert_eq.
  - apply not_elem_of_cons in Hnin as [Hne Hnin].
    rewrite insert_insert_ne by congruence. now apply IH.
Qed.

(** The flag read for the date of row [i] of the table in date order. *)
Lemma rain_locked_at haversine_distance roll cfg stps farms weather demand
    by_date (i : nat) r z :
  in_date_order by_date (w_rows weather) ->
  by_date !! i = Some r ->
  z ∈ w_zones weather ->
  rain_locked (init haversine_distance roll cfg stps farms weather demand) (w_date r) z
  = is_locked roll (rain_lock_threshold_mm cfg) (forecast_window_days cfg) by_date z i.
Proof.
  intros Ho Hi Hz. unfold rain_locked, init, _compute_rain_lock_matrix. simpl.
  rewrite (sort_index_in_date_order _ _ Ho).
  rewrite (fill_lock_dict_lookup _ _ _ _ _ i by_date 0%nat ∅ r (proj2 Ho) Hi). simpl.
  now rewrite lock_row_lookup.
Qed.

(** *** The window by rows and the window by dates *)

(** With a reading in every row, the readings of a window are those of
    its rows. *)
Lemma window_readings_full W frame i z :
  (forall r, r ∈ frame -> is_Some (w_rain r !! z)) ->
  window_readings W frame i z = map (fun r => get0 (w_rain r) z) (take W (drop i frame)).
Proof.
  intros Hall. unfold window_readings.
  assert (Hsub : forall r, r ∈ take W (drop i frame) -> is_Some (w_rain r !! z)).
  { intros r Hr. apply Hall. apply (subseteq_drop i). now apply (subseteq_take W). }
  induction (take W (drop i frame)) as [|r rest IH]; [reflexivity|].
  destruct (Hsub r (list_elem_of_here _ _)) as [v Hv].
  cbn [omap list_omap map]. unfold get0 at 1. rewrite Hv. simpl. f_equal.
  apply IH. intros x Hx. apply Hsub. now right.
Qed.

Lemma rainfall_skip r rest d z :
  w_date r <> d -> rainfall (r :: rest) d z = rainfall rest d z.
Proof.
  intros Hne. unfold rainfall. simpl.
  destruct (Z.eqb_spec (w_date r) d); [contradiction | reflexivity].
Qed.

Lemma rainfall_drop (k : nat) : forall rows d0 d z,
  consecutive_from d0 rows -> (d0 + Z.of_nat k <= d)%Z ->
  rainfall rows d z = rainfall (drop k rows) d z.
Proof.
  induction k as [|k IH]; intros rows d0 d z Hc Hd; [now rewrite drop_0|].
  destruct rows as [|r rest]; [reflexivity|].
  apply consecutive_cons in Hc as [Hr Hc]. simpl.
  rewrite rainfall_skip by lia. apply (IH rest (d0 + 1)%Z); [exact Hc | lia].
Qed.

Lemma map_rainfall_skip r rest z (m : nat) : forall a,
  (w_date r < a)%Z ->
  map (fun d' => rainfall (r :: rest) d' z) (seqZ a (Z.of_nat m))
  = map (fun d' => rainfall rest d' z) (seqZ a (Z.of_nat m)).
Proof.
  induction m as [|m IH]; intros a Ha; [reflexivity|].
  rewrite seqZ_cons by lia. simpl.
  replace (Z.pred (Z.of_nat (S m))) with (Z.of_nat m) by lia.
  rewrite rainfall_skip by lia. f_equal. apply IH. lia.
Qed.

(** The window by dates is the window by rows. *)
Lemma window_by_dates z : forall rows d0 (W : nat),
  consecutive_from d0 rows ->
  map (fun d' => rainfall rows d' z) (seqZ d0 (Z.of_nat (Nat.min W (length rows))))
  = map (fun r => get0 (w_rain r) z) (take W rows).
Proof.
  induction rows as [|r rest IH]; intros d0 W Hc.
  - rewrite Nat.min_0_r. destruct W; reflexivity.
  - destruct W as [|W]; [reflexivity|].
    apply consecutive_cons in Hc as [Hr Hc].
    simpl length. rewrite <- Nat.succ_min_distr.
    rewrite seqZ_cons by lia. simpl.
    replace (Z.pred (Z.of_nat (S (Nat.min W (length rest)))))
      with (Z.of_nat (Nat.min W (length rest))) by lia.
    f_equal.
    + unfold rainfall. simpl. rewrite Hr, Z.eqb_refl. reflexivity.
    + replace (Z.succ d0) with (d0 + 1)%Z by lia.
      rewrite map_rainfall_skip by lia. now apply IH.
Qed.

Lemma sorted_find_none (rows : list WeatherRow) d :
  List.find (fun r => (w_date r =? d)%Z) rows = None ->
  forall r, r ∈ rows -> w_date r <> d.
Proof.
  intros E r Hr. apply list_elem_of_In in Hr.
  pose proof (find_none _ _ E r Hr) as H. simpl in H. lia.
Qed.

(** The reading of a date does not depend on the order of the rows when
    there is one row a date. *)
Lemma rainfall_in_date_order by_date rows d z :
  in_date_order by_date rows -> rainfall rows d z = rainfall by_date d z.
Proof.
  intros [Hp Hs].
  assert (Hone : forall a b, a ∈ by_date -> b ∈ by_date -> w_date a = w_date b -> a = b).
  { clear Hp. induction Hs as [|x l Hs IH Hx]; intros a b Ha Hb E;
      [now apply elem_of_nil in Ha|].
    rewrite Forall_forall in Hx.
    apply elem_of_cons in Ha as [->|Ha]; apply elem_of_cons in Hb as [->|Hb].
    - reflexivity.
    - specialize (Hx _ Hb). simpl in Hx. lia.
    - specialize (Hx _ Ha). simpl in Hx. lia.
    - now apply IH. }
  unfold rainfall.
  destruct (List.find (fun r => (w_date r =? d)%Z) rows) as [a|] eqn:Ea;
    destruct (List.find (fun r => (w_date r =? d)%Z) by_date) as [b|] eqn:Eb.
  - apply find_some in Ea as [Ha Da]. apply find_some in Eb as [Hb Db].
    apply list_elem_of_In in Ha, Hb. rewrite <- Hp in Ha.
    rewrite (Hone a b Ha Hb) by lia. reflexivity.
  - apply find_some in Ea as [Ha Da]. apply list_elem_of_In in Ha.
    rewrite <- Hp in Ha. pose proof (sorted_find_none _ _ Eb a Ha). lia.
  - apply find_some in Eb as [Hb Db]. apply list_elem_of_In in Hb.
    rewrite Hp in Hb. pose proof (sorted_find_none _ _ Ea b Hb). lia.
  - reflexivity.
Qed.

(** On a table with a row for every day, the readings of the row window
    are the readings of the days [d .. d+W-1] up to the last date. *)
Lemma window_sum_by_dates by_date rows d0 (i : nat) r (W : nat) z :
  in_date_order by_date rows ->
  consecutive_from d0 by_date ->
  (forall x, x ∈ by_date -> is_Some (w_rain x !! z)) ->
  by_date !! i = Some r ->
  Qsum (window_readings W by_date i z)
  == forward_window_sum rows (w_date r) W (d0 + Z.of_nat (length by_date) - 1) z.
Proof.
  intros Ho Hc Hall Hi.
  pose proof (lookup_lt_Some _ _ _ Hi) as Hlt.
  pose proof (consecutive_lookup _ _ _ _ Hc Hi) as Ed.
  rewrite (window_readings_full _ _ _ _ Hall).
  unfold forward_window_sum.
  replace (Z.min (Z.of_nat W) (d0 + Z.of_nat (length by_date) - 1 - w_date r + 1))
    with (Z.of_nat (Nat.min W (length (drop i by_date))))
    by (rewrite length_drop; lia).
  pose proof (consecutive_drop i d0 by_date Hc) as Hck.
  rewrite <- (window_by_dates z (drop i by_date) (d0 + Z.of_nat i)%Z W Hck).
  rewrite <- Ed.
  assert (Emap :
    map (fun d' => rainfall (drop i by_date) d' z)
      (seqZ (w_date r) (Z.of_nat (Nat.min W (length (drop i by_date)))))
    = map (fun d' => rainfall rows d' z)
        (seqZ (w_date r) (Z.of_nat (Nat.min W (length (drop i by_date)))))).
  { apply map_ext_in. intros a Ha.
    rewrite (rainfall_in_date_order by_date rows a z Ho). symmetry.
    apply (rainfall_drop i by_date d0); [exact Hc|].
    apply list_elem_of_In, elem_of_seqZ in Ha. lia. }
  rewrite Emap. reflexivity.
Qed.

End RainLock.



(** On the sample, zone Z2, at 7 mm a day, is locked on the first day
    (35 mm ahead) and open on the last (7 mm ahead: one day remains in
    the window). *)
Example rain_lock_first_day : DataManager.rain_locked Sample.dm Sample.day1 "Z2" = true.
Proof. vm_compute; reflexivity. Qed.

Example rain_lock_last_day :
  DataManager.rain_locked Sample.dm (Sample.day1 + 364)%Z "Z2" = false.
Proof. vm_compute; reflexivity. Qed.

(** ** The reconciler: per-farm aggregation *)

Section Aggregation.
Import Metrics.

Lemma tons_to_snoc f rows e :
  tons_to f (rows ++ [e])
  == tons_to f rows + (if String.eqb (ev_farm_id e) f then tons_delivered e else 0).
Proof.
  unfold tons_to. rewrite List.filter_app, map_app, Qsum_app.
  cbn [List.filter].
  destruct (String.eqb (ev_farm_id e) f); cbn [map]; rewrite ?Qsum_cons;
    change (Qsum []) with 0; lra.
Qed.

Lemma tons_to_absent f rows :
  (forall row, row ∈ rows -> ev_farm_id row <> f) -> tons_to f rows = 0.
Proof.
  intros Habs. unfold tons_to.
  replace (List.filter (fun e => String.eqb (ev_farm_id e) f) rows) with (@nil Event);
    [reflexivity|].
  symmetry. induction rows as [|r rows IH]; [reflexivity|].
  simpl. destruct (String.eqb_spec (ev_farm_id r) f) as [E|_].
  - exfalso. exact (Habs r (list_elem_of_here _ _) E).
  - apply IH. intros row Hrow. apply Habs. now right.
Qed.

Lemma add_total_keys k v l k' :
  k' ∈ map fst (add_total k v l) <-> k' = k \/ k' ∈ map fst l.
Proof.
  induction l as [|[k0 v0] l IH]; simpl.
  - rewrite list_elem_of_singleton, elem_of_nil. tauto.
  - destruct (String.eqb_spec k0 k) as [->|Hne]; simpl.
    + rewrite !elem_of_cons. tauto.
    + rewrite !elem_of_cons, IH. tauto.
Qed.

Lemma add_total_NoDup k v l : NoDup (map fst l) -> NoDup (map fst (add_total k v l)).
Proof.
  induction l as [|[k0 v0] l IH]; simpl; intros Hnd.
  - apply NoDup_singleton.
  - apply NoDup_cons in Hnd as [Hnin Hnd].
    destruct (String.eqb_spec k0 k) as [->|Hne]; simpl.
    + apply NoDup_cons. split; assumption.
    + apply NoDup_cons. split; [|now apply IH].
      rewrite add_total_keys. intros [E|Hin]; [congruence | contradiction].
Qed.

Lemma add_total_elem k v l f t :
  NoDup (map fst l) ->
  (f, t) ∈ add_total k v l ->
  (f <> k /\ (f, t) ∈ l)
  \/ (f = k /\ exists t0, (k, t0) ∈ l /\ t = t0 + v)
  \/ (f = k /\ (k ∉ map fst l) /\ t = v).
Proof.
  induction l as [|[k0 v0] l IH]; simpl; intros Hnd Hin.
  - apply list_elem_of_singleton in Hin as [= -> ->].
    right. right. split; [reflexivity|]. split; [apply not_elem_of_nil | reflexivity].
  - apply NoDup_cons in Hnd as [Hnin Hnd].
    destruct (String.eqb_spec k0 k) as [->|Hne].
    + apply elem_of_cons in Hin as [[= -> ->]|Hin].
      * right. left. split; [reflexivity|]. exists v0. split; [left | reflexivity].
      * left. split; [|now right].
        intros ->. apply Hnin. apply list_elem_of_In, in_map_iff.
        exists (k, t). split; [reflexivity | now apply list_elem_of_In].
    + apply elem_of_cons in Hin as [[= -> ->]|Hin].
      * left. split; [exact Hne | left].
      * destruct (IH Hnd Hin) as [[H1 H2]|[(H1 & t0 & H2 & H3)|(H1 & H2 & H3)]].
        -- left. split; [exact H1 | now right].
        -- right. left. split; [exact H1|]. exists t0. split; [now right | exact H3].
        -- right. right. split; [exact H1|]. split; [|exact H3].
           rewrite not_elem_of_cons. split; [congruence | exact H2].
Qed.

Lemma sums_of_step acc done row :
  sums_of acc done ->
  sums_of (add_total (ev_farm_id row) (tons_delivered row) acc) (done ++ [row]).
Proof.
  intros (Hnd & Hkeys & Hsum). split; [now apply add_total_NoDup|]. split.
  - intros r Hr. rewrite add_total_keys.
    apply elem_of_app in Hr as [Hr|Hr]; [right; now apply Hkeys|].
    apply list_elem_of_singleton in Hr as ->. now left.
  - intros f t Hin. rewrite tons_to_snoc.
    apply add_total_elem in Hin
      as [[H1 H2]|[(-> & t0 & H2 & ->)|(-> & H2 & ->)]]; [| | |exact Hnd].
    + destruct (Hsum f t H2) as (E & r & Hr & Hf).
      destruct (String.eqb_spec (ev_farm_id row) f) as [E'|_]; [congruence|].
      split; [rewrite E; lra|]. exists r. split; [apply elem_of_app; now left | exact Hf].
    + destruct (Hsum _ t0 H2) as (E & _). rewrite String.eqb_refl.
      split; [rewrite E; lra|].
      exists row. split; [apply elem_of_app; right; left | reflexivity].
    + rewrite String.eqb_refl. rewrite tons_to_absent.
      * split; [lra|].
        exists row. split; [apply elem_of_app; right; left | reflexivity].
      * intros r Hr E. apply H2. rewrite <- E. now apply Hkeys.
Qed.

Lemma group_sums_spec moves : sums_of (group_sums moves) moves.
Proof.
  unfold group_sums.
  assert (G : forall rest acc done, sums_of acc done ->
    sums_of (foldl (fun acc row => add_total (ev_farm_id row) (tons_delivered row) acc)
               acc rest) (done ++ rest)).
  { induction rest as [|row rest IH]; intros acc done H; simpl.
    - now rewrite app_nil_r.
    - replace (done ++ row :: rest) with ((done ++ [row]) ++ rest)
        by (rewrite <- app_assoc; reflexivity).
      apply IH. now apply sums_of_step. }
  apply (G moves [] []). split; [constructor|]. split.
  - intros row Hrow. now apply elem_of_nil in Hrow.
  - intros f t Hin. now apply elem_of_nil in Hin.
Qed.

Lemma insert_desc_perm {A} (ltb : A -> A -> bool) x l : insert_desc ltb x l ≡ₚ x :: l.
Proof.
  induction l as [|y l IH]; simpl; [reflexivity|].
  destruct (ltb x y); [|reflexivity].
  rewrite IH. apply Permutation_swap.
Qed.

Lemma sort_desc_perm {A} (ltb : A -> A -> bool) l : sort_desc ltb l ≡ₚ l.
Proof.
  induction l as [|x l IH]; simpl; [reflexivity|].
  rewrite insert_desc_perm. now rewrite IH.
Qed.

(** One entry per farm served, holding the tons of all its rows. *)
Lemma farm_totals_spec moves :
  NoDup (map fst (farm_totals moves))
  /\ (forall f, f ∈ map fst (farm_totals moves)
                <-> exists row, row ∈ moves /\ ev_farm_id row = f)
  /\ (forall f t, (f, t) ∈ farm_totals moves -> t == tons_to f moves).
Proof.
  destruct (group_sums_spec moves) as (Hnd & Hkeys & Hsum).
  pose proof (sort_desc_perm (fun x y : string * Q => String.ltb (fst y) (fst x))
                (group_sums moves)) as Hperm.
  fold (sort_by_key (group_sums moves)) in Hperm. fold (farm_totals moves) in Hperm.
  assert (Hkp : map fst (farm_totals moves) ≡ₚ map fst (group_sums moves))
    by (apply Permutation_map; exact Hperm).
  split; [|split].
  - rewrite Hkp. exact Hnd.
  - intros f. split.
    + intros Hin. apply list_elem_of_In, in_map_iff in Hin as ([k t] & <- & Hin).
      apply list_elem_of_In in Hin. rewrite Hperm in Hin.
      destruct (Hsum k t Hin) as (_ & row & Hrow & E). exists row. split; assumption.
    + intros (row & Hrow & <-). apply Hkeys in Hrow. rewrite Hkp. exact Hrow.
  - intros f t Hin. rewrite Hperm in Hin. now apply Hsum.
Qed.

Lemma credit_farms_totals cfg dd (l : list (string * Q)) : forall a,
  let a' := foldl (credit_farm cfg dd) a l in
  total_offset_gain a'
  == total_offset_gain a
     + Qsum (map (fun ft => farm_useful_n cfg dd (fst ft) (snd ft)
                            * synthetic_n_offset_credit_kg_co2_per_kg_n cfg) l)
  /\ total_leaching_penalty a'
     == total_leaching_penalty a
        + Qsum (map (fun ft => farm_excess_n cfg dd (fst ft) (snd ft)
                               * leaching_penalty_kg_co2_per_kg_excess_n cfg) l)
  /\ total_sequestration_gain a'
     == total_sequestration_gain a
        + Qsum (map (fun ft => snd ft * 1000
                               * soil_organic_carbon_gain_kg_co2_per_kg_biosolid cfg) l)
  /\ total_transport_emission a' = total_transport_emission a
  /\ total_overflow_penalty a' = total_overflow_penalty a
  /\ stp_storage a' = stp_storage a.
Proof.
  induction l as [|[f t] l IH]; intros a; cbv zeta; cbn [foldl map].
  - change (Qsum []) with 0. repeat split; try reflexivity; lra.
  - destruct (IH (credit_farm cfg dd a (f, t))) as (H1 & H2 & H3 & H4 & H5 & H6).
    rewrite H1, H2, H3, H4, H5, H6, !Qsum_cons. simpl.
    repeat split; try reflexivity; lra.
Qed.

Lemma process_moves_gains dm date moves : forall a a',
  process_moves dm date a moves = Some a' ->
  total_offset_gain a' = total_offset_gain a
  /\ total_leaching_penalty a' = total_leaching_penalty a
  /\ total_sequestration_gain a' = total_sequestration_gain a.
Proof.
  induction moves as [|row rest IH]; intros a a' H; simpl in H.
  - injection H as <-. repeat split.
  - destruct (process_move dm date a row) as [a1|] eqn:E; [|discriminate].
    apply IH in H as (H1 & H2 & H3). rewrite H1, H2, H3.
    unfold process_move in E.
    destruct (stp_storage a !! ev_stp_id row); [|discriminate].
    destruct (DataManager.get_demand_for_day dm date); [|discriminate].
    injection E as <-. repeat split.
Qed.

Lemma check_overflow_gains dm a :
  total_offset_gain (check_overflow dm a) = total_offset_gain a
  /\ total_leaching_penalty (check_overflow dm a) = total_leaching_penalty a
  /\ total_sequestration_gain (check_overflow dm a) = total_sequestration_gain a.
Proof.
  unfold check_overflow. revert a.
  induction (DataManager.stp_df dm) as [|stp rest IH]; intros a; simpl; [repeat split|].
  destruct (IH (check_overflow_row (DataManager.config dm) a stp)) as (H1 & H2 & H3).
  rewrite H1, H2, H3. unfold check_overflow_row.
  destruct (Qltb _ _); repeat split.
Qed.

(** The gains and the leaching of a day, one term per entry of the farm
    totals. *)
Lemma replay_day_credits (dm : DataManager.t) (solution : list Event)
    (a a' : Totals) (date : Z) (daily_demands : gmap string Q) :
  replay_day dm solution a date = Some a' ->
  DataManager.get_demand_for_day dm date = Some daily_demands ->
  let cfg := DataManager.config dm in
  let n_content := nitrogen_content_kg_per_ton_biosolid cfg in
  let moves := moves_of solution date in
  let totals := farm_totals moves in
  NoDup (map fst totals)
  /\ (forall f, f ∈ map fst totals <-> exists row, row ∈ moves /\ ev_farm_id row = f)
  /\ (forall f t, (f, t) ∈ totals -> t == tons_to f moves)
  /\ total_offset_gain a'
     == total_offset_gain a
        + Qsum (map (fun ft => Qmin (snd ft * n_content) (get0 daily_demands (fst ft))
                               * synthetic_n_offset_credit_kg_co2_per_kg_n cfg) totals)
  /\ total_leaching_penalty a'
     == total_leaching_penalty a
        + Qsum (map (fun ft =>
                       Qmax 0 (snd ft * n_content
                               - get0 daily_demands (fst ft) * (11 # 10))
                       * leaching_penalty_kg_co2_per_kg_excess_n cfg) totals)
  /\ total_sequestration_gain a'
     == total_sequestration_gain a
        + Qsum (map (fun ft => snd ft * 1000
                               * soil_organic_carbon_gain_kg_co2_per_kg_biosolid cfg)
                  totals).
Proof.
  intros Hday Hdd cfg n_content moves totals.
  destruct (farm_totals_spec moves) as (T1 & T2 & T3).
  split; [exact T1|]. split; [exact T2|]. split; [exact T3|].
  unfold replay_day in Hday. fold moves in Hday.
  destruct (check_overflow_gains dm (update_flow dm a)) as (U1 & U2 & U3).
  destruct moves as [|row rest] eqn:Emoves.
  - injection Hday as <-. subst totals. rewrite U1, U2, U3. simpl.
    unfold farm_totals, sort_by_key, group_sums. simpl. change (Qsum []) with 0.
    repeat split; lra.
  - destruct (process_moves dm date (update_flow dm a) (row :: rest)) as [a2|] eqn:E2;
      [|discriminate].
    destruct (aggregate dm date a2 (row :: rest)) as [a3|] eqn:E3; [|discriminate].
    injection Hday as <-.
    destruct (check_overflow_gains dm a3) as (V1 & V2 & V3). rewrite V1, V2, V3.
    apply process_moves_gains in E2 as (P1 & P2 & P3).
    unfold aggregate in E3. rewrite Hdd in E3. injection E3 as <-.
    destruct (credit_farms_totals cfg daily_demands totals a2)
      as (C1 & C2 & C3 & _).
    fold cfg. fold totals. rewrite C1, C2, C3, P1, P2, P3.
    simpl. repeat split; reflexivity.
Qed.

Lemma tons_to_moves_of solution date f :
  tons_to f (moves_of solution date) = delivered_on solution date f.
Proof.
  unfold tons_to, moves_of, delivered_on. f_equal. f_equal.
  induction solution as [|e rest IH]; [reflexivity|]. cbn [List.filter].
  destruct (ev_date e =? date)%Z; cbn [List.filter andb]; [|exact IH].
  destruct (String.eqb (ev_farm_id e) f); [f_equal|]; exact IH.
Qed.

Lemma moves_of_elem solution date row :
  row ∈ moves_of solution date <-> row ∈ solution /\ ev_date row = date.
Proof.
  unfold moves_of. rewrite !list_elem_of_In, filter_In.
  split; intros [H1 H2]; (split; [exact H1 | lia]).
Qed.

Lemma Qsum_Permutation (l1 l2 : list Q) : l1 ≡ₚ l2 -> Qsum l1 == Qsum l2.
Proof.
  induction 1 as [|x l1 l2 _ IH|x y l|l1 l2 l3 _ IH1 _ IH2].
  - reflexivity.
  - rewrite !Qsum_cons, IH. reflexivity.
  - rewrite !Qsum_cons. lra.
  - now rewrite IH1.
Qed.

Lemma Qmin_compat_l (x y z : Q) : x == y -> Qmin x z == Qmin y z.
Proof.
  intros E.
  pose proof (Q.min_spec x z) as H1.
  remember (Qmin x z) as m1 eqn:Hm1. clear Hm1.
  pose proof (Q.min_spec y z) as H2.
  remember (Qmin y z) as m2 eqn:Hm2. clear Hm2.
  lra.
Qed.

(** A sum over the farm totals is a sum over the farms served, each with
    its tons of the day. *)
Lemma Qsum_over_totals (g : string -> Q -> Q) (solution : list Event) (date : Z)
    (fs : list string) :
  (forall f x y, x == y -> g f x == g f y) ->
  farms_served solution date fs ->
  Qsum (map (fun ft => g (fst ft) (snd ft)) (farm_totals (moves_of solution date)))
  == Qsum (map (fun f => g f (delivered_on solution date f)) fs).
Proof.
  intros Hg [Hnd Hfs].
  destruct (farm_totals_spec (moves_of solution date)) as (T1 & T2 & T3).
  set (totals := farm_totals (moves_of solution date)) in *.
  assert (E1 : Qsum (map (fun ft => g (fst ft) (snd ft)) totals)
               == Qsum (map (fun f => g f (delivered_on solution date f))
                          (map fst totals))).
  { clear T1 T2. induction totals as [|[f t] l IH]; [reflexivity|].
    cbn [map fst snd]. rewrite !Qsum_cons.
    rewrite IH by (intros f' t' H; apply T3; now right).
    rewrite (Hg f t (delivered_on solution date f)); [reflexivity|].
    rewrite <- tons_to_moves_of. apply T3. left. }
  rewrite E1. apply Qsum_Permutation. apply Permutation_map.
  apply NoDup_Permutation; [exact T1 | exact Hnd |].
  intros f. rewrite T2, Hfs. split.
  - intros (row & Hrow & E). apply moves_of_elem in Hrow as [H1 H2]. eauto.
  - intros (row & H1 & H2 & E). exists row. split; [|exact E].
    apply moves_of_elem. split; assumption.
Qed.

End Aggregation.

(** ** The reconciler: distances *)

Section Distances.
Import Metrics.

Lemma round_trip_km_app dm l1 l2 :
  round_trip_km_of dm (l1 ++ l2) == round_trip_km_of dm l1 + round_trip_km_of dm l2.
Proof. unfold round_trip_km_of. now rewrite map_app, Qsum_app. Qed.

Lemma round_trip_km_double dm sol :
  round_trip_km_of dm sol == 2 * Qsum (map (row_dist dm) sol).
Proof.
  unfold round_trip_km_of. induction sol as [|row sol IH]; cbn [map].
  - change (Qsum []) with 0. lra.
  - rewrite !Qsum_cons, IH. lra.
Qed.

Lemma process_moves_transport dm date moves : forall a a',
  process_moves dm date a moves = Some a' ->
  total_transport_emission a'
  == total_transport_emission a + Qsum (map (row_transport_emission dm) moves).
Proof.
  induction moves as [|row rest IH]; intros a a' H; simpl in H.
  - injection H as <-. simpl. change (Qsum []) with 0. lra.
  - destruct (process_move dm date a row) as [a1|] eqn:E; [|discriminate].
    apply IH in H. rewrite H. simpl map. rewrite Qsum_cons.
    unfold process_move in E.
    destruct (stp_storage a !! ev_stp_id row); [|discriminate].
    destruct (DataManager.get_demand_for_day dm date); [|discriminate].
    injection E as <-. simpl. lra.
Qed.

Lemma check_overflow_transport dm a :
  total_transport_emission (check_overflow dm a) = total_transport_emission a.
Proof.
  unfold check_overflow. revert a.
  induction (DataManager.stp_df dm) as [|stp rest IH]; intros a; simpl; [reflexivity|].
  rewrite IH. unfold check_overflow_row. destruct (Qltb _ _); reflexivity.
Qed.

Lemma replay_day_transport dm sol a a' date :
  replay_day dm sol a date = Some a' ->
  total_transport_emission a'
  == total_transport_emission a
     + Qsum (map (row_transport_emission dm) (moves_of sol date)).
Proof.
  unfold replay_day. destruct (moves_of sol date) as [|row rest] eqn:Em.
  - intros [= <-]. rewrite check_overflow_transport. simpl.
    change (Qsum []) with 0. lra.
  - destruct (process_moves dm date (update_flow dm a) (row :: rest)) as [a2|] eqn:E2;
      [|discriminate].
    destruct (aggregate dm date a2 (row :: rest)) as [a3|] eqn:E3; [|discriminate].
    intros [= <-]. rewrite check_overflow_transport.
    apply process_moves_transport in E2. simpl in E2.
    unfold aggregate in E3.
    destruct (DataManager.get_demand_for_day dm date) as [dd|]; [|discriminate].
    injection E3 as <-.
    destruct (credit_farms_totals (DataManager.config dm) dd
                (farm_totals (row :: rest)) a2) as (_ & _ & _ & -> & _).
    exact E2.
Qed.

Lemma replay_transport dm sol dates : forall a a',
  replay dm sol a dates = Some a' ->
  total_transport_emission a'
  == total_transport_emission a + replayed_transport dm sol dates.
Proof.
  unfold replayed_transport.
  induction dates as [|date rest IH]; intros a a' H; simpl in H.
  - injection H as <-. simpl. change (Qsum []) with 0. lra.
  - destruct (replay_day dm sol a date) as [a1|] eqn:E; [|discriminate].
    apply IH in H. apply replay_day_transport in E.
    rewrite H, E. simpl map. rewrite Qsum_cons. lra.
Qed.

(** A row that is charged nothing does not change the replayed total. *)
Lemma replayed_transport_skip dm before row after dates :
  row_transport_emission dm row == 0 ->
  replayed_transport dm (before ++ row :: after) dates
  == replayed_transport dm (before ++ after) dates.
Proof.
  intros Hz. unfold replayed_transport.
  induction dates as [|date rest IH]; [reflexivity|].
  simpl map. rewrite !Qsum_cons, IH.
  unfold moves_of. rewrite !List.filter_app. simpl List.filter.
  destruct (ev_date row =? date)%Z.
  - rewrite !map_app, !Qsum_app. simpl map. rewrite Qsum_cons, Hz. lra.
  - reflexivity.
Qed.

(** C10.  A log row whose (plant, farm) pair has no entry in the
    distance index is replayed with distance 0: its transport emission
    is zero, and in any scoreboard the replay produces the transport
    emissions and the round-trip kilometres are those of the log without
    the row.  (The engine, for the same pair, scores no candidate.) *)
Theorem missing_distance_counts_as_zero (dm : DataManager.t)
    (before after : list Event) (row : Event) (m : Metrics.t) :
  DataManager.distance_matrix dm !! (ev_stp_id row, ev_farm_id row) = None ->
  calculate_metrics dm (before ++ row :: after) = Some m ->
  row_dist dm row = 0
  /\ row_transport_emission dm row == 0
  /\ transport_emissions m
     == replayed_transport dm (before ++ after) (year_dates (year (DataManager.config dm)))
  /\ total_round_trip_km m == round_trip_km_of dm (before ++ after)
  /\ (forall s load dd,
        GreedySolver.dm s = dm ->
        GreedySolver.score_candidate s (ev_stp_id row) load dd (ev_farm_id row) = None).
Proof.
  intros Hnone Hm.
  assert (Hd : row_dist dm row = 0) by (unfold row_dist, get0; now rewrite Hnone).
  assert (Ht : row_transport_emission dm row == 0)
    by (unfold row_transport_emission; rewrite Hd; lra).
  split; [exact Hd|]. split; [exact Ht|].
  unfold calculate_metrics in Hm.
  destruct (replay dm (before ++ row :: after) (start dm)
              (year_dates (year (DataManager.config dm)))) as [a|] eqn:E; [|discriminate].
  injection Hm as <-. simpl. split; [|split].
  - apply replay_transport in E. rewrite E. simpl.
    rewrite (replayed_transport_skip _ _ _ _ _ Ht). lra.
  - rewrite !round_trip_km_app.
    change (round_trip_km_of dm (row :: after))
      with (row_dist dm row * 2 + round_trip_km_of dm after).
    rewrite Hd. lra.
  - intros s load dd <-. unfold GreedySolver.score_candidate. now rewrite Hnone.
Qed.

Lemma candidate_distance (stp : GreedySolver.Status) (valid : list string)
    (st : GreedySolver.State) (cand : GreedySolver.Candidate) :
  cand ∈ GreedySolver.candidates_of stp valid st ->
  DataManager.distance_matrix (GreedySolver.dm (fst st))
    !! (GreedySolver.st_stp_id stp, GreedySolver.c_farm_id cand)
  = Some (GreedySolver.c_dist cand)
  /\ GreedySolver.c_score cand
     = GreedySolver.c_useful_n cand * GreedySolver.OFFSET_CREDIT (fst st)
       + GreedySolver.c_package_tons cand * 1000 * (2 # 10)
       - GreedySolver.c_dist cand * GreedySolver.TRANSPORT_COST (fst st)
       - Qmax 0 (GreedySolver.c_package_tons cand * GreedySolver.N_CONTENT (fst st)
                 - GreedySolver.c_demand cand * (11 # 10))
         * GreedySolver.LEACHING_PENALTY (fst st).
Proof.
  intros Hc. unfold GreedySolver.candidates_of in Hc. apply sort_desc_elem in Hc.
  apply list_elem_of_omap in Hc as (f & _ & Hf).
  unfold GreedySolver.score_candidate in Hf.
  destruct (DataManager.distance_matrix (GreedySolver.dm (fst st))
              !! (GreedySolver.st_stp_id stp, f)) as [d|] eqn:Ed; [|discriminate].
  injection Hf as <-. simpl. split; [exact Ed | reflexivity].
Qed.

Lemma round_trip_km_index dm sol :
  round_trip_km_of dm sol == Qsum (map (fun row => 2 * one_way_km dm row) sol).
Proof.
  unfold round_trip_km_of. induction sol as [|row sol IH]; cbn [map]; [reflexivity|].
  rewrite !Qsum_cons, IH. unfold row_dist, get0, one_way_km. lra.
Qed.

(** C7.  A candidate and a log over one data manager.  The engine charges
    the candidate, inside its score, the distance of the index for its
    (plant, farm) pair - the way out - times the diesel factor.  The
    reconciler's round-trip kilometres are the sum over the rows of the
    log of twice the index distance of the row's pair, so a row from that
    plant to that farm counts twice the distance the engine charged once;
    and its logistics efficiency is the tons of the log over those
    kilometres (0 when they are not positive). *)
Theorem transport_one_way_efficiency_round_trip
    (stp : GreedySolver.Status) (valid : list string) (st : GreedySolver.State)
    (cand : GreedySolver.Candidate) (sol : list Event) (m : Metrics.t) :
  let s := fst st in
  let data_manager := GreedySolver.dm s in
  cand ∈ GreedySolver.candidates_of stp valid st ->
  calculate_metrics data_manager sol = Some m ->
  DataManager.distance_matrix data_manager
    !! (GreedySolver.st_stp_id stp, GreedySolver.c_farm_id cand)
  = Some (GreedySolver.c_dist cand)
  /\ GreedySolver.c_score cand
     == GreedySolver.c_useful_n cand * GreedySolver.OFFSET_CREDIT s
        + GreedySolver.c_package_tons cand * 1000 * (2 # 10)
        - GreedySolver.c_dist cand * GreedySolver.TRANSPORT_COST s
        - Qmax 0 (GreedySolver.c_package_tons cand * GreedySolver.N_CONTENT s
                  - GreedySolver.c_demand cand * (11 # 10))
          * GreedySolver.LEACHING_PENALTY s
  /\ total_delivered_tons m == Qsum (map tons_delivered sol)
  /\ total_round_trip_km m == Qsum (map (fun row => 2 * one_way_km data_manager row) sol)
  /\ (forall row, row ∈ sol ->
        ev_stp_id row = GreedySolver.st_stp_id stp ->
        ev_farm_id row = GreedySolver.c_farm_id cand ->
        2 * one_way_km data_manager row == 2 * GreedySolver.c_dist cand)
  /\ (0 < total_round_trip_km m ->
      logistics_efficiency m == total_delivered_tons m / total_round_trip_km m)
  /\ (total_round_trip_km m <= 0 -> logistics_efficiency m == 0).
Proof.
  intros s data_manager Hc Hm.
  destruct (candidate_distance stp valid st cand Hc) as [Hd Hs].
  fold s in Hd, Hs. fold data_manager in Hd.
  split; [exact Hd|]. split; [rewrite Hs; reflexivity|].
  unfold calculate_metrics in Hm.
  destruct (replay data_manager sol (start data_manager)
              (year_dates (year (DataManager.config data_manager))))
    as [a|]; [|discriminate].
  injection Hm as <-. cbn [total_delivered_tons total_round_trip_km logistics_efficiency].
  split; [reflexivity|]. split; [apply round_trip_km_index|]. split; [|split].
  - intros row _ E1 E2. unfold one_way_km. rewrite E1, E2, Hd. reflexivity.
  - intros Hpos. apply Qltb_lt in Hpos. rewrite Hpos. reflexivity.
  - intros Hle. apply Qltb_ge in Hle. rewrite Hle. reflexivity.
Qed.
End Distances.

Lemma two_loads_farms : farms_served Sample.two_loads Sample.day1 ["F_1001"].
Proof.
  split; [apply NoDup_singleton|]. intros f. rewrite list_elem_of_singleton. split.
  - intros ->. eexists. split; [left|]. split; reflexivity.
  - intros (row & Hrow & _ & <-). unfold Sample.two_loads in Hrow.
    apply elem_of_cons in Hrow as [->|Hrow]; [reflexivity|].
    apply list_elem_of_singleton in Hrow as ->. reflexivity.
Defined.


(** The two loads of 3 tons carry 150 kg of nitrogen to a farm that asks
    for 100 kg: the replay credits 100 kg and charges 150 - 110 = 40 kg. *)
Example two_loads_replayed :
  (fun a => (Qred (Metrics.total_offset_gain a), Qred (Metrics.total_leaching_penalty a)))
    <$> Metrics.replay_day Sample.dm Sample.two_loads (Metrics.start Sample.dm) Sample.day1
  = Some (500, 400).
Proof. vm_compute; reflexivity. Qed.

Lemma missing_distance_counts_as_zero_witness :
  match Metrics.calculate_metrics Sample.dm (Sample.two_loads ++ Sample.stray_row :: []) with
  | Some m =>
      Metrics.row_dist Sample.dm Sample.stray_row = 0
      /\ Metrics.row_transport_emission Sample.dm Sample.stray_row == 0
      /\ Metrics.transport_emissions m
         == replayed_transport Sample.dm (Sample.two_loads ++ [])
              (year_dates (year (DataManager.config Sample.dm)))
      /\ Metrics.total_round_trip_km m
         == Metrics.round_trip_km_of Sample.dm (Sample.two_loads ++ [])
  | None => False
  end.
Proof.
  destruct (Metrics.calculate_metrics Sample.dm
              (Sample.two_loads ++ Sample.stray_row :: [])) as [m|] eqn:E.
  - assert (Hnone : DataManager.distance_matrix Sample.dm
                      !! (ev_stp_id Sample.stray_row, ev_farm_id Sample.stray_row) = None)
      by (vm_compute; reflexivity).
    destruct (missing_distance_counts_as_zero Sample.dm Sample.two_loads []
                Sample.stray_row m Hnone E) as (H1 & H2 & H3 & H4 & _).
    repeat split; assumption.
  - assert (H : match Metrics.calculate_metrics Sample.dm
                        (Sample.two_loads ++ Sample.stray_row :: []) with
                | Some _ => true
                | None => false
                end = true) by (vm_compute; reflexivity).
    rewrite E in H. discriminate.
Defined.

(** The first candidate of the first morning and a log of one truck to
    its farm: the engine charged 11.1 km, the reconciler counts 22.2. *)
Lemma transport_one_way_efficiency_round_trip_witness :
  match GreedySolver.candidates_of Sample.plant_status
          (GreedySolver.valid_farms Sample.solver Sample.day1) Sample.morning,
        Metrics.calculate_metrics Sample.dm Cases.one_truck with
  | cand :: _, Some m =>
      DataManager.distance_matrix Sample.dm !! ("STP_1", GreedySolver.c_farm_id cand)
      = Some (GreedySolver.c_dist cand)
      /\ Metrics.total_round_trip_km m
         == Qsum (map (fun row => 2 * one_way_km Sample.dm row) Cases.one_truck)
      /\ (0 < Metrics.total_round_trip_km m ->
          Metrics.logistics_efficiency m
          == Metrics.total_delivered_tons m / Metrics.total_round_trip_km m)
  | _, _ => False
  end.
Proof.
  destruct (GreedySolver.candidates_of Sample.plant_status
              (GreedySolver.valid_farms Sample.solver Sample.day1) Sample.morning)
    as [|cand rest] eqn:Ec.
  - assert (H : match GreedySolver.candidates_of Sample.plant_status
                        (GreedySolver.valid_farms Sample.solver Sample.day1)
                        Sample.morning with
                | _ :: _ => true
                | [] => false
                end = true) by (vm_compute; reflexivity).
    rewrite Ec in H. discriminate.
  - destruct (Metrics.calculate_metrics Sample.dm Cases.one_truck) as [m|] eqn:E.
    + assert (Hin : cand ∈ GreedySolver.candidates_of Sample.plant_status
                      (GreedySolver.valid_farms Sample.solver Sample.day1)
                      Sample.morning) by (rewrite Ec; left).
      destruct (transport_one_way_efficiency_round_trip Sample.plant_status
                  (GreedySolver.valid_farms Sample.solver Sample.day1) Sample.morning
                  cand Cases.one_truck m Hin E)
        as (H1 & _ & _ & H4 & _ & H6 & _).
      repeat split; assumption.
    + assert (H : match Metrics.calculate_metrics Sample.dm Cases.one_truck with
                  | Some _ => true
                  | None => false
                  end = true) by (vm_compute; reflexivity).
      rewrite E in H. discriminate.
Defined.

Example one_truck_distances :
  (fun c => Qred (GreedySolver.c_dist c))
    <$> head (GreedySolver.candidates_of Sample.plant_status
                (GreedySolver.valid_farms Sample.solver Sample.day1) Sample.morning)
  = Some (111 # 10)
  /\ (fun m => Qred (Metrics.total_round_trip_km m))
       <$> Metrics.calculate_metrics Sample.dm Cases.one_truck
     = Some (111 # 5).
Proof. vm_compute. split; reflexivity. Qed.

(** ** Overflow: the replay clamps, the engine does not *)

Section Overflow.
Import Metrics.

Lemma check_overflow_row_le cfg a r id :
  get0 (stp_storage (check_overflow_row cfg a r)) id <= get0 (stp_storage a) id.
Proof.
  unfold check_overflow_row.
  destruct (Qltb (storage_max_tons r) (get0 (stp_storage a) (stp_id r))) eqn:E;
    [|lra].
  apply Qltb_lt in E. simpl. rewrite get0_insert.
  destruct (String.eqb_spec (stp_id r) id) as [<-|_]; lra.
Qed.

Lemma check_overflow_row_cap cfg a r :
  get0 (stp_storage (check_overflow_row cfg a r)) (stp_id r) <= storage_max_tons r.
Proof.
  unfold check_overflow_row.
  destruct (Qltb (storage_max_tons r) (get0 (stp_storage a) (stp_id r))) eqn:E.
  - simpl. rewrite get0_insert, String.eqb_refl. lra.
  - now apply Qltb_ge in E.
Qed.

Lemma check_overflow_rows_le cfg rows : forall a id,
  get0 (stp_storage (foldl (check_overflow_row cfg) a rows)) id <= get0 (stp_storage a) id.
Proof.
  induction rows as [|r rows IH]; intros a id; simpl; [lra|].
  pose proof (IH (check_overflow_row cfg a r) id).
  pose proof (check_overflow_row_le cfg a r id). lra.
Qed.

(** After the overflow check every plant row holds at most its capacity. *)
Lemma check_overflow_clamps dm a stp :
  stp ∈ DataManager.stp_df dm ->
  get0 (stp_storage (check_overflow dm a)) (stp_id stp) <= storage_max_tons stp.
Proof.
  unfold check_overflow. revert a.
  induction (DataManager.stp_df dm) as [|r rows IH]; intros a Hin;
    [now apply elem_of_nil in Hin|].
  simpl. apply elem_of_cons in Hin as [->|Hin]; [|now apply IH].
  pose proof (check_overflow_rows_le (DataManager.config dm) rows
                (check_overflow_row (DataManager.config dm) a r) (stp_id r)).
  pose proof (check_overflow_row_cap (DataManager.config dm) a r). lra.
Qed.

(** A plant over capacity is charged its excess and set to capacity. *)
Lemma check_overflow_row_penalty cfg a r :
  storage_max_tons r < get0 (stp_storage a) (stp_id r) ->
  let a' := check_overflow_row cfg a r in
  get0 (stp_storage a') (stp_id r) = storage_max_tons r
  /\ total_overflow_penalty a'
     = total_overflow_penalty a
       + (get0 (stp_storage a) (stp_id r) - storage_max_tons r)
         * stp_overflow_penalty_kg_co2_per_ton cfg.
Proof.
  intros Hover. apply Qltb_lt in Hover. unfold check_overflow_row. rewrite Hover.
  simpl. rewrite get0_insert, String.eqb_refl. split; reflexivity.
Qed.

(** The replay of a day ends with every plant at or under capacity. *)
Lemma replay_day_clamped dm sol a a' date stp :
  replay_day dm sol a date = Some a' ->
  stp ∈ DataManager.stp_df dm ->
  get0 (stp_storage a') (stp_id stp) <= storage_max_tons stp.
Proof.
  unfold replay_day. intros H Hin.
  destruct (moves_of sol date) as [|row rest].
  - injection H as <-. now apply check_overflow_clamps.
  - destruct (process_moves dm date (update_flow dm a) (row :: rest)); [|discriminate].
    destruct (aggregate dm date _ (row :: rest)); [|discriminate].
    injection H as <-. now apply check_overflow_clamps.
Qed.

(** C1.  The engine's day has no overflow step.  In the sample instance
    (capacity 40, output 25 a day, one open farm, trucks of 10) the
    engine ends the third day holding 45 tons, above capacity, and has
    charged nothing; the replay of the engine's own log over the same
    three days ends at 40 tons with the 5 tons of excess charged at 1000
    each. *)
Theorem engine_inventory_exceeds_capacity :
  (fun s => Qred (GreedySolver.stored s "STP_1"))
    <$> GreedySolver.run Sample.solver Sample.three_days = Some 45
  /\ storage_max_tons Sample.plant = 40
  /\ match GreedySolver.run Sample.solver Sample.three_days with
     | Some s =>
         (fun a => (Qred (get0 (stp_storage a) "STP_1"), Qred (total_overflow_penalty a)))
           <$> replay Sample.dm (GreedySolver.solution s) (start Sample.dm)
                 Sample.three_days
     | None => None
     end = Some (40, 5000).
Proof.
  split; [vm_compute; reflexivity|]. split; [reflexivity|].
  vm_compute; reflexivity.
Qed.
End Overflow.

(** ** The score of a candidate *)

Section Score.
Import GreedySolver.

(** The score as computed: the sequestration term is 200 per ton, fixed. *)
Lemma score_candidate_score s stp_id load dd farm cand :
  score_candidate s stp_id load dd farm = Some cand ->
  c_score cand
  == c_useful_n cand * OFFSET_CREDIT s + c_package_tons cand * 200
     - c_dist cand * TRANSPORT_COST s
     - Qmax 0 (c_package_tons cand * N_CONTENT s - c_demand cand * (11 # 10))
       * LEACHING_PENALTY s.
Proof.
  unfold score_candidate.
  destruct (DataManager.distance_matrix (dm s) !! (stp_id, farm)); [|discriminate].
  intros [= <-]. simpl. lra.
Qed.

(** With the rate of the challenge in the configuration the two agree. *)
Lemma score_candidate_spec_default s stp_id load dd farm cand :
  SEQ_CREDIT s == 2 # 10 ->
  score_candidate s stp_id load dd farm = Some cand ->
  c_score cand == spec_score s cand.
Proof.
  intros Hrate Hc. rewrite (score_candidate_score _ _ _ _ _ _ Hc).
  unfold spec_score. rewrite Hrate. lra.
Qed.

(** C2.  The score does not read the sequestration rate of the
    configuration.  With a configured rate of 1/2 per kg the candidate of
    the sample (10 tons, 250 kg of useful nitrogen, 11.1 km) scores
    3240.01, the value for the rate 0.2; credit minus transport minus
    leaching with the configured rate is 6240.01 (1245.01 if the rate is
    applied per ton). *)
Theorem score_ignores_configured_sequestration_rate :
  match Sample.scored Sample.solver_half with
  | Some cand =>
      SEQ_CREDIT Sample.solver_half = 1 # 2
      /\ c_score cand == 324001 # 100
      /\ spec_score Sample.solver_half cand == 624001 # 100
      /\ spec_score_per_ton Sample.solver_half cand == 124501 # 100
      /\ ~ c_score cand == spec_score Sample.solver_half cand
      /\ ~ c_score cand == spec_score_per_ton Sample.solver_half cand
  | None => False
  end.
Proof.
  vm_compute. repeat split; congruence.
Qed.
End Score.

(** ** When the run returns *)

Section Totality.
Import GreedySolver.

Lemma get_demand_for_day_covered (data_manager : DataManager.t) (date : Z) :
  (exists row, row ∈ DataManager.demand_df data_manager /\ d_date row = date) ->
  is_Some (DataManager.get_demand_for_day data_manager date).
Proof.
  intros (row & Hin & Hd). unfold DataManager.get_demand_for_day.
  destruct (List.find (fun row => (d_date row =? date)%Z)
              (DataManager.demand_df data_manager)) as [r|] eqn:E; [simpl; eauto|].
  exfalso. apply list_elem_of_In in Hin.
  pose proof (find_none _ _ E row Hin) as Hf. simpl in Hf. lia.
Qed.

Lemma statuses_total s rows :
  (forall stp, stp ∈ rows -> ~ storage_max_tons stp == 0) ->
  is_Some (statuses s rows).
Proof.
  induction rows as [|r rows IH]; intros Hcap; simpl; [eauto|].
  destruct IH as [l ->]; [intros stp Hin; apply Hcap; now right|].
  unfold status_of.
  destruct (Qeq_bool (storage_max_tons r) 0) eqn:E; [|eauto].
  apply Qeq_bool_iff in E. exfalso. exact (Hcap r (list_elem_of_here _ _) E).
Qed.

Lemma process_day_total s date :
  (exists row, row ∈ DataManager.demand_df (dm s) /\ d_date row = date) ->
  (forall stp, stp ∈ DataManager.stp_df (dm s) -> ~ storage_max_tons stp == 0) ->
  is_Some (_process_day s date).
Proof.
  intros Hcov Hcap. unfold _process_day. simpl.
  destruct (get_demand_for_day_covered (dm s) date Hcov) as [dd ->].
  unfold stp_status_of.
  destruct (statuses_total (replenish s) (DataManager.stp_df (dm s)) Hcap) as [l Hl].
  simpl. rewrite Hl. simpl. eauto.
Qed.

(** With a demand row for each date and no plant of capacity zero the
    day loop runs to its end. *)
Lemma run_total (dates : list Z) : forall s,
  (forall date, date ∈ dates ->
     exists row, row ∈ DataManager.demand_df (dm s) /\ d_date row = date) ->
  (forall stp, stp ∈ DataManager.stp_df (dm s) -> ~ storage_max_tons stp == 0) ->
  is_Some (run s dates).
Proof.
  induction dates as [|date rest IH]; intros s Hcov Hcap; simpl; [eauto|].
  destruct (process_day_total s date) as [s' Hs']; [apply Hcov; left | exact Hcap |].
  rewrite Hs'. destruct (process_day_dm _ _ _ Hs') as [Hdm _].
  apply IH; rewrite Hdm; [|exact Hcap].
  intros d Hd. apply Hcov. now right.
Qed.

End Totality.

Lemma sample_demand_covers (date : Z) :
  date ∈ year_dates (year Sample.cfg) ->
  exists row, row ∈ Sample.demand /\ d_date row = date.
Proof.
  intros Hin. exists {| d_date := date; d_cols := Sample.demand_cols |}.
  split; [|reflexivity].
  apply list_elem_of_In. unfold Sample.demand.
  apply (in_map (fun d => {| d_date := d; d_cols := Sample.demand_cols |})).
  apply list_elem_of_In. exact Hin.
Defined.

Lemma sample_capacities (stp : StpRow) :
  stp ∈ Sample.stps -> ~ storage_max_tons stp == 0.
Proof.
  unfold Sample.stps. intros H. apply list_elem_of_singleton in H. subst stp.
  vm_compute. congruence.
Defined.

(** ** The keys of the storage dictionary

    [stored] reads a missing key as 0 where Python would raise; from
    [init] on the key of every registry row is there, so the reading is
    never of a missing key. *)

Section StorageKeys.
Import GreedySolver.

Lemma fold_insert_keeps {B} (g : gmap string Q -> B -> Q) (key : B -> string)
    (rows : list B) : forall (m : gmap string Q) id,
  is_Some (m !! id) ->
  is_Some (foldl (fun m row => <[key row := g m row]> m) m rows !! id).
Proof.
  induction rows as [|r rows IH]; intros m id Hm; simpl; [exact Hm|].
  apply IH. rewrite lookup_insert. case_decide; eauto.
Qed.

Lemma init_storage_keys (data_manager : DataManager.t) (stp : StpRow) :
  stp ∈ DataManager.stp_df data_manager ->
  is_Some (stp_storage (init data_manager) !! stp_id stp).
Proof.
  unfold init. simpl. generalize (∅ : gmap string Q).
  induction (DataManager.stp_df data_manager) as [|r rows IH]; intros m Hin;
    [now apply elem_of_nil in Hin|].
  simpl. apply elem_of_cons in Hin as [->|Hin]; [|now apply IH].
  apply (fold_insert_keeps (fun _ _ => 0) stp_id). rewrite lookup_insert_eq. eauto.
Qed.

Lemma replenish_storage_keys (s : GreedySolver.t) (id : string) :
  is_Some (stp_storage s !! id) -> is_Some (stp_storage (replenish s) !! id).
Proof.
  intros H. unfold replenish. simpl.
  apply (fold_insert_keeps (fun m stp => get0 m (stp_id stp) + daily_output_tons stp)
           stp_id). exact H.
Qed.

Lemma trace_storage_keys date steps id : forall st st',
  trace_of date st steps st' ->
  is_Some (stp_storage (fst st) !! id) -> is_Some (stp_storage (fst st') !! id).
Proof.
  induction steps as [|t steps IH]; intros st st' (Hl & Hf & He) Hk.
  - simpl in He. now subst.
  - destruct Hl as [Hpre Hl]. apply Forall_cons in Hf as [Hd Hf].
    apply (IH (t_post t) st'); [repeat split; auto|].
    apply is_dispatch_inv in Hd as (_ & _ & _ & _ & _ & _ & Hsto & _).
    simpl in Hsto. rewrite Hsto, lookup_insert, Hpre. case_decide; eauto.
Qed.

Lemma run_storage_keys (dates : list Z) (id : string) : forall s s',
  run s dates = Some s' ->
  is_Some (stp_storage s !! id) -> is_Some (stp_storage s' !! id).
Proof.
  induction dates as [|date rest IH]; intros s s' Hrun Hk; simpl in Hrun.
  - now injection Hrun as <-.
  - destruct (_process_day s date) as [s1|] eqn:Hday; [|discriminate].
    apply (IH s1 s' Hrun).
    destruct (process_day_steps_total s date s1 Hday) as [steps Hsteps].
    apply process_day_trace in Hsteps as (dd & st' & _ & Htr & Hday').
    rewrite Hday in Hday'. injection Hday' as ->.
    apply (trace_storage_keys _ _ _ _ _ Htr). simpl.
    now apply replenish_storage_keys.
Qed.
End StorageKeys.

(** ** The sample instance, run *)

(** First day: 25 tons in store, farm F_1001 rain-locked, one truck of 10
    tons to F_1000 - the candidate list is walked once, so one open farm
    means one truck a day. *)
Example sample_first_day :
  (fun s => map (fun e => (ev_date e, ev_stp_id e, ev_farm_id e, Qred (tons_delivered e)))
              (GreedySolver.solution s))
    <$> GreedySolver._process_day Sample.solver Sample.day1
  = Some [(739252%Z, "STP_1", "F_1000", 10)].
Proof. vm_compute; reflexivity. Qed.

(** The residual demand of F_1000 after that truck: 300 - 250 = 50 kg. *)
Example sample_first_day_residual :
  (fun steps => map (fun t => Qred (residual (GreedySolver.t_post t) "F_1000")) steps)
    <$> GreedySolver._process_day_steps Sample.solver Sample.day1
  = Some [50].
Proof. vm_compute; reflexivity. Qed.

(** The whole year: 369 events, and 5435 tons left in a store of 40. *)
Example sample_year :
  (fun s => (length (GreedySolver.solution s), Qred (GreedySolver.stored s "STP_1")))
    <$> GreedySolver.run Sample.solver (year_dates 2025)
  = Some (369%nat, 5435).
Proof. vm_compute; reflexivity. Qed.

(** * Further properties of the engine *)

(** ** What a plant's walk over its candidates can ship *)

Section Walk.
Import GreedySolver.

Lemma score_candidate_farm s id load dd f cand :
  score_candidate s id load dd f = Some cand -> c_farm_id cand = f.
Proof.
  unfold score_candidate.
  destruct (DataManager.distance_matrix (dm s) !! (id, f)); [|discriminate].
  now intros [= <-].
Qed.

Lemma scored_farms_sublist s id load dd valid :
  map c_farm_id (omap (score_candidate s id load dd) valid) `sublist_of` valid.
Proof.
  induction valid as [|f valid IH]; simpl; [constructor|].
  destruct (score_candidate s id load dd f) as [cand|] eqn:E; simpl.
  - rewrite (score_candidate_farm _ _ _ _ _ _ E). now constructor.
  - now constructor.
Qed.

Lemma candidates_farms_perm stp valid st :
  map c_farm_id (candidates_of stp valid st)
  ≡ₚ map c_farm_id
       (omap (score_candidate (fst st) (st_stp_id stp) (st_current stp) (snd st)) valid).
Proof. unfold candidates_of. apply Permutation_map, sort_desc_perm. Qed.

Lemma greedy_steps_farms date stp cands : forall st,
  map (fun t => ev_farm_id (t_event t)) (greedy_dispatch_steps date stp cands st)
  `sublist_of` map c_farm_id cands.
Proof.
  induction cands as [|cand rest IH]; intros st; simpl; [constructor|].
  destruct (loop_body date stp cand st) as [| |e st'] eqn:Hb.
  - apply sublist_nil_l.
  - constructor. apply IH.
  - simpl. destruct st as [s dd].
    apply loop_body_dispatched in Hb as (_ & _ & -> & _). simpl.
    constructor. apply IH.
Qed.

(** Every dispatch of a walk is the shipping turn for one of the
    candidates walked, made while the plant is over capacity or at a
    positive score. *)
Lemma greedy_steps_reason date stp cands : forall st,
  Forall (fun t =>
            ev_stp_id (t_event t) = st_stp_id stp
            /\ exists cand, cand ∈ cands
                 /\ c_farm_id cand = ev_farm_id (t_event t)
                 /\ (st_max stp < inventory (t_pre t) (st_stp_id stp)
                     \/ 0 < c_score cand))
    (greedy_dispatch_steps date stp cands st).
Proof.
  induction cands as [|cand rest IH]; intros st; simpl; [constructor|].
  destruct (loop_body date stp cand st) as [| |e st'] eqn:Hb.
  - constructor.
  - eapply Forall_impl; [apply IH|]. intros t (H1 & c & Hc & H2).
    split; [exact H1|]. exists c. split; [now right | exact H2].
  - constructor.
    + simpl. destruct st as [s dd].
      apply loop_body_dispatched in Hb as (_ & Hwhy & -> & _). simpl.
      split; [reflexivity|]. exists cand. split; [left|]. split; [reflexivity|].
      exact Hwhy.
    + eapply Forall_impl; [apply IH|]. intros t (H1 & c & Hc & H2).
      split; [exact H1|]. exists c. split; [now right | exact H2].
Qed.

(** X1: the profitability gate.  Whatever one call of [_dispatch_logic]
    ships, it ships for the plant it was called for, to the farm of one of
    the candidates it scored, and either while the plant holds more than
    its capacity or to a candidate whose score is positive. *)
Theorem dispatch_is_urgent_or_profitable (date : Z) (stp : Status)
    (valid : list string) (st : State) :
  Forall (fun t =>
            ev_stp_id (t_event t) = st_stp_id stp
            /\ exists cand, cand ∈ candidates_of stp valid st
                 /\ c_farm_id cand = ev_farm_id (t_event t)
                 /\ (st_max stp < inventory (t_pre t) (st_stp_id stp)
                     \/ 0 < c_score cand))
    (_dispatch_logic_steps date stp valid st).
Proof.
  unfold _dispatch_logic_steps.
  destruct (Qle_bool (st_current stp) 0); [constructor|].
  apply greedy_steps_reason.
Qed.

Lemma dispatch_logic_farms date stp valid st :
  exists mid,
    map (fun t => ev_farm_id (t_event t)) (_dispatch_logic_steps date stp valid st)
    `sublist_of` mid
    /\ exists mid', mid ≡ₚ mid' /\ mid' `sublist_of` valid.
Proof.
  unfold _dispatch_logic_steps.
  destruct (Qle_bool (st_current stp) 0).
  - exists []. split; [constructor|]. exists []. split; [reflexivity|].
    apply sublist_nil_l.
  - eexists. split; [apply greedy_steps_farms|].
    eexists. split; [apply candidates_farms_perm | apply scored_farms_sublist].
Qed.

(** X2: one truck per farm.  One call of [_dispatch_logic] sends at most
    one truck to each valid farm: the farms it ships to are valid farms,
    no more of them than there are valid farms, and pairwise different
    when the valid farms are. *)
Theorem one_truck_per_farm_per_plant (date : Z) (stp : Status)
    (valid : list string) (st : State) :
  let farms :=
    map (fun t => ev_farm_id (t_event t)) (_dispatch_logic_steps date stp valid st) in
  (length farms <= length valid)%nat
  /\ (forall f, f ∈ farms -> f ∈ valid)
  /\ (NoDup valid -> NoDup farms).
Proof.
  intros farms.
  destruct (dispatch_logic_farms date stp valid st) as (mid & H1 & mid' & H2 & H3).
  fold farms in H1. split; [|split].
  - apply sublist_length in H1. apply sublist_length in H3.
    apply Permutation_length in H2. lia.
  - intros f Hf. eapply elem_of_sublist; [|exact H3].
    rewrite <- H2. eapply elem_of_sublist; [exact Hf | exact H1].
  - intros Hnd. eapply sublist_NoDup; [|exact H1].
    rewrite H2. eapply sublist_NoDup; [exact Hnd | exact H3].
Qed.
End Walk.

(** ** A day's dispatches *)

Section Day.
Import GreedySolver.

Lemma valid_farms_spec s date f :
  f ∈ valid_farms s date
  <-> exists z, (f, z) ∈ farm_zone_map s /\ DataManager.rain_locked (dm s) date z = false.
Proof.
  unfold valid_farms. rewrite list_elem_of_In, in_map_iff. split.
  - intros ([k z] & E & Hin). simpl in E. subst k.
    apply filter_In in Hin as [Hin Hz]. simpl in Hz.
    exists z. split; [now apply list_elem_of_In | now apply negb_true_iff].
  - intros (z & Hin & Hz). exists (f, z). split; [reflexivity|].
    apply filter_In. split; [now apply list_elem_of_In|]. simpl. now rewrite Hz.
Qed.

Lemma valid_farms_sublist s date :
  valid_farms s date `sublist_of` map fst (farm_zone_map s).
Proof.
  unfold valid_farms. induction (farm_zone_map s) as [|[k z] l IH]; simpl; [constructor|].
  destruct (negb (DataManager.rain_locked (dm s) date z)); simpl; now constructor.
Qed.

Lemma dispatch_logic_steps_plant date stp valid st :
  Forall (fun t => ev_stp_id (t_event t) = st_stp_id stp)
    (_dispatch_logic_steps date stp valid st).
Proof.
  unfold _dispatch_logic_steps.
  destruct (Qle_bool (st_current stp) 0); [constructor|].
  apply greedy_dispatch_steps_plant.
Qed.

Lemma dispatch_logic_steps_valid date stp valid st :
  Forall (fun t => ev_farm_id (t_event t) ∈ valid)
    (_dispatch_logic_steps date stp valid st).
Proof.
  destruct (dispatch_logic_farms date stp valid st) as (mid & H1 & mid' & H2 & H3).
  apply Forall_forall. intros t Ht.
  eapply elem_of_sublist; [|exact H3]. rewrite <- H2.
  eapply elem_of_sublist; [|exact H1].
  apply list_elem_of_In, (in_map (fun t => ev_farm_id (t_event t))), list_elem_of_In.
  exact Ht.
Qed.

Lemma dispatch_all_steps_valid date valid status : forall st,
  Forall (fun t => ev_farm_id (t_event t) ∈ valid
                   /\ ev_stp_id (t_event t) ∈ map st_stp_id status)
    (dispatch_all_steps date status valid st).
Proof.
  induction status as [|stp rest IH]; intros st; simpl; [constructor|].
  apply Forall_app. split.
  - pose proof (dispatch_logic_steps_valid date stp valid st) as Hv.
    pose proof (dispatch_logic_steps_plant date stp valid st) as Hp.
    rewrite Forall_forall in *. intros t Ht.
    split; [now apply Hv|]. rewrite (Hp t Ht). left.
  - eapply Forall_impl; [apply IH|]. intros t [H1 H2]. split; [exact H1 | now right].
Qed.

Lemma dispatch_logic_steps_length date stp valid st :
  (length (_dispatch_logic_steps date stp valid st) <= length valid)%nat.
Proof.
  destruct (dispatch_logic_farms date stp valid st) as (mid & H1 & mid' & H2 & H3).
  apply sublist_length in H1. apply sublist_length in H3.
  apply Permutation_length in H2. rewrite length_map in H1. lia.
Qed.

Lemma dispatch_all_steps_length date valid status : forall st,
  (length (dispatch_all_steps date status valid st)
   <= length status * length valid)%nat.
Proof.
  induction status as [|stp rest IH]; intros st; simpl; [lia|].
  rewrite length_app.
  pose proof (dispatch_logic_steps_length date stp valid st).
  pose proof (IH (_dispatch_logic date stp valid st)). lia.
Qed.

Lemma NoDup_map_inv {A B} (f : A -> B) (l : list A) : NoDup (map f l) -> NoDup l.
Proof.
  induction l as [|x l IH]; simpl; intros H; [constructor|].
  apply NoDup_cons in H as [Hx H]. apply NoDup_cons. split; [|now apply IH].
  intros Hin. apply Hx. apply list_elem_of_In, in_map, list_elem_of_In. exact Hin.
Qed.

Lemma dispatch_logic_pairs_NoDup date stp valid st :
  NoDup valid ->
  NoDup (map (fun t => (ev_stp_id (t_event t), ev_farm_id (t_event t)))
           (_dispatch_logic_steps date stp valid st)).
Proof.
  intros Hnd.
  destruct (dispatch_logic_farms date stp valid st) as (mid & H1 & mid' & H2 & H3).
  apply (NoDup_map_inv snd). rewrite map_map. simpl.
  eapply sublist_NoDup; [|exact H1].
  rewrite H2. eapply sublist_NoDup; [exact Hnd | exact H3].
Qed.

Lemma dispatch_all_pairs_NoDup date valid status : forall st,
  NoDup (map st_stp_id status) -> NoDup valid ->
  NoDup (map (fun t => (ev_stp_id (t_event t), ev_farm_id (t_event t)))
           (dispatch_all_steps date status valid st)).
Proof.
  induction status as [|stp rest IH]; intros st Hids Hnd; simpl; [constructor|].
  apply NoDup_cons in Hids as [Hid Hids].
  rewrite map_app. apply NoDup_app. split; [|split].
  - now apply dispatch_logic_pairs_NoDup.
  - intros [id f] H1 H2.
    apply list_elem_of_In, in_map_iff in H1 as (t1 & E1 & Ht1).
    apply list_elem_of_In, in_map_iff in H2 as (t2 & E2 & Ht2).
    apply list_elem_of_In in Ht1, Ht2.
    pose proof (dispatch_logic_steps_plant date stp valid st) as Hp.
    rewrite Forall_forall in Hp. specialize (Hp t1 Ht1).
    pose proof (dispatch_all_steps_valid date valid rest
                  (_dispatch_logic date stp valid st)) as Hr.
    rewrite Forall_forall in Hr. destruct (Hr t2 Ht2) as [_ Hin].
    injection E1 as E1 _. injection E2 as E2 _.
    apply Hid. rewrite <- Hp, E1, <- E2. exact Hin.
  - now apply IH.
Qed.

Lemma statuses_ids s rows : forall l,
  statuses s rows = Some l -> map st_stp_id l = map stp_id rows.
Proof.
  induction rows as [|r rows IH]; intros l Hl; simpl in Hl.
  - now injection Hl as <-.
  - destruct (status_of s r) as [x|] eqn:Hx; [|discriminate].
    destruct (statuses s rows) as [l'|]; [|discriminate].
    injection Hl as <-. simpl. rewrite (IH l' eq_refl).
    apply status_of_Some in Hx as (-> & _). reflexivity.
Qed.

Lemma stp_status_of_ids s status :
  stp_status_of s = Some status ->
  map st_stp_id status ≡ₚ map stp_id (DataManager.stp_df (dm s)).
Proof.
  unfold stp_status_of.
  destruct (statuses s (DataManager.stp_df (dm s))) as [l|] eqn:Hl; [|discriminate].
  intros [= <-]. rewrite <- (statuses_ids _ _ _ Hl).
  apply Permutation_map, sort_desc_perm.
Qed.

Lemma process_day_steps_unfold s date steps :
  _process_day_steps s date = Some steps ->
  exists dd status,
    DataManager.get_demand_for_day (dm s) date = Some dd
    /\ stp_status_of (replenish s) = Some status
    /\ steps = dispatch_all_steps date status (valid_farms s date) (replenish s, dd).
Proof.
  unfold _process_day_steps. simpl.
  destruct (DataManager.get_demand_for_day (dm s) date) as [dd|]; [|discriminate].
  destruct (stp_status_of (replenish s)) as [status|]; [|discriminate].
  intros [= <-]. exists dd, status. repeat split.
Qed.

(** X3: rain lock is respected.  Every dispatch of a day goes to a farm of
    the farm-zone map whose zone is not rain-locked on that date. *)
Theorem no_delivery_to_locked_zone (s : GreedySolver.t) (date : Z)
    (steps : list Transition) :
  _process_day_steps s date = Some steps ->
  Forall (fun t => exists z,
            (ev_farm_id (t_event t), z) ∈ farm_zone_map s
            /\ DataManager.rain_locked (dm s) date z = false) steps.
Proof.
  intros H. apply process_day_steps_unfold in H as (dd & status & _ & _ & ->).
  eapply Forall_impl; [apply dispatch_all_steps_valid|].
  intros t [Hv _]. now apply valid_farms_spec.
Qed.

(** X4: at most one truck per plant and farm a day.  With plant ids and
    farm ids each listed once, no two dispatches of a day share both the
    plant and the farm; and in any case a day has at most
    (plant rows) x (valid farms) dispatches. *)
Theorem one_truck_per_plant_and_farm_per_day (s : GreedySolver.t) (date : Z)
    (steps : list Transition) :
  _process_day_steps s date = Some steps ->
  (length steps
   <= length (DataManager.stp_df (dm s)) * length (valid_farms s date))%nat
  /\ (NoDup (map stp_id (DataManager.stp_df (dm s))) ->
      NoDup (map fst (farm_zone_map s)) ->
      NoDup (map (fun t => (ev_stp_id (t_event t), ev_farm_id (t_event t))) steps)).
Proof.
  intros H. apply process_day_steps_unfold in H as (dd & status & _ & Hst & ->).
  pose proof (stp_status_of_ids _ _ Hst) as Hids. simpl in Hids.
  split.
  - pose proof (dispatch_all_steps_length date (valid_farms s date) status
                  (replenish s, dd)) as Hlen.
    apply Permutation_length in Hids. rewrite !length_map in Hids. lia.
  - intros Hp Hf. apply dispatch_all_pairs_NoDup.
    + rewrite Hids. exact Hp.
    + eapply sublist_NoDup; [exact Hf | apply valid_farms_sublist].
Qed.
End Day.

(** ** The order in which plants and candidates are taken *)

Section SortedOrder.
Context {A : Type} (ltb : A -> A -> bool).
Hypothesis ltb_asym : forall x y, ltb x y = true -> ltb y x = false.
Hypothesis ltb_negtrans :
  forall x y z, ltb x y = false -> ltb y z = false -> ltb x z = false.

Lemma insert_desc_sorted (x : A) (l : list A) :
  StronglySorted (fun a b => ltb a b = false) l ->
  StronglySorted (fun a b => ltb a b = false) (insert_desc ltb x l).
Proof.
  induction l as [|y l IH]; intros Hs; simpl.
  - repeat constructor.
  - apply StronglySorted_inv in Hs as [Hs Hy].
    destruct (ltb x y) eqn:E.
    + constructor; [now apply IH|].
      apply Forall_forall. intros b Hb.
      apply insert_desc_elem in Hb as [->|Hb]; [now apply ltb_asym|].
      rewrite Forall_forall in Hy. now apply Hy.
    + constructor; [constructor; assumption|].
      constructor; [exact E|].
      rewrite Forall_forall in *. intros b Hb.
      apply (ltb_negtrans x y b E). now apply Hy.
Qed.

Lemma sort_desc_sorted (l : list A) :
  StronglySorted (fun a b => ltb a b = false) (sort_desc ltb l).
Proof.
  induction l as [|x l IH]; simpl; [constructor|]. now apply insert_desc_sorted.
Qed.
End SortedOrder.

Section Order.
Import GreedySolver.

Lemma StronglySorted_weaken {A} (R S : A -> A -> Prop) (l : list A) :
  (forall a b, R a b -> S a b) -> StronglySorted R l -> StronglySorted S l.
Proof.
  intros HRS. induction 1 as [|x l Hs IH Hx]; constructor; [exact IH|].
  eapply Forall_impl; [exact Hx|]. intros b. apply HRS.
Qed.

Lemma StronglySorted_suffix {A} (R : A -> A -> Prop) (l1 l2 : list A) :
  StronglySorted R (l1 ++ l2) -> StronglySorted R l2.
Proof.
  induction l1 as [|x l1 IH]; simpl; intros H; [exact H|].
  apply StronglySorted_inv in H as [H _]. now apply IH.
Qed.

Lemma sorted_by_score (l : list Candidate) :
  StronglySorted (fun a b => c_score b <= c_score a) (sort_desc score_ltb l).
Proof.
  eapply StronglySorted_weaken; [|apply sort_desc_sorted].
  - intros a b H. unfold score_ltb in H. now apply Qltb_ge in H.
  - intros x y H. unfold score_ltb in *. apply Qltb_lt in H. apply Qltb_ge. lra.
  - intros x y z H1 H2. unfold score_ltb in *.
    apply Qltb_ge in H1, H2. apply Qltb_ge. lra.
Qed.

(** X5: best score first.  The candidates of a plant are walked in
    descending order of score: no candidate has a higher score than one
    before it, and each is the scoring of a valid farm the index has a
    distance for. *)
Theorem candidates_in_descending_score (stp : Status) (valid : list string) (st : State) :
  StronglySorted (fun a b => c_score b <= c_score a) (candidates_of stp valid st)
  /\ Forall (fun cand =>
       c_farm_id cand ∈ valid
       /\ score_candidate (fst st) (st_stp_id stp) (st_current stp) (snd st)
            (c_farm_id cand) = Some cand)
       (candidates_of stp valid st).
Proof.
  split; [apply sorted_by_score|].
  apply Forall_forall. intros cand Hc. unfold candidates_of in Hc.
  apply sort_desc_elem, list_elem_of_omap in Hc as (f & Hf & Hs).
  rewrite (score_candidate_farm _ _ _ _ _ _ Hs). split; assumption.
Qed.

Lemma urgency_ltb_false (x y : Status) :
  urgency_ltb x y = false -> st_excess y <= st_excess x.
Proof.
  unfold urgency_ltb. destruct (Qeq_bool (st_excess x) (st_excess y)) eqn:E.
  - apply Qeq_bool_iff in E. intros _. lra.
  - intros H. now apply Qltb_ge in H.
Qed.

Lemma urgency_ltb_true (x y : Status) :
  urgency_ltb x y = true ->
  st_excess x < st_excess y
  \/ (st_excess x == st_excess y /\ st_fill_ratio x < st_fill_ratio y).
Proof.
  unfold urgency_ltb. destruct (Qeq_bool (st_excess x) (st_excess y)) eqn:E.
  - apply Qeq_bool_iff in E. intros H. apply Qltb_lt in H. right. split; assumption.
  - intros H. apply Qltb_lt in H. now left.
Qed.

Lemma urgency_ltb_false_iff (x y : Status) :
  urgency_ltb x y = false <->
  st_excess y < st_excess x
  \/ (st_excess x == st_excess y /\ st_fill_ratio y <= st_fill_ratio x).
Proof.
  unfold urgency_ltb. destruct (Qeq_bool (st_excess x) (st_excess y)) eqn:E.
  - apply Qeq_bool_iff in E. rewrite Qltb_ge. split; [intros H; right; now split|].
    intros [H|[_ H]]; [lra | exact H].
  - apply Qeq_bool_neq in E. rewrite Qltb_ge. split.
    + intros H. left. destruct (Qlt_le_dec (st_excess y) (st_excess x)) as [Hl|Hl];
        [exact Hl|]. exfalso. apply E. lra.
    + intros [H|[H _]]; [lra | contradiction].
Qed.


Lemma loop_body_continue date stp cand s dd :
  loop_body date stp cand (s, dd) = Continue <->
  0 < stored s (st_stp_id stp)
  /\ stored s (st_stp_id stp) <= st_max stp
  /\ c_score cand <= 0.
Proof.
  unfold loop_body.
  destruct (Qle_bool (stored s (st_stp_id stp)) 0) eqn:Hpos.
  - apply Qle_bool_iff in Hpos. split; [discriminate | intros (H & _); lra].
  - apply Qle_bool_gt in Hpos.
    destruct (Qltb (st_max stp) (stored s (st_stp_id stp))) eqn:Hu;
      destruct (Qltb 0 (c_score cand)) eqn:Hp; simpl;
      rewrite ?Qltb_lt, ?Qltb_ge in *;
      (split; [try discriminate; intros _; repeat split; assumption
              | try reflexivity; intros (_ & H1 & H2); lra]).
Qed.

Lemma all_continue date stp rest st bound :
  loop_body date stp bound st = Continue ->
  Forall (fun c => c_score c <= c_score bound) rest ->
  greedy_dispatch_steps date stp rest st = []
  /\ greedy_dispatch date stp rest st = st.
Proof.
  destruct st as [s dd]. intros Hb Hall.
  apply loop_body_continue in Hb as (Hpos & Hcap & Hscore).
  induction rest as [|c rest IH]; [split; reflexivity|].
  apply Forall_cons in Hall as [Hc Hall].
  assert (Hcc : loop_body date stp c (s, dd) = Continue)
    by (apply loop_body_continue; repeat split; [assumption| assumption | lra]).
  cbn [greedy_dispatch_steps greedy_dispatch]. rewrite Hcc. now apply IH.
Qed.

End Order.

(** ** Two runs, one log *)

Section StableSort.
Context {A : Type} (ltb : A -> A -> bool).
Hypothesis ltb_irrefl : forall x, ltb x x = false.

Lemma same_key_refl x : same_key ltb x x = true.
Proof. unfold same_key. now rewrite ltb_irrefl. Qed.

(** Two lists in descending order that agree on the order within each
    key are one list. *)
Lemma stable_order_unique (l1 : list A) : forall l2,
  StronglySorted (fun a b => ltb a b = false) l1 ->
  StronglySorted (fun a b => ltb a b = false) l2 ->
  (forall p, List.filter (same_key ltb p) l1 = List.filter (same_key ltb p) l2) ->
  l1 = l2.
Proof.
  induction l1 as [|a l1 IH]; intros l2 H1 H2 Hf.
  - destruct l2 as [|b l2]; [reflexivity|].
    specialize (Hf b). cbn [List.filter] in Hf. rewrite same_key_refl in Hf.
    discriminate.
  - destruct l2 as [|b l2].
    + specialize (Hf a). cbn [List.filter] in Hf. rewrite same_key_refl in Hf.
      discriminate.
    + apply StronglySorted_inv in H1 as [H1 Ha].
      apply StronglySorted_inv in H2 as [H2 Hb].
      rewrite Forall_forall in Ha. rewrite Forall_forall in Hb.
      assert (Hb1 : b ∈ a :: l1).
      { assert (H : In b (List.filter (same_key ltb b) (a :: l1))).
        { rewrite (Hf b). cbn [List.filter]. rewrite same_key_refl. now left. }
        apply filter_In in H as [H _]. now apply list_elem_of_In. }
      assert (Ha2 : a ∈ b :: l2).
      { assert (H : In a (List.filter (same_key ltb a) (b :: l2))).
        { rewrite <- (Hf a). cbn [List.filter]. rewrite same_key_refl. now left. }
        apply filter_In in H as [H _]. now apply list_elem_of_In. }
      assert (Hab : ltb a b = false).
      { apply elem_of_cons in Hb1 as [->|Hb1]; [apply ltb_irrefl | now apply Ha]. }
      assert (Hba : ltb b a = false).
      { apply elem_of_cons in Ha2 as [->|Ha2]; [apply ltb_irrefl | now apply Hb]. }
      assert (E : a = b).
      { pose proof (Hf a) as E. cbn [List.filter] in E. rewrite same_key_refl in E.
        assert (S : same_key ltb a b = true) by (unfold same_key; now rewrite Hab, Hba).
        rewrite S in E. now injection E. }
      subst b. f_equal. apply IH; [assumption | assumption |].
      intros p. specialize (Hf p). cbn [List.filter] in Hf.
      destruct (same_key ltb p a); [now injection Hf | exact Hf].
Qed.

Hypothesis ltb_asym : forall x y, ltb x y = true -> ltb y x = false.
Hypothesis ltb_negtrans :
  forall x y z, ltb x y = false -> ltb y z = false -> ltb x z = false.
Hypothesis ltb_class :
  forall p x y, same_key ltb p x = true -> same_key ltb p y = true -> ltb x y = false.

Lemma insert_desc_filter p x l :
  List.filter (same_key ltb p) (insert_desc ltb x l)
  = List.filter (same_key ltb p) (x :: l).
Proof.
  induction l as [|y l IH]; [reflexivity|].
  cbn [insert_desc]. destruct (ltb x y) eqn:E; [|reflexivity].
  cbn [List.filter] in *. rewrite IH.
  destruct (same_key ltb p x) eqn:Sx, (same_key ltb p y) eqn:Sy; try reflexivity.
  rewrite (ltb_class p x y Sx Sy) in E. discriminate.
Qed.

(** The insertion sort of the embedding meets the contract. *)
Lemma sort_desc_stable l : stable_sort_desc ltb l (sort_desc ltb l).
Proof.
  split; [now apply sort_desc_sorted|].
  intros p. induction l as [|x l IH]; [reflexivity|].
  change (sort_desc ltb (x :: l)) with (insert_desc ltb x (sort_desc ltb l)).
  rewrite insert_desc_filter. cbn [List.filter]. now rewrite IH.
Qed.

(** So whatever meets the contract is that list. *)
Lemma stable_sort_desc_unique l sorted :
  stable_sort_desc ltb l sorted -> sorted = sort_desc ltb l.
Proof.
  intros [Hs Hf]. destruct (sort_desc_stable l) as [Hs' Hf'].
  apply stable_order_unique; [exact Hs | exact Hs' |].
  intros p. now rewrite Hf, Hf'.
Qed.
End StableSort.

Section Determinism.
Import GreedySolver.

Lemma score_ltb_false x y : score_ltb x y = false <-> c_score y <= c_score x.
Proof. unfold score_ltb. apply Qltb_ge. Qed.

Lemma same_key_score p x : same_key score_ltb p x = true -> c_score p == c_score x.
Proof.
  unfold same_key. rewrite andb_true_iff, !negb_true_iff, !score_ltb_false. lra.
Qed.

Lemma candidates_unique (l sorted : list Candidate) :
  stable_sort_desc score_ltb l sorted -> sorted = sort_desc score_ltb l.
Proof.
  apply stable_sort_desc_unique.
  - intros x. apply score_ltb_false. lra.
  - intros x y H. unfold score_ltb in H. apply Qltb_lt in H. apply score_ltb_false. lra.
  - intros x y z. rewrite !score_ltb_false. lra.
  - intros p x y Hx Hy. apply same_key_score in Hx, Hy. apply score_ltb_false. lra.
Qed.

Lemma same_key_urgency p x :
  same_key urgency_ltb p x = true ->
  st_excess p == st_excess x /\ st_fill_ratio p == st_fill_ratio x.
Proof.
  unfold same_key. rewrite andb_true_iff, !negb_true_iff, !urgency_ltb_false_iff.
  intros [[H1|[H1 H1']] [H2|[H2 H2']]]; split; lra.
Qed.

Lemma statuses_unique (l sorted : list Status) :
  stable_sort_desc urgency_ltb l sorted -> sorted = sort_desc urgency_ltb l.
Proof.
  apply stable_sort_desc_unique.
  - intros x. apply urgency_ltb_false_iff. right. split; [reflexivity | lra].
  - intros x y H. apply urgency_ltb_true in H. apply urgency_ltb_false_iff.
    destruct H as [H|[H1 H2]]; [now left|]. right. split; lra.
  - intros x y z H1 H2. apply urgency_ltb_false_iff in H1, H2.
    apply urgency_ltb_false_iff.
    destruct H1 as [H1|[H1 H1']], H2 as [H2|[H2 H2']];
      [left; lra | left; lra | left; lra | right; split; lra].
  - intros p x y Hx Hy. apply same_key_urgency in Hx as [X1 X2], Hy as [Y1 Y2].
    apply urgency_ltb_false_iff. right. split; lra.
Qed.

Lemma dispatch_logic_run_iff date stp valid st st' :
  dispatch_logic_run date stp valid st st' <-> st' = _dispatch_logic date stp valid st.
Proof.
  unfold dispatch_logic_run, _dispatch_logic.
  destruct (Qle_bool (st_current stp) 0); [reflexivity|]. split.
  - intros (candidates & Hc & ->). apply candidates_unique in Hc. now rewrite Hc.
  - intros ->. exists (candidates_of stp valid st). split; [|reflexivity].
    apply sort_desc_stable.
    + intros x y H. unfold score_ltb in H. apply Qltb_lt in H. apply score_ltb_false. lra.
    + intros x y z. rewrite !score_ltb_false. lra.
    + intros p x y Hx Hy. apply same_key_score in Hx, Hy. apply score_ltb_false. lra.
Qed.

Lemma dispatch_all_run_iff date valid stp_status : forall st st',
  dispatch_all_run date stp_status valid st st'
  <-> st' = dispatch_all date stp_status valid st.
Proof.
  induction stp_status as [|stp rest IH]; intros st st'; cbn [dispatch_all_run dispatch_all];
    [reflexivity|].
  split.
  - intros (st1 & H1 & H2). apply dispatch_logic_run_iff in H1 as ->. now apply IH.
  - intros ->. exists (_dispatch_logic date stp valid st).
    split; [now apply dispatch_logic_run_iff | now apply IH].
Qed.

Lemma process_day_run_iff s date s' :
  process_day_run s date s' <-> _process_day s date = Some s'.
Proof.
  unfold process_day_run, _process_day, stp_status_of. cbv zeta. split.
  - intros (dd & status & sorted & st' & -> & -> & Hs & Hd & ->).
    apply statuses_unique in Hs as ->. apply dispatch_all_run_iff in Hd as ->.
    reflexivity.
  - destruct (DataManager.get_demand_for_day (dm (replenish s)) date) as [dd|];
      [|discriminate].
    destruct (statuses (replenish s) (DataManager.stp_df (dm (replenish s))))
      as [status|]; [|discriminate].
    cbn [fmap option_fmap option_map]. intros [= <-].
    exists dd, status, (sort_desc urgency_ltb status). eexists.
    split; [reflexivity|]. split; [reflexivity|]. split; [|split].
    + apply sort_desc_stable.
      * intros x y H. apply urgency_ltb_true in H. apply urgency_ltb_false_iff.
        destruct H as [H|[H1 H2]]; [now left|]. right. split; lra.
      * intros x y z H1 H2. apply urgency_ltb_false_iff in H1, H2.
        apply urgency_ltb_false_iff.
        destruct H1 as [H1|[H1 H1']], H2 as [H2|[H2 H2']];
          [left; lra | left; lra | left; lra | right; split; lra].
      * intros p x y Hx Hy. apply same_key_urgency in Hx as [X1 X2], Hy as [Y1 Y2].
        apply urgency_ltb_false_iff. right. split; lra.
    + apply dispatch_all_run_iff. reflexivity.
    + reflexivity.
Qed.

Lemma day_loop_run_iff dates : forall s s',
  day_loop_run s dates s' <-> run s dates = Some s'.
Proof.
  induction dates as [|date rest IH]; intros s s'; cbn [day_loop_run run].
  - split; [intros -> | intros [= ->]]; reflexivity.
  - split.
    + intros (s1 & H1 & H2). apply process_day_run_iff in H1. rewrite H1. now apply IH.
    + destruct (_process_day s date) as [s1|] eqn:E; [|discriminate].
      intros H. exists s1. split; [now apply process_day_run_iff | now apply IH].
Qed.

(** The runs of [solve] are the one the embedding computes. *)
Lemma solve_run_iff s log : solve_run s log <-> solve s = Some log.
Proof.
  unfold solve_run, solve. split.
  - intros (s' & H & ->). apply day_loop_run_iff in H. now rewrite H.
  - destruct (run s (year_dates (year (DataManager.config (dm s))))) as [s'|] eqn:E;
      [|discriminate].
    cbn [fmap option_fmap option_map]. intros [= <-].
    exists s'. split; [now apply day_loop_run_iff | reflexivity].
Qed.

End Determinism.


(** What the contract's second clause decides: two farms with the same
    score are served in the order of the farm registry; the same
    candidates in descending order of score but the other way round
    would make another log. *)
Example equal_scores_keep_registry_order :
  let valid := GreedySolver.valid_farms Cases.twin_solver Sample.day1 in
  let scored :=
    omap (GreedySolver.score_candidate (fst Cases.twin_morning) "STP_1" 25
            (snd Cases.twin_morning)) valid in
  map ev_farm_id
    (map GreedySolver.t_event
       (GreedySolver._dispatch_logic_steps Sample.day1 Sample.plant_status valid
          Cases.twin_morning))
  = ["F_A"; "F_B"]
  /\ StronglySorted (fun a b => GreedySolver.score_ltb a b = false) (reverse scored)
  /\ map ev_farm_id
       (map GreedySolver.t_event
          (GreedySolver.greedy_dispatch_steps Sample.day1 Sample.plant_status
             (reverse scored) Cases.twin_morning))
     = ["F_B"; "F_A"].
Proof.
  cbv zeta. split; [vm_compute; reflexivity|]. split; [|vm_compute; reflexivity].
  vm_compute. repeat constructor.
Qed.

(** ** The ledger and the log over a run *)

Section Ledger.
Import GreedySolver.

Lemma fold_output_adds (id : string) (rows : list StpRow) : forall m,
  get0 (foldl (fun m stp => <[stp_id stp := get0 m (stp_id stp) + daily_output_tons stp]> m)
          m rows) id
  == get0 m id + daily_output_of id rows.
Proof.
  unfold daily_output_of.
  induction rows as [|r rows IH]; intros m.
  - simpl. change (Qsum []) with 0. lra.
  - cbn [foldl List.filter]. rewrite IH, get0_insert.
    destruct (String.eqb_spec (stp_id r) id) as [->|_]; cbn [map];
      rewrite ?Qsum_cons; lra.
Qed.

Lemma replenish_adds (s : GreedySolver.t) (id : string) :
  stored (replenish s) id == stored s id + daily_output_of id (DataManager.stp_df (dm s)).
Proof. unfold stored, replenish. simpl. apply fold_output_adds. Qed.

Lemma tons_from_app id l1 l2 : tons_from id (l1 ++ l2) == tons_from id l1 + tons_from id l2.
Proof. unfold tons_from. now rewrite List.filter_app, map_app, Qsum_app. Qed.

Lemma trace_ships date id steps : forall st st',
  trace_of date st steps st' ->
  stored (fst st') id == stored (fst st) id - tons_from id (map t_event steps).
Proof.
  induction steps as [|t steps IH]; intros st st' (Hl & Hf & He).
  - simpl in He. subst st'. unfold tons_from. simpl. change (Qsum []) with 0. lra.
  - destruct Hl as [Hpre Hl]. apply Forall_cons in Hf as [Hd Hf].
    rewrite (IH (t_post t) st') by (repeat split; auto).
    apply is_dispatch_inv in Hd as (_ & _ & _ & _ & _ & _ & Hsto & _).
    simpl in Hsto. unfold stored at 1. rewrite Hsto, get0_insert, Hpre.
    change (map t_event (t :: steps)) with ([t_event t] ++ map t_event steps).
    rewrite tons_from_app. unfold tons_from at 2. cbn [List.filter].
    destruct (String.eqb_spec (ev_stp_id (t_event t)) id) as [->|_]; cbn [map];
      rewrite ?Qsum_cons; change (Qsum []) with 0; unfold stored; lra.
Qed.

Lemma process_day_events s date s' :
  _process_day s date = Some s' ->
  exists evs,
    solution s' = solution s ++ evs
    /\ Forall (fun e => ev_date e = date
                        /\ ev_stp_id e ∈ map stp_id (DataManager.stp_df (dm s))
                        /\ ev_farm_id e ∈ valid_farms s date) evs
    /\ forall id,
         stored s' id
         == stored s id + daily_output_of id (DataManager.stp_df (dm s)) - tons_from id evs.
Proof.
  intros Hday.
  destruct (process_day_steps_total s date s' Hday) as [steps Hsteps].
  pose proof Hsteps as Hsteps'.
  apply process_day_trace in Hsteps as (dd & st' & _ & Htr & Hday').
  rewrite Hday in Hday'. injection Hday' as ->.
  apply process_day_steps_unfold in Hsteps' as (dd' & status & _ & Hst & Esteps).
  exists (map t_event steps). split; [|split].
  - apply trace_solution in Htr. exact Htr.
  - pose proof (stp_status_of_ids _ _ Hst) as Hids. simpl in Hids.
    pose proof (dispatch_all_steps_valid date (valid_farms s date) status
                  (replenish s, dd')) as Hv.
    rewrite <- Esteps in Hv. destruct Htr as (_ & Hf & _).
    rewrite Forall_forall in Hv. rewrite Forall_forall in Hf.
    apply Forall_forall. intros e He.
    apply list_elem_of_In, in_map_iff in He as (t & <- & Ht).
    apply list_elem_of_In in Ht.
    destruct (Hv t Ht) as [Hfarm Hplant]. specialize (Hf t Ht).
    apply is_dispatch_inv in Hf as (_ & Hdate & _).
    split; [exact Hdate|]. split; [|exact Hfarm]. rewrite <- Hids. exact Hplant.
  - intros id. rewrite (trace_ships _ id _ _ _ Htr). simpl.
    rewrite replenish_adds. lra.
Qed.

Lemma run_events (dates : list Z) : forall s s',
  run s dates = Some s' ->
  exists days,
    solution s' = solution s ++ concat days
    /\ Forall2 (fun date evs =>
         Forall (fun e => ev_date e = date
                          /\ ev_stp_id e ∈ map stp_id (DataManager.stp_df (dm s))
                          /\ ev_farm_id e ∈ valid_farms s date) evs) dates days
    /\ forall id,
         stored s' id
         == stored s id
            + inject_Z (Z.of_nat (length dates))
              * daily_output_of id (DataManager.stp_df (dm s))
            - tons_from id (concat days).
Proof.
  induction dates as [|date rest IH]; intros s s' Hrun; simpl in Hrun.
  - injection Hrun as <-. exists []. simpl. rewrite app_nil_r.
    split; [reflexivity|]. split; [constructor|].
    intros id. unfold tons_from. simpl. change (Qsum []) with 0.
    change (inject_Z (Z.of_nat 0)) with 0. lra.
  - destruct (_process_day s date) as [s1|] eqn:Hday; [|discriminate].
    destruct (process_day_dm _ _ _ Hday) as [Hdm Hfz].
    apply process_day_events in Hday as (evs & Hsol & Hev & Hbal).
    apply IH in Hrun as (days & Hsol' & Hdays & Hbal').
    exists (evs :: days). split; [|split].
    + rewrite Hsol', Hsol. simpl. now rewrite app_assoc.
    + constructor; [exact Hev|].
      eapply Forall2_impl; [exact Hdays|]. intros d l Hl.
      eapply Forall_impl; [exact Hl|]. intros e (H1 & H2 & H3).
      rewrite Hdm in H2. split; [exact H1|]. split; [exact H2|].
      unfold valid_farms in *. rewrite Hdm, Hfz in H3. exact H3.
    + intros id. rewrite Hbal', Hbal, Hdm. simpl concat. rewrite tons_from_app.
      replace (Z.of_nat (length (date :: rest))) with (1 + Z.of_nat (length rest))%Z
        by (simpl length; lia).
      rewrite inject_Z_plus. change (inject_Z 1) with 1. lra.
Qed.

Lemma init_stored_zero (data_manager : DataManager.t) (id : string) :
  stored (init data_manager) id = 0.
Proof.
  unfold stored, init. simpl.
  assert (G : forall rows (m : gmap string Q),
    get0 m id = 0 -> get0 (foldl (fun m row => <[stp_id row := 0]> m) m rows) id = 0).
  { induction rows as [|r rows IH]; intros m Hm; simpl; [exact Hm|].
    apply IH. rewrite get0_insert. destruct (String.eqb (stp_id r) id); auto. }
  apply G. unfold get0. now rewrite lookup_empty.
Qed.

(** X8: mass balance.  After a run from a fresh solver, what a plant
    holds is what its registry rows put out over the days run, less what
    the log ships from it: nothing is ever removed from the engine's
    ledger except by a dispatch. *)
Theorem ledger_mass_balance (data_manager : DataManager.t) (dates : list Z)
    (s' : GreedySolver.t) (id : string) :
  run (init data_manager) dates = Some s' ->
  stored s' id
  == inject_Z (Z.of_nat (length dates))
     * daily_output_of id (DataManager.stp_df data_manager)
     - tons_from id (solution s').
Proof.
  intros Hrun. apply run_events in Hrun as (days & Hsol & _ & Hbal).
  simpl in Hsol. rewrite Hsol, (Hbal id), init_stored_zero. simpl. lra.
Qed.

(** X9: the shape of the log.  The log of a run from a fresh solver is the
    day logs laid end to end in the order of the dates run; every row
    carries the date of its day, a plant id of the registry, and a farm
    that was valid (known to the farm-zone map, zone not rain-locked) on
    that date. *)
Theorem log_is_grouped_by_date (data_manager : DataManager.t) (dates : list Z)
    (s' : GreedySolver.t) :
  run (init data_manager) dates = Some s' ->
  exists days,
    solution s' = concat days
    /\ Forall2 (fun date evs =>
         Forall (fun e => ev_date e = date
                          /\ ev_stp_id e ∈ map stp_id (DataManager.stp_df data_manager)
                          /\ ev_farm_id e ∈ valid_farms (init data_manager) date) evs)
         dates days.
Proof.
  intros Hrun. apply run_events in Hrun as (days & Hsol & Hdays & _).
  exists days. split; [exact Hsol | exact Hdays].
Qed.
End Ledger.

(** * Further properties of the data manager *)

Section IndexFacts.
Variable haversine_distance : Q -> Q -> Q -> Q -> Q.

Let dist_of (stp : StpRow) (farm : FarmRow) : Q :=
  haversine_distance (stp_lat stp) (stp_lon stp) (farm_lat farm) (farm_lon farm).

Let add_row (stp : StpRow) (m : gmap (string * string) Q) (farms : list FarmRow) :=
  foldl (fun dist_matrix farm => <[(stp_id stp, farm_id farm) := dist_of stp farm]> dist_matrix)
    m farms.

Lemma add_row_origin stp farms : forall m k d,
  add_row stp m farms !! k = Some d ->
  m !! k = Some d
  \/ exists farm, farm ∈ farms /\ k = (stp_id stp, farm_id farm) /\ d = dist_of stp farm.
Proof.
  induction farms as [|f farms IH]; intros m k d H; simpl in H; [now left|].
  apply IH in H as [H|(farm & Hin & Hk & Hd)].
  - apply lookup_insert_Some in H as [[<- <-]|[_ H]]; [|now left].
    right. exists f. split; [left|]. split; reflexivity.
  - right. exists farm. split; [now right|]. split; assumption.
Qed.

Lemma add_rows_origin stps farms : forall m k d,
  foldl (fun m stp => add_row stp m farms) m stps !! k = Some d ->
  m !! k = Some d
  \/ exists stp farm, stp ∈ stps /\ farm ∈ farms
       /\ k = (stp_id stp, farm_id farm) /\ d = dist_of stp farm.
Proof.
  induction stps as [|p stps IH]; intros m k d H; simpl in H; [now left|].
  apply IH in H as [H|(stp & farm & H1 & H2 & H3 & H4)].
  - apply add_row_origin in H as [H|(farm & H2 & H3 & H4)]; [now left|].
    right. exists p, farm. split; [left|]. repeat split; assumption.
  - right. exists stp, farm. split; [now right|]. repeat split; assumption.
Qed.

Lemma NoDup_map_unique {A B} (f : A -> B) (l : list A) (x y : A) :
  NoDup (map f l) -> x ∈ l -> y ∈ l -> f x = f y -> x = y.
Proof.
  induction l as [|a l IH]; intros Hnd Hx Hy E; [now apply elem_of_nil in Hx|].
  simpl in Hnd. apply NoDup_cons in Hnd as [Ha Hnd].
  apply elem_of_cons in Hx as [->|Hx]; apply elem_of_cons in Hy as [->|Hy].
  - reflexivity.
  - exfalso. apply Ha. rewrite E. apply list_elem_of_In, in_map, list_elem_of_In, Hy.
  - exfalso. apply Ha. rewrite <- E. apply list_elem_of_In, in_map, list_elem_of_In, Hx.
  - now apply IH.
Qed.

(** X10: the distance index.  The index has an entry exactly for the pairs
    of a plant id and a farm id of the registries; every entry is the
    great-circle distance of some plant row and farm row with those ids,
    and with each id listed once it is the distance of the plant and farm
    so named. *)
Theorem distance_matrix_exact (stps : list StpRow) (farms : list FarmRow)
    (id f : string) :
  let m := DataManager._compute_distance_matrix haversine_distance stps farms in
  (is_Some (m !! (id, f)) <-> id ∈ map stp_id stps /\ f ∈ map farm_id farms)
  /\ (forall d, m !! (id, f) = Some d ->
        exists stp farm, stp ∈ stps /\ farm ∈ farms
          /\ stp_id stp = id /\ farm_id farm = f
          /\ d = haversine_distance (stp_lat stp) (stp_lon stp)
                   (farm_lat farm) (farm_lon farm))
  /\ (NoDup (map stp_id stps) -> NoDup (map farm_id farms) ->
      forall stp farm, stp ∈ stps -> farm ∈ farms ->
        stp_id stp = id -> farm_id farm = f ->
        m !! (id, f)
        = Some (haversine_distance (stp_lat stp) (stp_lon stp)
                  (farm_lat farm) (farm_lon farm))).
Proof.
  intros m.
  assert (Horigin : forall d, m !! (id, f) = Some d ->
    exists stp farm, stp ∈ stps /\ farm ∈ farms
      /\ stp_id stp = id /\ farm_id farm = f /\ d = dist_of stp farm).
  { intros d Hd. apply (add_rows_origin stps farms ∅) in Hd
      as [Hd|(stp & farm & H1 & H2 & H3 & H4)].
    - rewrite lookup_empty in Hd. discriminate.
    - injection H3 as -> ->. exists stp, farm. repeat split; assumption. }
  assert (Hsome : forall stp farm, stp ∈ stps -> farm ∈ farms ->
            is_Some (m !! (stp_id stp, farm_id farm)))
    by (intros stp farm; apply distance_matrix_complete).
  split; [|split].
  - split.
    + intros [d Hd]. apply Horigin in Hd as (stp & farm & H1 & H2 & <- & <- & _).
      split; apply list_elem_of_In, in_map, list_elem_of_In; assumption.
    + intros [H1 H2].
      apply list_elem_of_In, in_map_iff in H1 as (stp & <- & H1).
      apply list_elem_of_In, in_map_iff in H2 as (farm & <- & H2).
      apply Hsome; now apply list_elem_of_In.
  - exact Horigin.
  - intros Hs Hf stp farm H1 H2 <- <-.
    destruct (Hsome stp farm H1 H2) as [d Hd]. rewrite Hd. f_equal.
    apply Horigin in Hd as (stp' & farm' & H1' & H2' & E1 & E2 & ->).
    rewrite (NoDup_map_unique stp_id stps stp' stp Hs H1' H1 E1).
    rewrite (NoDup_map_unique farm_id farms farm' farm Hf H2' H2 E2).
    reflexivity.
Qed.
End IndexFacts.

Section FarmZoneMap.

Lemma odict_set_NoDup k v d :
  NoDup (map fst d) -> NoDup (map fst (DataManager.odict_set k v d)).
Proof.
  induction d as [|[k0 v0] d IH]; simpl; intros Hnd.
  - apply NoDup_singleton.
  - apply NoDup_cons in Hnd as [Hnin Hnd].
    destruct (String.eqb_spec k0 k) as [->|Hne]; simpl.
    + apply NoDup_cons. split; assumption.
    + apply NoDup_cons. split; [|now apply IH].
      intros Hin. apply odict_set_keys in Hin as [E|Hin]; [congruence | contradiction].
Qed.

Lemma odict_set_fresh k v d :
  k ∉ map fst d -> DataManager.odict_set k v d = d ++ [(k, v)].
Proof.
  induction d as [|[k0 v0] d IH]; simpl; intros Hk; [reflexivity|].
  apply not_elem_of_cons in Hk as [Hne Hk].
  destruct (String.eqb_spec k0 k) as [E|_]; [congruence|].
  now rewrite IH.
Qed.

Lemma odict_set_has k v d : (k, v) ∈ DataManager.odict_set k v d.
Proof.
  induction d as [|[k0 v0] d IH]; simpl; [left|].
  destruct (String.eqb_spec k0 k) as [->|_]; [left | now right].
Qed.

Lemma odict_set_keys_back k v d k' :
  k' = k \/ k' ∈ map fst d -> k' ∈ map fst (DataManager.odict_set k v d).
Proof.
  induction d as [|[k0 v0] d IH]; simpl.
  - intros [->|H]; [left | now apply elem_of_nil in H].
  - destruct (String.eqb_spec k0 k) as [->|Hne]; simpl.
    + intros [->|H]; [left | exact H].
    + intros [->|H].
      * right. apply IH. now left.
      * apply elem_of_cons in H as [->|H]; [left | right; apply IH; now right].
Qed.

Lemma fold_odict_NoDup (farms : list FarmRow) : forall d,
  NoDup (map fst d) ->
  NoDup (map fst (foldl (fun d farm =>
                    DataManager.odict_set (farm_id farm) (zone farm) d) d farms)).
Proof.
  induction farms as [|f farms IH]; intros d Hd; simpl; [exact Hd|].
  apply IH. now apply odict_set_NoDup.
Qed.

Lemma fold_odict_keys_back (farms : list FarmRow) : forall d k,
  k ∈ map fst d \/ k ∈ map farm_id farms ->
  k ∈ map fst (foldl (fun d farm =>
                 DataManager.odict_set (farm_id farm) (zone farm) d) d farms).
Proof.
  induction farms as [|f farms IH]; intros d k H; simpl.
  - destruct H as [H|H]; [exact H | now apply elem_of_nil in H].
  - apply IH. destruct H as [H|H].
    + left. apply odict_set_keys_back. now right.
    + simpl in H. apply elem_of_cons in H as [->|H]; [|now right].
      left. apply odict_set_keys_back. now left.
Qed.

Lemma fold_odict_fresh (farms : list FarmRow) : forall d,
  NoDup (map fst d ++ map farm_id farms) ->
  foldl (fun d farm => DataManager.odict_set (farm_id farm) (zone farm) d) d farms
  = d ++ map (fun farm => (farm_id farm, zone farm)) farms.
Proof.
  induction farms as [|f farms IH]; intros d Hnd; simpl; [now rewrite app_nil_r|].
  simpl in Hnd. apply NoDup_app in Hnd as (H1 & H2 & H3).
  apply NoDup_cons in H3 as [H3 H4].
  assert (Hfresh : farm_id f ∉ map fst d) by (intros Hin; apply (H2 _ Hin); left).
  rewrite (odict_set_fresh _ _ _ Hfresh), IH.
  - rewrite <- app_assoc. reflexivity.
  - rewrite map_app. simpl. rewrite <- app_assoc. simpl.
    apply NoDup_app. split; [exact H1|]. split.
    + intros x Hx Hx'. apply elem_of_cons in Hx' as [->|Hx']; [contradiction|].
      apply (H2 _ Hx). now right.
    + apply NoDup_cons. split; assumption.
Qed.

(** X11: the farm-zone map.  Its keys are the farm ids of the registry,
    each once; and when the registry lists every farm id once, the map
    is the registry's (farm id, zone) pairs in registry order. *)
Theorem farm_zone_map_exact (data_manager : DataManager.t) :
  let fz := DataManager.get_farm_zone_map data_manager in
  NoDup (map fst fz)
  /\ (forall k, k ∈ map fst fz <-> k ∈ map farm_id (DataManager.farm_df data_manager))
  /\ (NoDup (map farm_id (DataManager.farm_df data_manager)) ->
      fz = map (fun farm => (farm_id farm, zone farm)) (DataManager.farm_df data_manager)).
Proof.
  intros fz. unfold fz, DataManager.get_farm_zone_map. split; [|split].
  - apply fold_odict_NoDup. constructor.
  - intros k. split.
    + intros Hk. apply farm_zone_map_keys in Hk as (f & Hf & <-).
      apply list_elem_of_In, in_map, list_elem_of_In, Hf.
    + intros Hk. apply fold_odict_keys_back. now right.
  - intros Hnd. now rewrite fold_odict_fresh.
Qed.
End FarmZoneMap.

Section LockDefaults.
Import DataManager.

Lemma lock_row_other roll thr W zones frame i z :
  z ∉ zones -> lock_row roll thr W zones frame i !! z = None.
Proof.
  unfold lock_row.
  assert (G : forall (m : gmap string bool), z ∉ zones ->
    foldl (fun d z0 => <[z0 := is_locked roll thr W frame z0 i]> d) m zones !! z = m !! z).
  { induction zones as [|z0 zones IH]; intros m Hz; simpl; [reflexivity|].
    apply not_elem_of_cons in Hz as [Hne Hz].
    rewrite IH by exact Hz. now apply lookup_insert_ne. }
  intros Hz. rewrite G by exact Hz. apply lookup_empty.
Qed.

Lemma fill_lock_dict_origin roll thr W zones frame rows : forall i acc d lr,
  fill_lock_dict roll thr W zones frame i rows acc !! d = Some lr ->
  acc !! d = Some lr \/ exists j, lr = lock_row roll thr W zones frame j.
Proof.
  induction rows as [|r rest IH]; intros i acc d lr H; simpl in H; [now left|].
  apply IH in H as [H|H]; [|now right].
  apply lookup_insert_Some in H as [[_ <-]|[_ H]]; [right; eauto | now left].
Qed.

Lemma unlisted_zone_open haversine_distance roll cfg stps farms weather demand d z :
  z ∉ w_zones weather ->
  rain_locked (init haversine_distance roll cfg stps farms weather demand) d z = false.
Proof.
  intros Hz. unfold rain_locked, init, _compute_rain_lock_matrix. simpl.
  destruct (fill_lock_dict roll (rain_lock_threshold_mm cfg) (forecast_window_days cfg)
              (w_zones weather) (sort_index (w_rows weather)) 0
              (sort_index (w_rows weather)) ∅ !! d) as [lr|] eqn:E;
    simpl; [|now rewrite lookup_empty].
  apply fill_lock_dict_origin in E as [E|[j ->]].
  - rewrite lookup_empty in E. discriminate.
  - now rewrite lock_row_other.
Qed.

(** X12: what is not in the weather table is open.  For a date the weather
    table has no row for, and for a zone that is not one of its columns,
    the lock flag the solver reads is false. *)
Theorem unlisted_date_or_zone_is_open
    (haversine_distance : Q -> Q -> Q -> Q -> Q) (forward_rolling_sum : Rolling)
    (cfg : Config) (stps : list StpRow) (farms : list FarmRow) (weather : WeatherDF)
    (demand : list DemandRow) (d : Z) (z : string) :
  (forall r, r ∈ w_rows weather -> w_date r <> d) \/ z ∉ w_zones weather ->
  rain_locked
    (init haversine_distance forward_rolling_sum cfg stps farms weather demand) d z
  = false.
Proof.
  intros H. destruct H as [Hd|Hz]; [|now apply unlisted_zone_open].
  unfold rain_locked, init, _compute_rain_lock_matrix. simpl.
  rewrite fill_lock_dict_other.
  - rewrite lookup_empty. simpl. now rewrite lookup_empty.
  - intros r Hr. apply Hd. now apply sort_index_elem.
Qed.
End LockDefaults.

(** * Further properties of the replay *)

Section OverflowCheck.
Import Metrics.

Lemma replay_clamped dm sol dates : forall a a' stp,
  dates <> [] ->
  replay dm sol a dates = Some a' ->
  stp ∈ DataManager.stp_df dm ->
  get0 (stp_storage a') (stp_id stp) <= storage_max_tons stp.
Proof.
  induction dates as [|date rest IH]; intros a a' stp Hne H Hin; [congruence|].
  simpl in H. destruct (replay_day dm sol a date) as [a1|] eqn:E; [|discriminate].
  destruct rest as [|d2 rest'].
  - simpl in H. injection H as <-. eapply replay_day_clamped; eassumption.
  - apply (IH a1 a' stp); [discriminate | exact H | exact Hin].
Qed.

Lemma check_overflow_row_other cfg a r id :
  stp_id r <> id ->
  get0 (stp_storage (check_overflow_row cfg a r)) id = get0 (stp_storage a) id.
Proof.
  intros Hne. unfold check_overflow_row.
  destruct (Qltb _ _); [|reflexivity]. simpl. rewrite get0_insert.
  destruct (String.eqb_spec (stp_id r) id); [contradiction | reflexivity].
Qed.

Lemma check_overflow_row_effect cfg a r :
  get0 (stp_storage (check_overflow_row cfg a r)) (stp_id r)
  == Qmin (get0 (stp_storage a) (stp_id r)) (storage_max_tons r)
  /\ total_overflow_penalty (check_overflow_row cfg a r)
     == total_overflow_penalty a
        + Qmax 0 (get0 (stp_storage a) (stp_id r) - storage_max_tons r)
          * stp_overflow_penalty_kg_co2_per_ton cfg.
Proof.
  unfold check_overflow_row.
  destruct (Qltb (storage_max_tons r) (get0 (stp_storage a) (stp_id r))) eqn:E.
  - apply Qltb_lt in E. simpl. rewrite get0_insert, String.eqb_refl.
    rewrite Q.min_r by lra. rewrite Q.max_r by lra. split; reflexivity.
  - apply Qltb_ge in E. rewrite Q.min_l by lra. rewrite Q.max_l by lra.
    split; [reflexivity | lra].
Qed.

Lemma check_overflow_rows_effect cfg rows : forall a,
  NoDup (map stp_id rows) ->
  let a' := foldl (check_overflow_row cfg) a rows in
  total_overflow_penalty a'
  == total_overflow_penalty a
     + Qsum (map (fun stp =>
                    Qmax 0 (get0 (stp_storage a) (stp_id stp) - storage_max_tons stp)
                    * stp_overflow_penalty_kg_co2_per_ton cfg) rows)
  /\ (forall stp, stp ∈ rows ->
        get0 (stp_storage a') (stp_id stp)
        == Qmin (get0 (stp_storage a) (stp_id stp)) (storage_max_tons stp))
  /\ (forall id, id ∉ map stp_id rows ->
        get0 (stp_storage a') id = get0 (stp_storage a) id).
Proof.
  induction rows as [|r rows IH]; intros a Hnd; cbv zeta; cbn [foldl map].
  - change (Qsum []) with 0. split; [lra|]. split; [|reflexivity].
    intros stp H. now apply elem_of_nil in H.
  - apply NoDup_cons in Hnd as [Hr Hnd].
    destruct (IH (check_overflow_row cfg a r) Hnd) as (H1 & H2 & H3).
    destruct (check_overflow_row_effect cfg a r) as [E1 E2].
    split; [|split].
    + rewrite H1, E2, Qsum_cons.
      assert (Hsame : forall stp, In stp rows ->
        Qmax 0 (get0 (stp_storage (check_overflow_row cfg a r)) (stp_id stp)
                - storage_max_tons stp) * stp_overflow_penalty_kg_co2_per_ton cfg
        = Qmax 0 (get0 (stp_storage a) (stp_id stp) - storage_max_tons stp)
          * stp_overflow_penalty_kg_co2_per_ton cfg).
      { intros stp Hin. rewrite check_overflow_row_other; [reflexivity|].
        intros E. apply Hr. rewrite E. now apply list_elem_of_In, in_map. }
      rewrite (map_ext_in _ _ _ Hsame). lra.
    + intros stp Hin. apply elem_of_cons in Hin as [->|Hin].
      * rewrite H3 by exact Hr. exact E1.
      * rewrite (H2 stp Hin). rewrite check_overflow_row_other; [reflexivity|].
        intros E. apply Hr. rewrite E.
        apply list_elem_of_In, in_map, list_elem_of_In, Hin.
    + intros id Hid. apply not_elem_of_cons in Hid as [Hne Hid].
      rewrite (H3 id Hid). apply check_overflow_row_other. congruence.
Qed.

(** X13: the replay never leaves a plant above capacity.  After the replay
    of one or more days, whatever the log, every plant of the registry
    holds at most its capacity. *)
Theorem replay_keeps_within_capacity (dm : DataManager.t) (sol : list Event)
    (dates : list Z) (a a' : Totals) (stp : StpRow) :
  dates <> [] ->
  replay dm sol a dates = Some a' ->
  stp ∈ DataManager.stp_df dm ->
  get0 (stp_storage a') (stp_id stp) <= storage_max_tons stp.
Proof. apply replay_clamped. Qed.

(** X14: what the overflow check charges.  With every plant id listed once,
    the check sets each plant to the smaller of its stock and its
    capacity, leaves other keys alone, and adds to the penalty the rate
    times the sum over the plants of [max(0, stock - capacity)]. *)
Theorem overflow_check_exact (dm : DataManager.t) (a : Totals) :
  NoDup (map stp_id (DataManager.stp_df dm)) ->
  total_overflow_penalty (check_overflow dm a)
  == total_overflow_penalty a
     + Qsum (map (fun stp =>
                    Qmax 0 (get0 (stp_storage a) (stp_id stp) - storage_max_tons stp)
                    * stp_overflow_penalty_kg_co2_per_ton (DataManager.config dm))
               (DataManager.stp_df dm))
  /\ (forall stp, stp ∈ DataManager.stp_df dm ->
        get0 (stp_storage (check_overflow dm a)) (stp_id stp)
        == Qmin (get0 (stp_storage a) (stp_id stp)) (storage_max_tons stp))
  /\ (forall id, id ∉ map stp_id (DataManager.stp_df dm) ->
        get0 (stp_storage (check_overflow dm a)) id = get0 (stp_storage a) id).
Proof.
  intros Hnd. unfold check_overflow.
  exact (check_overflow_rows_effect (DataManager.config dm) (DataManager.stp_df dm) a Hnd).
Qed.
End OverflowCheck.

Section ReplayRows.
Import Metrics.

Lemma moves_of_skip before row after date :
  ev_date row <> date ->
  moves_of (before ++ row :: after) date = moves_of (before ++ after) date.
Proof.
  intros Hne. unfold moves_of. rewrite !List.filter_app. simpl.
  destruct (Z.eqb_spec (ev_date row) date); [contradiction | reflexivity].
Qed.

Lemma replay_skip dm before row after dates : forall a,
  ev_date row ∉ dates ->
  replay dm (before ++ row :: after) a dates = replay dm (before ++ after) a dates.
Proof.
  induction dates as [|date rest IH]; intros a Hd; simpl; [reflexivity|].
  apply not_elem_of_cons in Hd as [Hne Hd].
  unfold replay_day. rewrite (moves_of_skip _ _ _ _ Hne).
  fold (replay_day dm (before ++ after) a date).
  destruct (replay_day dm (before ++ after) a date); [|reflexivity].
  now apply IH.
Qed.

(** X15: rows dated outside the year.  A log row whose date is not a date
    of the simulation year is never replayed: with or without it the
    replay succeeds or fails alike and all gains and penalties, and the
    net score, are the same; the row still counts in the total tons and
    the round-trip kilometres. *)
Theorem row_outside_year_not_replayed (dm : DataManager.t)
    (before after : list Event) (row : Event) :
  ev_date row ∉ year_dates (year (DataManager.config dm)) ->
  match calculate_metrics dm (before ++ row :: after),
        calculate_metrics dm (before ++ after) with
  | Some m, Some m0 =>
      net_carbon_credit_score m = net_carbon_credit_score m0
      /\ synthetic_fertilizer_offset m = synthetic_fertilizer_offset m0
      /\ soil_carbon_sequestration m = soil_carbon_sequestration m0
      /\ transport_emissions m = transport_emissions m0
      /\ nitrogen_leaching m = nitrogen_leaching m0
      /\ stp_overflow m = stp_overflow m0
      /\ total_delivered_tons m == total_delivered_tons m0 + tons_delivered row
      /\ total_round_trip_km m == total_round_trip_km m0 + row_dist dm row * 2
  | None, None => True
  | _, _ => False
  end.
Proof.
  intros Hd. unfold calculate_metrics. rewrite (replay_skip _ _ _ _ _ _ Hd).
  destruct (replay dm (before ++ after) (start dm)
              (year_dates (year (DataManager.config dm)))) as [a|]; [|exact I].
  simpl. repeat split; try reflexivity.
  - unfold delivered_tons_of. rewrite !map_app, !Qsum_app. simpl map.
    rewrite Qsum_cons. lra.
  - rewrite !round_trip_km_app.
    change (round_trip_km_of dm (row :: after))
      with (row_dist dm row * 2 + round_trip_km_of dm after). lra.
Qed.

Lemma replayed_transport_cons dm row sol dates :
  replayed_transport dm (row :: sol) dates
  == Qsum (map (fun d => if (ev_date row =? d)%Z then row_transport_emission dm row else 0)
             dates)
     + replayed_transport dm sol dates.
Proof.
  unfold replayed_transport. induction dates as [|d rest IH].
  - simpl. change (Qsum []) with 0. lra.
  - cbn [map]. rewrite !Qsum_cons, IH. unfold moves_of. cbn [List.filter].
    destruct (ev_date row =? d)%Z; cbn [map]; rewrite ?Qsum_cons; lra.
Qed.

Lemma indicator_sum (x : Z) (v : Q) (dates : list Z) :
  NoDup dates -> x ∈ dates ->
  Qsum (map (fun d => if (x =? d)%Z then v else 0) dates) == v.
Proof.
  induction dates as [|d rest IH]; intros Hnd Hx; [now apply elem_of_nil in Hx|].
  apply NoDup_cons in Hnd as [Hd Hnd]. cbn [map]. rewrite Qsum_cons.
  apply elem_of_cons in Hx as [->|Hx].
  - rewrite Z.eqb_refl.
    assert (Hz : Qsum (map (fun d0 => if (d =? d0)%Z then v else 0) rest) == 0).
    { clear IH Hnd. induction rest as [|e rest IH]; [reflexivity|].
      apply not_elem_of_cons in Hd as [Hne Hd]. cbn [map]. rewrite Qsum_cons.
      destruct (Z.eqb_spec d e); [contradiction|]. rewrite IH by exact Hd. lra. }
    rewrite Hz. lra.
  - destruct (Z.eqb_spec x d) as [->|_]; [contradiction|].
    rewrite IH by assumption. lra.
Qed.

Lemma replayed_transport_nil dm dates : replayed_transport dm [] dates == 0.
Proof.
  unfold replayed_transport. induction dates as [|d rest IH]; [reflexivity|].
  cbn [map]. rewrite Qsum_cons, IH. unfold moves_of. cbn [List.filter map].
  change (Qsum []) with 0. lra.
Qed.

Lemma replayed_transport_all dm sol dates :
  NoDup dates ->
  (forall row, row ∈ sol -> ev_date row ∈ dates) ->
  replayed_transport dm sol dates == Qsum (map (row_transport_emission dm) sol).
Proof.
  intros Hnd. induction sol as [|row sol IH]; intros Hin.
  - rewrite replayed_transport_nil. reflexivity.
  - rewrite replayed_transport_cons, indicator_sum, IH.
    + cbn [map]. rewrite Qsum_cons. lra.
    + intros r Hr. apply Hin. now right.
    + exact Hnd.
    + apply Hin. left.
Qed.

Lemma transport_sum dm sol :
  Qsum (map (row_transport_emission dm) sol)
  == Qsum (map (row_dist dm) sol)
     * diesel_emission_factor_kg_co2_per_km (DataManager.config dm).
Proof.
  induction sol as [|row sol IH]; cbn [map].
  - change (Qsum []) with 0. ring.
  - rewrite !Qsum_cons, IH. unfold row_transport_emission. ring.
Qed.

(** X16: emissions against kilometres.  When every row of the log is dated
    within the simulation year, the transport emissions of the scoreboard
    are the diesel factor times half its round-trip kilometres: the
    replay charges each delivery for the way out only. *)
Theorem transport_is_half_round_trip (dm : DataManager.t) (sol : list Event)
    (m : Metrics.t) :
  (forall row, row ∈ sol -> ev_date row ∈ year_dates (year (DataManager.config dm))) ->
  calculate_metrics dm sol = Some m ->
  transport_emissions m * 2
  == total_round_trip_km m * diesel_emission_factor_kg_co2_per_km (DataManager.config dm).
Proof.
  intros Hin Hm. unfold calculate_metrics in Hm.
  destruct (replay dm sol (start dm) (year_dates (year (DataManager.config dm))))
    as [a|] eqn:E; [|discriminate].
  injection Hm as <-. simpl.
  apply replay_transport in E. rewrite E. simpl.
  rewrite replayed_transport_all; [|apply NoDup_seqZ | exact Hin].
  rewrite round_trip_km_double, transport_sum. ring.
Qed.

End ReplayRows.

Section ReplaySucceeds.
Import Metrics.

Lemma start_keyed dm : keyed dm (start dm).
Proof.
  unfold keyed, start. simpl. intros id Hid.
  apply list_elem_of_In, in_map_iff in Hid as (stp & <- & Hin).
  apply list_elem_of_In in Hin.
  exact (init_storage_keys dm stp Hin).
Qed.

Lemma update_flow_keys dm a id :
  is_Some (stp_storage a !! id) -> is_Some (stp_storage (update_flow dm a) !! id).
Proof.
  intros H. unfold update_flow. simpl.
  apply (fold_insert_keeps (fun m stp => get0 m (stp_id stp) + daily_output_tons stp)
           stp_id). exact H.
Qed.

Lemma check_overflow_keys dm a id :
  is_Some (stp_storage a !! id) -> is_Some (stp_storage (check_overflow dm a) !! id).
Proof.
  unfold check_overflow. revert a.
  induction (DataManager.stp_df dm) as [|r rows IH]; intros a H; simpl; [exact H|].
  apply IH. unfold check_overflow_row. destruct (Qltb _ _); [|exact H].
  simpl. rewrite lookup_insert. case_decide; eauto.
Qed.

Lemma process_moves_total dm date moves : forall a,
  is_Some (DataManager.get_demand_for_day dm date) ->
  (forall row, row ∈ moves -> is_Some (stp_storage a !! ev_stp_id row)) ->
  exists a', process_moves dm date a moves = Some a'
             /\ forall id, is_Some (stp_storage a !! id) -> is_Some (stp_storage a' !! id).
Proof.
  intros a [dd Hdd]. revert a.
  induction moves as [|row rest IH]; intros a Hk; simpl; [eauto|].
  destruct (Hk row (list_elem_of_here _ _)) as [held Hheld].
  unfold process_move. rewrite Hheld, Hdd.
  match goal with |- context [process_moves dm date ?x rest] => set (a1 := x) end.
  assert (Hkeep : forall id, is_Some (stp_storage a !! id) ->
                             is_Some (stp_storage a1 !! id)).
  { intros id H. subst a1. simpl. rewrite lookup_insert. case_decide; eauto. }
  destruct (IH a1) as (a' & Ha' & Hk').
  - intros r Hr. apply Hkeep. apply Hk. now right.
  - exists a'. split; [exact Ha'|]. intros id H. apply Hk'. now apply Hkeep.
Qed.

Lemma replay_day_total dm sol a date :
  keyed dm a ->
  (forall row, row ∈ sol -> ev_date row = date ->
     ev_stp_id row ∈ map stp_id (DataManager.stp_df dm)
     /\ is_Some (DataManager.get_demand_for_day dm date)) ->
  exists a', replay_day dm sol a date = Some a' /\ keyed dm a'.
Proof.
  intros Hk Hrows. unfold replay_day.
  destruct (moves_of sol date) as [|row rest] eqn:Em.
  - eexists. split; [reflexivity|]. intros id Hid.
    apply check_overflow_keys, update_flow_keys, Hk, Hid.
  - assert (Hin : forall r, r ∈ row :: rest -> r ∈ sol /\ ev_date r = date).
    { intros r Hr. rewrite <- Em in Hr. unfold moves_of in Hr.
      apply list_elem_of_In, filter_In in Hr as [H1 H2].
      split; [now apply list_elem_of_In | lia]. }
    destruct (Hin row (list_elem_of_here _ _)) as [Hrow Hdate].
    destruct (Hrows row Hrow Hdate) as [_ Hdd].
    destruct (process_moves_total dm date (row :: rest) (update_flow dm a) Hdd)
      as (a2 & Ha2 & Hk2).
    + intros r Hr. destruct (Hin r Hr) as [H1 H2].
      apply update_flow_keys, Hk. now apply (Hrows r H1 H2).
    + rewrite Ha2. unfold aggregate. destruct Hdd as [dd Hdd]. rewrite Hdd.
      eexists. split; [reflexivity|]. intros id Hid.
      apply check_overflow_keys.
      destruct (credit_farms_totals (DataManager.config dm) dd
                  (farm_totals (row :: rest)) a2) as (_ & _ & _ & _ & _ & ->).
      apply Hk2, update_flow_keys, Hk, Hid.
Qed.

Lemma replay_total dm sol dates : forall a,
  keyed dm a ->
  (forall row, row ∈ sol -> ev_date row ∈ dates ->
     ev_stp_id row ∈ map stp_id (DataManager.stp_df dm)
     /\ is_Some (DataManager.get_demand_for_day dm (ev_date row))) ->
  is_Some (replay dm sol a dates).
Proof.
  induction dates as [|date rest IH]; intros a Hk Hrows; simpl; [eauto|].
  destruct (replay_day_total dm sol a date Hk) as (a1 & Ha1 & Hk1).
  - intros row Hrow <-. apply Hrows; [exact Hrow | left].
  - rewrite Ha1. apply IH; [exact Hk1|].
    intros row Hrow Hd. apply Hrows; [exact Hrow | now right].
Qed.

(** X18: when the replay loop goes through.  The loop over the dates of
    the year runs to its end, raising neither on a plant nor on a date,
    whenever every log row dated within the year names a plant of the
    registry and falls on a date the demand table has a row for. *)
Theorem replay_succeeds (dm : DataManager.t) (sol : list Event) :
  (forall row, row ∈ sol ->
     ev_date row ∈ year_dates (year (DataManager.config dm)) ->
     ev_stp_id row ∈ map stp_id (DataManager.stp_df dm)
     /\ is_Some (DataManager.get_demand_for_day dm (ev_date row))) ->
  is_Some (replay dm sol (start dm) (year_dates (year (DataManager.config dm)))).
Proof.
  intros Hrows.
  exact (replay_total dm sol (year_dates (year (DataManager.config dm)))
           (start dm) (start_keyed dm) Hrows).
Qed.

Lemma run_demand (dates : list Z) : forall s s',
  GreedySolver.run s dates = Some s' ->
  forall d, d ∈ dates ->
    is_Some (DataManager.get_demand_for_day (GreedySolver.dm s) d).
Proof.
  induction dates as [|date rest IH]; intros s s' Hrun d Hd;
    [now apply elem_of_nil in Hd|].
  simpl in Hrun.
  destruct (GreedySolver._process_day s date) as [s1|] eqn:Hday; [|discriminate].
  apply elem_of_cons in Hd as [->|Hd].
  - unfold GreedySolver._process_day in Hday. simpl in Hday.
    destruct (DataManager.get_demand_for_day (GreedySolver.dm s) date);
      [eauto | discriminate].
  - destruct (process_day_dm _ _ _ Hday) as [Hdm _]. rewrite <- Hdm.
    now apply (IH s1 s').
Qed.

(** X19: the engine's log replays.  Whatever log of at least one row the
    engine returns for a year, the replay loop over that log and the
    same data runs to its end: it meets no unknown plant and no date
    without demand.  (A log without a row cannot be saved and loaded as
    a table with columns.) *)
Theorem engine_log_replays (data_manager : DataManager.t) (log : list Event) :
  GreedySolver.solve (GreedySolver.init data_manager) = Some log ->
  log <> [] ->
  is_Some (replay data_manager log (start data_manager)
             (year_dates (year (DataManager.config data_manager)))).
Proof.
  unfold GreedySolver.solve. simpl.
  destruct (GreedySolver.run (GreedySolver.init data_manager)
              (year_dates (year (DataManager.config data_manager)))) as [s'|] eqn:Hrun;
    [|discriminate].
  intros [= <-] _.
  pose proof (run_demand _ _ _ Hrun) as Hdd. simpl in Hdd.
  apply run_events in Hrun as (days & Hsol & Hdays & _). simpl in Hsol.
  apply (replay_total data_manager (GreedySolver.solution s')
           (year_dates (year (DataManager.config data_manager)))
           (start data_manager) (start_keyed data_manager)).
  intros row Hrow Hd. split; [|now apply Hdd].
  rewrite Hsol in Hrow. apply list_elem_of_In, in_concat in Hrow as (evs & Hevs & Hrow).
  apply list_elem_of_In in Hevs, Hrow.
  clear Hsol Hdd Hd.
  induction Hdays as [|date evs' dates' days' Hhead Htail IH];
    [now apply elem_of_nil in Hevs|].
  apply elem_of_cons in Hevs as [->|Hevs]; [|now apply IH].
  rewrite Forall_forall in Hhead. now apply (Hhead row Hrow).
Qed.
End ReplaySucceeds.

(** * The dashboard's rain lock against the index *)

Section Dashboard.
Import DataManager.

Lemma filter_above (lo hi : Z) (rows : list WeatherRow) :
  (forall r, r ∈ rows -> (hi < w_date r)%Z) ->
  List.filter (fun r => (lo <=? w_date r)%Z && (w_date r <=? hi)%Z) rows = [].
Proof.
  induction rows as [|r rows IH]; intros H; simpl; [reflexivity|].
  pose proof (H r (list_elem_of_here _ _)).
  destruct (Z.leb_spec (w_date r) hi); [lia|].
  rewrite andb_false_r. apply IH. intros x Hx. apply H. now right.
Qed.

Lemma filter_window_head (rows : list WeatherRow) : forall d0 lo (n : nat),
  (lo <= d0)%Z ->
  consecutive_from d0 rows ->
  List.filter (fun r => (lo <=? w_date r)%Z && (w_date r <=? d0 + Z.of_nat n - 1)%Z) rows
  = take n rows.
Proof.
  induction rows as [|r rows IH]; intros d0 lo n Hlo Hc; [now destruct n|].
  pose proof Hc as Hc0. apply consecutive_cons in Hc as [Hr Hc].
  destruct n as [|n].
  - apply filter_above. intros x Hx.
    pose proof (consecutive_dates_ge _ _ _ Hc0 Hx). lia.
  - simpl List.filter.
    destruct (Z.leb_spec lo (w_date r)); [|lia].
    destruct (Z.leb_spec (w_date r) (d0 + Z.of_nat (S n) - 1)); [|lia].
    simpl. f_equal.
    replace (d0 + Z.of_nat (S n) - 1)%Z with (d0 + 1 + Z.of_nat n - 1)%Z by lia.
    apply IH; [lia | exact Hc].
Qed.

Lemma filter_window_drop (k : nat) : forall rows d0 hi,
  consecutive_from d0 rows ->
  List.filter (fun r => (d0 + Z.of_nat k <=? w_date r)%Z && (w_date r <=? hi)%Z) rows
  = List.filter (fun r => (d0 + Z.of_nat k <=? w_date r)%Z && (w_date r <=? hi)%Z)
      (drop k rows).
Proof.
  induction k as [|k IH]; intros rows d0 hi Hc; [now rewrite drop_0|].
  destruct rows as [|r rows]; [reflexivity|].
  apply consecutive_cons in Hc as [Hr Hc]. simpl.
  destruct (Z.leb_spec (d0 + Z.of_nat (S k)) (w_date r)); [lia|]. simpl.
  replace (d0 + Z.of_nat (S k))%Z with (d0 + 1 + Z.of_nat k)%Z by lia.
  now apply IH.
Qed.

(** The dashboard's window is the five rows from the selected day on. *)
Lemma forecast_window_rows weather (d0 : Z) (k : nat) :
  consecutive_from d0 (w_rows weather) ->
  App.forecast_window weather (d0 + Z.of_nat k)%Z = take 5 (drop k (w_rows weather)).
Proof.
  intros Hc. unfold App.forecast_window.
  rewrite (filter_window_drop k _ d0 _ Hc).
  replace (d0 + Z.of_nat k + 4)%Z with (d0 + Z.of_nat k + Z.of_nat 5 - 1)%Z by lia.
  apply filter_window_head; [lia | now apply consecutive_drop].
Qed.

(** X20: the dashboard agrees with the index away from the threshold.
    For a weather table of consecutive days in order, a configured window
    of 5 days, a threshold that is not negative and a date [d] of the
    table: when the sums the two library calls return for the window of
    [d] are both within [eps] of the exact sum of its readings, and that
    exact sum is not within [eps] of the threshold, the dashboard lists a
    zone as rain-locked exactly when the index the solver reads has it
    locked. *)
Theorem dashboard_lock_agrees_with_index
    (haversine_distance : Q -> Q -> Q -> Q -> Q) (forward_rolling_sum : Rolling)
    (frame_sum : list (option Q) -> Q) (cfg : Config)
    (stps : list StpRow) (farms : list FarmRow) (weather : WeatherDF)
    (demand : list DemandRow) (d0 d : Z) (z : string) (eps : Q) :
  consecutive_from d0 (w_rows weather) ->
  forecast_window_days cfg = 5%nat ->
  0 <= rain_lock_threshold_mm cfg ->
  0 <= eps ->
  (d0 <= d < d0 + Z.of_nat (length (w_rows weather)))%Z ->
  let i := Z.to_nat (d - d0) in
  let readings := window_readings 5 (w_rows weather) i z in
  let column := map (fun r : WeatherRow => w_rain r !! z) in
  let in_index := forward_rolling_sum 5%nat (column (w_rows weather)) i in
  let in_dashboard := frame_sum (column (take 5 (drop i (w_rows weather)))) in
  within eps in_index readings ->
  Qsum readings - eps <= in_dashboard /\ in_dashboard <= Qsum readings + eps ->
  rain_lock_threshold_mm cfg + eps < Qsum readings
    \/ Qsum readings + eps <= rain_lock_threshold_mm cfg ->
  z ∈ App.rain_locked_zones frame_sum cfg weather d
  <-> rain_locked
        (init haversine_distance forward_rolling_sum cfg stps farms weather demand) d z
      = true.
Proof.
  intros Hc HW Hthr Heps Hd i readings column in_index in_dashboard Hidx Hdash Hfar.
  assert (Hk : (i < length (w_rows weather))%nat) by (subst i; lia).
  assert (Ed : d = (d0 + Z.of_nat i)%Z) by (subst i; lia).
  destruct (lookup_lt_is_Some_2 _ _ Hk) as [r Hr].
  pose proof (consecutive_lookup _ _ _ _ Hc Hr) as Er.
  assert (Ew : App.forecast_window weather d = take 5 (drop i (w_rows weather)))
    by (rewrite Ed at 1; exact (forecast_window_rows weather d0 i Hc)).
  unfold App.rain_locked_zones. rewrite !Ew.
  assert (Hne : take 5 (drop i (w_rows weather)) <> []).
  { intros E. apply (f_equal length) in E. rewrite length_take, length_drop in E.
    change (length (@nil WeatherRow)) with 0%nat in E. lia. }
  assert (Em : forall (l : list WeatherRow) (X : list string),
             l <> [] -> match l with [] => [] | _ :: _ => X end = X)
    by (intros [|x l] X Hl; [congruence | reflexivity]).
  rewrite Em by exact Hne. clear Em Hne.
  destruct (decide (z ∈ w_zones weather)) as [Hz|Hz].
  - replace d with (w_date r) by lia.
    rewrite (rain_locked_at haversine_distance forward_rolling_sum cfg stps farms
               weather demand (w_rows weather) i r z).
    + rewrite list_elem_of_In, filter_In, <- list_elem_of_In.
      unfold is_locked, zone_column. rewrite HW.
      subst in_index in_dashboard column. cbv beta in *.
      unfold within in Hidx. destruct readings as [|v vs] eqn:Er'.
      * rewrite Hidx. change (Qsum []) with 0 in *.
        split; [|discriminate]. intros [_ H]. apply Qltb_lt in H.
        destruct Hfar; lra.
      * destruct Hidx as (s & -> & Hlo & Hhi). rewrite !Qltb_lt.
        destruct Hfar; split; try (intros; lra); intros; split; try assumption; lra.
    + split; [reflexivity | now apply (consecutive_sorted _ d0)].
    + exact Hr.
    + exact Hz.
  - split.
    + intros H. apply list_elem_of_In, filter_In in H as [H _].
      apply list_elem_of_In in H. contradiction.
    + intros H. rewrite unlisted_zone_open in H; [discriminate | exact Hz].
Qed.
End Dashboard.

(** * When overflow stays, and when the replay stops *)

Section OverflowStays.
Import GreedySolver.

Lemma loop_body_cases date stp cand s dd :
  match loop_body date stp cand (s, dd) with
  | Break => stored s (st_stp_id stp) <= 0
  | Continue => stored s (st_stp_id stp) <= st_max stp
  | Dispatched e st' =>
      TRUCK_CAPACITY (fst st') = TRUCK_CAPACITY s
      /\ (0 <= TRUCK_CAPACITY s -> forall id, stored (fst st') id <= stored s id)
  end.
Proof.
  destruct (loop_body date stp cand (s, dd)) as [| |e st'] eqn:Hb.
  - unfold loop_body in Hb.
    destruct (Qle_bool (stored s (st_stp_id stp)) 0) eqn:E;
      [now apply Qle_bool_iff in E|].
    destruct (negb _ && negb _); discriminate.
  - now apply loop_body_continue in Hb as (_ & H & _).
  - apply loop_body_dispatched in Hb as (Hpos & _ & He & ->). simpl.
    split; [reflexivity|]. intros HT id.
    unfold stored at 1. simpl. rewrite get0_insert.
    destruct (String.eqb_spec (st_stp_id stp) id) as [<-|_]; [|unfold stored; lra].
    rewrite He. simpl.
    assert (0 <= Qmin (TRUCK_CAPACITY s) (stored s (st_stp_id stp)))
      by (apply Q.min_glb; lra).
    lra.
Qed.

Lemma greedy_dispatch_decreases date stp cands : forall st id,
  0 <= TRUCK_CAPACITY (fst st) ->
  stored (fst (greedy_dispatch date stp cands st)) id <= stored (fst st) id.
Proof.
  induction cands as [|cand rest IH]; intros [s dd] id HT;
    cbn [greedy_dispatch]; [lra|].
  pose proof (loop_body_cases date stp cand s dd) as Hcase.
  destruct (loop_body date stp cand (s, dd)) as [| |e st'];
    [cbn [fst]; lra | now apply IH|].
  destruct Hcase as [ET Hle]. simpl in HT.
  pose proof (IH st' id) as H1. rewrite ET in H1.
  pose proof (Hle HT id). specialize (H1 HT). cbn [fst] in *. lra.
Qed.

Lemma greedy_dispatch_all_shipped date stp cands : forall st,
  0 <= TRUCK_CAPACITY (fst st) ->
  0 <= st_max stp ->
  st_max stp < stored (fst (greedy_dispatch date stp cands st)) (st_stp_id stp) ->
  length (greedy_dispatch_steps date stp cands st) = length cands.
Proof.
  induction cands as [|cand rest IH]; intros [s dd] HT Hmax Hover; [reflexivity|].
  cbn [greedy_dispatch greedy_dispatch_steps] in *.
  pose proof (loop_body_cases date stp cand s dd) as Hcase.
  destruct (loop_body date stp cand (s, dd)) as [| |e st'] eqn:Hb.
  - simpl in Hover. lra.
  - pose proof (greedy_dispatch_decreases date stp rest (s, dd) (st_stp_id stp) HT) as Hd.
    simpl in Hd. lra.
  - destruct Hcase as [ET _]. simpl in HT. simpl. f_equal.
    apply IH; [rewrite ET; exact HT | exact Hmax | exact Hover].
Qed.

(** X21: overflow stays only when the farms run out.  With truck capacity
    and plant capacity not negative: if, after its call of
    [_dispatch_logic], a plant that had stock still holds more than its
    capacity, then the call sent a truck to every one of its candidates. *)
Theorem overflow_left_only_when_farms_run_out (date : Z) (stp : Status)
    (valid : list string) (st : State) :
  0 <= TRUCK_CAPACITY (fst st) ->
  0 <= st_max stp ->
  0 < st_current stp ->
  st_max stp < inventory (_dispatch_logic date stp valid st) (st_stp_id stp) ->
  length (_dispatch_logic_steps date stp valid st)
  = length (candidates_of stp valid st).
Proof.
  intros HT Hmax Hcur Hover. unfold _dispatch_logic, _dispatch_logic_steps in *.
  apply Qle_bool_gt in Hcur. rewrite Hcur in *.
  now apply greedy_dispatch_all_shipped.
Qed.
End OverflowStays.

Section ReplayStops.
Import Metrics.

Lemma fold_insert_other {B} (g : gmap string Q -> B -> Q) (key : B -> string)
    (rows : list B) (id : string) : forall (m : gmap string Q),
  id ∉ map key rows ->
  foldl (fun m row => <[key row := g m row]> m) m rows !! id = m !! id.
Proof.
  induction rows as [|r rows IH]; intros m Hid; simpl; [reflexivity|].
  simpl in Hid. apply not_elem_of_cons in Hid as [Hne Hid].
  rewrite IH by exact Hid. apply lookup_insert_ne. congruence.
Qed.

Lemma start_only_registry dm : only_registry_keys dm (start dm).
Proof.
  intros id Hid. unfold start. simpl.
  rewrite (fold_insert_other (fun _ _ => 0) stp_id _ id ∅ Hid). apply lookup_empty.
Qed.

Lemma update_flow_only_registry dm a :
  only_registry_keys dm a -> only_registry_keys dm (update_flow dm a).
Proof.
  intros H id Hid. unfold update_flow. simpl.
  rewrite (fold_insert_other
             (fun m stp => get0 m (stp_id stp) + daily_output_tons stp) stp_id _ id _ Hid).
  now apply H.
Qed.

Lemma check_overflow_only_registry dm a :
  only_registry_keys dm a -> only_registry_keys dm (check_overflow dm a).
Proof.
  intros H id Hid. unfold check_overflow.
  assert (G : forall rows a0, id ∉ map stp_id rows ->
    stp_storage (foldl (check_overflow_row (DataManager.config dm)) a0 rows) !! id
    = stp_storage a0 !! id).
  { induction rows as [|r rows IH]; intros a0 Hr; simpl; [reflexivity|].
    simpl in Hr. apply not_elem_of_cons in Hr as [Hne Hr].
    rewrite IH by exact Hr. unfold check_overflow_row.
    destruct (Qltb _ _); [|reflexivity]. simpl. apply lookup_insert_ne. congruence. }
  rewrite G by exact Hid. now apply H.
Qed.

Lemma process_moves_only_registry dm date moves : forall a a',
  only_registry_keys dm a ->
  process_moves dm date a moves = Some a' ->
  only_registry_keys dm a'.
Proof.
  induction moves as [|row rest IH]; intros a a' Ha H; simpl in H.
  - now injection H as <-.
  - destruct (process_move dm date a row) as [a1|] eqn:E; [|discriminate].
    apply (IH a1 a'); [|exact H].
    unfold process_move in E.
    destruct (stp_storage a !! ev_stp_id row) as [held|] eqn:Eh; [|discriminate].
    destruct (DataManager.get_demand_for_day dm date); [|discriminate].
    injection E as <-. intros id Hid. simpl.
    rewrite lookup_insert_ne; [now apply Ha|].
    intros E'. rewrite E' in Eh. rewrite (Ha _ Hid) in Eh. discriminate.
Qed.

Lemma process_moves_stops dm date moves row : forall a,
  row ∈ moves ->
  stp_storage a !! ev_stp_id row = None \/ DataManager.get_demand_for_day dm date = None ->
  process_moves dm date a moves = None.
Proof.
  intros a Hin Hbad. revert a Hbad.
  induction moves as [|r rest IH]; intros a Hbad; [now apply elem_of_nil in Hin|].
  simpl. destruct (process_move dm date a r) as [a1|] eqn:E; [|reflexivity].
  unfold process_move in E.
  destruct (stp_storage a !! ev_stp_id r) as [held|] eqn:Eh; [|discriminate].
  destruct (DataManager.get_demand_for_day dm date) as [dd|] eqn:Ed; [|discriminate].
  injection E as <-.
  destruct Hbad as [Hbad|Hbad]; [|discriminate].
  apply elem_of_cons in Hin as [->|Hin]; [congruence|].
  apply IH; [exact Hin|]. left. simpl.
  rewrite lookup_insert_ne; [exact Hbad|]. intros E. rewrite E in Eh. congruence.
Qed.

Lemma replay_day_stops dm sol a date row :
  row ∈ sol -> ev_date row = date ->
  stp_storage a !! ev_stp_id row = None \/ DataManager.get_demand_for_day dm date = None ->
  (stp_storage a !! ev_stp_id row = None ->
   stp_storage (update_flow dm a) !! ev_stp_id row = None) ->
  replay_day dm sol a date = None.
Proof.
  intros Hin Hd Hbad Hflow. unfold replay_day.
  assert (Hm : row ∈ moves_of sol date).
  { unfold moves_of. apply list_elem_of_In, filter_In.
    split; [now apply list_elem_of_In | lia]. }
  destruct (moves_of sol date) as [|r rest] eqn:Em; [now apply elem_of_nil in Hm|].
  rewrite (process_moves_stops dm date (r :: rest) row (update_flow dm a) Hm);
    [reflexivity|].
  destruct Hbad as [H|H]; [left; now apply Hflow | now right].
Qed.

(** X22: when the replay stops.  If some log row dated within the year
    names a plant that is not in the registry, or falls on a date the
    demand table has no row for, the replay returns no scoreboard. *)
Theorem replay_stops (dm : DataManager.t) (sol : list Event) (row : Event) :
  row ∈ sol ->
  ev_date row ∈ year_dates (year (DataManager.config dm)) ->
  ev_stp_id row ∉ map stp_id (DataManager.stp_df dm)
  \/ DataManager.get_demand_for_day dm (ev_date row) = None ->
  calculate_metrics dm sol = None.
Proof.
  intros Hin Hd Hbad. unfold calculate_metrics.
  assert (G : forall dates a, ev_date row ∈ dates -> only_registry_keys dm a ->
                replay dm sol a dates = None).
  { induction dates as [|date rest IH]; intros a Hdate Ha;
      [now apply elem_of_nil in Hdate|].
    simpl. destruct (replay_day dm sol a date) as [a1|] eqn:E; [|reflexivity].
    destruct (decide (ev_date row = date)) as [Heq|Hne].
    - rewrite (replay_day_stops dm sol a date row Hin Heq) in E; [discriminate| |].
      + destruct Hbad as [H|H]; [left; now apply Ha | right; now rewrite <- Heq].
      + intros _. destruct Hbad as [H|H].
        * now apply update_flow_only_registry.
        * destruct (decide (ev_stp_id row ∈ map stp_id (DataManager.stp_df dm)))
            as [Hk|Hk]; [|now apply update_flow_only_registry].
          exfalso. unfold replay_day in E.
          assert (Hm : row ∈ moves_of sol date).
          { unfold moves_of. apply list_elem_of_In, filter_In.
            split; [now apply list_elem_of_In | lia]. }
          destruct (moves_of sol date) as [|r rs] eqn:Em;
            [now apply elem_of_nil in Hm|].
          destruct (process_moves dm date (update_flow dm a) (r :: rs)) as [a2|] eqn:E2;
            [|discriminate].
          unfold aggregate in E. rewrite <- Heq, H in E. discriminate.
    - apply IH.
      + apply elem_of_cons in Hdate as [?|?]; [congruence | assumption].
      + unfold replay_day in E.
        destruct (moves_of sol date) as [|r rs].
        * injection E as <-.
          now apply check_overflow_only_registry, update_flow_only_registry.
        * destruct (process_moves dm date (update_flow dm a) (r :: rs)) as [a2|] eqn:E2;
            [|discriminate].
          destruct (aggregate dm date a2 (r :: rs)) as [a3|] eqn:E3; [|discriminate].
          injection E as <-. apply check_overflow_only_registry.
          apply process_moves_only_registry in E2;
            [|now apply update_flow_only_registry].
          unfold aggregate in E3.
          destruct (DataManager.get_demand_for_day dm date) as [dd|]; [|discriminate].
          injection E3 as <-. intros id Hid.
          destruct (credit_farms_totals (DataManager.config dm) dd
                      (farm_totals (r :: rs)) a2) as (_ & _ & _ & _ & _ & ->).
          now apply E2. }
  rewrite (G _ _ Hd (start_only_registry dm)). reflexivity.
Qed.
End ReplayStops.

(** * The further properties on the small instance *)

Lemma no_delivery_to_locked_zone_witness :
  match GreedySolver._process_day_steps Sample.solver Sample.day1 with
  | Some steps =>
      Forall (fun t => exists z,
                (ev_farm_id (GreedySolver.t_event t), z)
                  ∈ GreedySolver.farm_zone_map Sample.solver
                /\ DataManager.rain_locked (GreedySolver.dm Sample.solver) Sample.day1 z
                   = false) steps
  | None => False
  end.
Proof.
  destruct (GreedySolver._process_day_steps Sample.solver Sample.day1) as [steps|] eqn:E.
  - exact (no_delivery_to_locked_zone Sample.solver Sample.day1 steps E).
  - assert (H : match GreedySolver._process_day_steps Sample.solver Sample.day1 with
                | Some _ => true
                | None => false
                end = true) by (vm_compute; reflexivity).
    rewrite E in H. discriminate.
Defined.

Lemma one_truck_per_plant_and_farm_per_day_witness :
  match GreedySolver._process_day_steps Sample.solver Sample.day1 with
  | Some steps =>
      (length steps
       <= length (DataManager.stp_df (GreedySolver.dm Sample.solver))
          * length (GreedySolver.valid_farms Sample.solver Sample.day1))%nat
      /\ NoDup (map (fun t => (ev_stp_id (GreedySolver.t_event t),
                               ev_farm_id (GreedySolver.t_event t))) steps)
  | None => False
  end.
Proof.
  destruct (GreedySolver._process_day_steps Sample.solver Sample.day1) as [steps|] eqn:E.
  - destruct (one_truck_per_plant_and_farm_per_day Sample.solver Sample.day1 steps E)
      as [H1 H2].
    split; [exact H1|]. apply H2.
    + apply NoDup_singleton.
    + change (NoDup (map fst (DataManager.get_farm_zone_map Sample.dm))).
      unfold DataManager.get_farm_zone_map. apply fold_odict_NoDup. constructor.
  - assert (H : match GreedySolver._process_day_steps Sample.solver Sample.day1 with
                | Some _ => true
                | None => false
                end = true) by (vm_compute; reflexivity).
    rewrite E in H. discriminate.
Defined.



Lemma ledger_mass_balance_witness :
  match GreedySolver.run (GreedySolver.init Sample.dm) Sample.three_days with
  | Some s' =>
      GreedySolver.stored s' "STP_1"
      == inject_Z (Z.of_nat (length Sample.three_days))
         * daily_output_of "STP_1" (DataManager.stp_df Sample.dm)
         - tons_from "STP_1" (GreedySolver.solution s')
  | None => False
  end.
Proof.
  destruct (GreedySolver.run (GreedySolver.init Sample.dm) Sample.three_days)
    as [s'|] eqn:E.
  - exact (ledger_mass_balance Sample.dm Sample.three_days s' "STP_1" E).
  - assert (H : match GreedySolver.run (GreedySolver.init Sample.dm)
                        Sample.three_days with
                | Some _ => true
                | None => false
                end = true) by (vm_compute; reflexivity).
    rewrite E in H. discriminate.
Defined.

Lemma log_is_grouped_by_date_witness :
  match GreedySolver.run (GreedySolver.init Sample.dm) Sample.three_days with
  | Some s' =>
      exists days,
        GreedySolver.solution s' = concat days
        /\ Forall2 (fun date evs =>
             Forall (fun e =>
                       ev_date e = date
                       /\ ev_stp_id e ∈ map stp_id (DataManager.stp_df Sample.dm)
                       /\ ev_farm_id e
                            ∈ GreedySolver.valid_farms (GreedySolver.init Sample.dm) date)
               evs) Sample.three_days days
  | None => False
  end.
Proof.
  destruct (GreedySolver.run (GreedySolver.init Sample.dm) Sample.three_days)
    as [s'|] eqn:E.
  - exact (log_is_grouped_by_date Sample.dm Sample.three_days s' E).
  - assert (H : match GreedySolver.run (GreedySolver.init Sample.dm)
                        Sample.three_days with
                | Some _ => true
                | None => false
                end = true) by (vm_compute; reflexivity).
    rewrite E in H. discriminate.
Defined.

Lemma unlisted_date_or_zone_is_open_witness :
  DataManager.rain_locked Sample.dm Sample.day1 "Z9" = false.
Proof.
  apply (unlisted_date_or_zone_is_open Sample.taxicab exact_forward_sum Sample.cfg
           Sample.stps Sample.farms Sample.weather Sample.demand Sample.day1 "Z9").
  right. simpl. intros H.
  apply elem_of_cons in H as [H|H]; [discriminate|].
  apply elem_of_cons in H as [H|H]; [discriminate|].
  now apply elem_of_nil in H.
Defined.

Lemma replay_keeps_within_capacity_witness :
  match Metrics.replay Sample.dm Sample.two_loads (Metrics.start Sample.dm)
          Sample.three_days with
  | Some a' => get0 (Metrics.stp_storage a') "STP_1" <= 40
  | None => False
  end.
Proof.
  destruct (Metrics.replay Sample.dm Sample.two_loads (Metrics.start Sample.dm)
              Sample.three_days) as [a'|] eqn:E.
  - apply (replay_keeps_within_capacity Sample.dm Sample.two_loads Sample.three_days
             (Metrics.start Sample.dm) a' Sample.plant).
    + discriminate.
    + exact E.
    + left.
  - assert (H : match Metrics.replay Sample.dm Sample.two_loads (Metrics.start Sample.dm)
                        Sample.three_days with
                | Some _ => true
                | None => false
                end = true) by (vm_compute; reflexivity).
    rewrite E in H. discriminate.
Defined.

Lemma overflow_check_exact_witness :
  Metrics.total_overflow_penalty (Metrics.check_overflow Sample.dm Cases.unserved_ledger)
  == Metrics.total_overflow_penalty Cases.unserved_ledger
     + Qsum (map (fun stp =>
                    Qmax 0 (get0 (Metrics.stp_storage Cases.unserved_ledger) (stp_id stp)
                            - storage_max_tons stp)
                    * stp_overflow_penalty_kg_co2_per_ton (DataManager.config Sample.dm))
               (DataManager.stp_df Sample.dm)).
Proof.
  apply (overflow_check_exact Sample.dm Cases.unserved_ledger). apply NoDup_singleton.
Defined.

Lemma late_row_outside_year :
  ev_date Cases.late_row ∉ year_dates (year (DataManager.config Sample.dm)).
Proof.
  intros H. apply elem_of_seqZ in H. revert H. vm_compute.
  intros [_ H]. discriminate H.
Defined.

Lemma row_outside_year_not_replayed_witness :
  match Metrics.calculate_metrics Sample.dm (Sample.two_loads ++ Cases.late_row :: []),
        Metrics.calculate_metrics Sample.dm (Sample.two_loads ++ []) with
  | Some m, Some m0 =>
      Metrics.net_carbon_credit_score m = Metrics.net_carbon_credit_score m0
      /\ Metrics.synthetic_fertilizer_offset m = Metrics.synthetic_fertilizer_offset m0
      /\ Metrics.soil_carbon_sequestration m = Metrics.soil_carbon_sequestration m0
      /\ Metrics.transport_emissions m = Metrics.transport_emissions m0
      /\ Metrics.nitrogen_leaching m = Metrics.nitrogen_leaching m0
      /\ Metrics.stp_overflow m = Metrics.stp_overflow m0
      /\ Metrics.total_delivered_tons m
         == Metrics.total_delivered_tons m0 + tons_delivered Cases.late_row
      /\ Metrics.total_round_trip_km m
         == Metrics.total_round_trip_km m0 + Metrics.row_dist Sample.dm Cases.late_row * 2
  | None, None => True
  | _, _ => False
  end.
Proof.
  exact (row_outside_year_not_replayed Sample.dm Sample.two_loads [] Cases.late_row
           late_row_outside_year).
Defined.

Lemma two_loads_in_year (row : Event) :
  row ∈ Sample.two_loads ->
  ev_date row ∈ year_dates (year (DataManager.config Sample.dm)).
Proof.
  unfold Sample.two_loads. intros H.
  assert (Hd : ev_date row = Sample.day1).
  { apply elem_of_cons in H as [->|H]; [reflexivity|].
    apply elem_of_cons in H as [->|H]; [reflexivity|].
    now apply elem_of_nil in H. }
  rewrite Hd. apply elem_of_seqZ. vm_compute. split; congruence.
Defined.

Lemma transport_is_half_round_trip_witness :
  match Metrics.calculate_metrics Sample.dm Sample.two_loads with
  | Some m =>
      Metrics.transport_emissions m * 2
      == Metrics.total_round_trip_km m
         * diesel_emission_factor_kg_co2_per_km (DataManager.config Sample.dm)
  | None => False
  end.
Proof.
  destruct (Metrics.calculate_metrics Sample.dm Sample.two_loads) as [m|] eqn:E.
  - exact (transport_is_half_round_trip Sample.dm Sample.two_loads m two_loads_in_year E).
  - assert (H : match Metrics.calculate_metrics Sample.dm Sample.two_loads with
                | Some _ => true
                | None => false
                end = true) by (vm_compute; reflexivity).
    rewrite E in H. discriminate.
Defined.

Lemma two_loads_replayable (row : Event) :
  row ∈ Sample.two_loads ->
  ev_date row ∈ year_dates (year (DataManager.config Sample.dm)) ->
  ev_stp_id row ∈ map stp_id (DataManager.stp_df Sample.dm)
  /\ is_Some (DataManager.get_demand_for_day Sample.dm (ev_date row)).
Proof.
  unfold Sample.two_loads. intros H _.
  assert (Hd : ev_date row = Sample.day1 /\ ev_stp_id row = "STP_1").
  { apply elem_of_cons in H as [->|H]; [split; reflexivity|].
    apply elem_of_cons in H as [->|H]; [split; reflexivity|].
    now apply elem_of_nil in H. }
  destruct Hd as [-> ->]. split; [left|].
  apply get_demand_for_day_covered. apply sample_demand_covers.
  apply elem_of_seqZ. vm_compute. split; congruence.
Defined.

Lemma replay_succeeds_witness :
  is_Some (Metrics.replay Sample.dm Sample.two_loads (Metrics.start Sample.dm)
             (year_dates (year (DataManager.config Sample.dm)))).
Proof.
  exact (replay_succeeds Sample.dm Sample.two_loads two_loads_replayable).
Defined.

Lemma engine_log_replays_witness :
  match GreedySolver.solve (GreedySolver.init Sample.dm) with
  | Some (e :: log) =>
      is_Some (Metrics.replay Sample.dm (e :: log) (Metrics.start Sample.dm)
                 (year_dates (year (DataManager.config Sample.dm))))
  | _ => False
  end.
Proof.
  destruct (GreedySolver.solve (GreedySolver.init Sample.dm)) as [[|e log]|] eqn:E.
  - assert (H : match GreedySolver.solve (GreedySolver.init Sample.dm) with
                | Some (_ :: _) => true
                | _ => false
                end = true) by (vm_compute; reflexivity).
    rewrite E in H. discriminate.
  - apply (engine_log_replays Sample.dm (e :: log) E). discriminate.
  - assert (H : match GreedySolver.solve (GreedySolver.init Sample.dm) with
                | Some (_ :: _) => true
                | _ => false
                end = true) by (vm_compute; reflexivity).
    rewrite E in H. discriminate.
Defined.

Lemma dashboard_lock_agrees_with_index_witness :
  "Z2" ∈ App.rain_locked_zones exact_frame_sum Sample.cfg Sample.weather
           (Sample.day1 + 364)%Z
  <-> DataManager.rain_locked Sample.dm (Sample.day1 + 364)%Z "Z2" = true.
Proof.
  apply (dashboard_lock_agrees_with_index Sample.taxicab exact_forward_sum
           exact_frame_sum Sample.cfg Sample.stps Sample.farms Sample.weather
           Sample.demand Sample.day1 (Sample.day1 + 364)%Z "Z2" 0).
  - vm_compute; reflexivity.
  - reflexivity.
  - vm_compute; congruence.
  - vm_compute; congruence.
  - vm_compute; split; congruence.
  - vm_compute. exists 7. split; [reflexivity | split; vm_compute; congruence].
  - vm_compute; split; congruence.
  - right. vm_compute; congruence.
Defined.

Lemma overflow_left_only_when_farms_run_out_witness :
  length (GreedySolver._dispatch_logic_steps (Sample.day1 + 2)%Z Cases.third_status
            (GreedySolver.valid_farms Sample.solver (Sample.day1 + 2)%Z)
            Cases.third_morning)
  = length (GreedySolver.candidates_of Cases.third_status
              (GreedySolver.valid_farms Sample.solver (Sample.day1 + 2)%Z)
              Cases.third_morning).
Proof.
  apply overflow_left_only_when_farms_run_out.
  - vm_compute; congruence.
  - vm_compute; congruence.
  - vm_compute; reflexivity.
  - vm_compute; reflexivity.
Defined.

Lemma replay_stops_witness :
  Metrics.calculate_metrics Sample.dm (Sample.two_loads ++ [Cases.alien_row]) = None.
Proof.
  apply (replay_stops Sample.dm _ Cases.alien_row).
  - apply elem_of_app. right. left.
  - apply elem_of_seqZ. vm_compute. split; congruence.
  - left. simpl. intros H.
    apply elem_of_cons in H as [H|H]; [discriminate|].
    now apply elem_of_nil in H.
Defined.

(** With a configured window of two days the dashboard and the index
    part ways: the dashboard still sums five days. *)
Example dashboard_sums_five_days_whatever_the_window :
  let cfg2 :=
    {| truck_capacity_tons := 10;
       nitrogen_content_kg_per_ton_biosolid := 25;
       stp_overflow_penalty_kg_co2_per_ton := 1000;
       synthetic_n_offset_credit_kg_co2_per_kg_n := 5;
       soil_organic_carbon_gain_kg_co2_per_kg_biosolid := 2 # 10;
       diesel_emission_factor_kg_co2_per_km := 9 # 10;
       leaching_penalty_kg_co2_per_kg_excess_n := 10;
       rain_lock_threshold_mm := 30;
       forecast_window_days := 2;
       year := 2025 |} in
  App.rain_locked_zones exact_frame_sum cfg2 Sample.weather Sample.day1 = ["Z2"]
  /\ DataManager.rain_locked
       (DataManager.init Sample.taxicab exact_forward_sum cfg2 Sample.stps Sample.farms
          Sample.weather Sample.demand) Sample.day1 "Z2" = false.
Proof. vm_compute. split; reflexivity. Qed.
